(** * HERR (High Error Rate Routing): a shallow embedding of [HERR.py]

    The development models the routing pass of [src/HERR.py] together with
    the few library operations it calls (Qiskit's [CouplingMap] and
    [Layout], networkx's weighted graph and shortest path search), and
    checks the properties the specification states about it.

    Conventions of the model.
    - Physical qubits are natural numbers (indices of the coupling map).
    - The input circuit has one quantum register [q]; logical qubit [i] is
      the bit [q[i]].  ([run] looks the register up by that name and
      translates every bit of the output circuit through a layout built
      from that register only, so any other shape raises [KeyError].)
    - Link weights are Python floats in the source; they are modelled by
      exact rationals.  Every concrete evaluation below uses dyadic weights
      ([1], [1/2], [1/4]) whose products are exact in binary floating
      point as well.
    - Python exceptions are modelled by the error monad [result].
    - The tests [is] and [is not] that the source applies to qubit indices
      compare objects, not values.  Which integer objects are shared is
      left to the interpreter: it is the parameter [int_is] of the class
      [Libraries].  CPython keeps one object for each integer from -5 to
      256; the statements that depend on the outcome of such a test say
      so and bound the indices.
    - What the libraries leave open is a parameter of the model, the
      class [Libraries]: the order in which a Python [set] is iterated,
      and which of several shortest paths a search returns.  General
      statements hold for every instance.  Concrete evaluations use the
      instance [reference_libraries] (sets enumerated in order of first
      insertion, breadth-first search) on inputs where every shortest
      path that is asked for is unique; where the enumeration order of
      the candidate set matters, the statement says so.

    - [run] is modelled twice.  The functions [run_store] and [run] work
      on the circuits as values; they carry the statements about what is
      emitted.  The function [run_on] works on references to circuit
      objects in a heap, where a method writes into the object it is
      called on; it carries the statement about the argument of [run],
      and it is proved to return the circuit that [run] computes.

    The second part of the properties covers the code around the pass:
    the assignment of paths, the trace of a run and the swap chains of
    [HERR.py] in detail, the wrapper [routeUsingHerr] of
    [BAROQUE_Herr_Wrapper.py], the error map that
    [BAROQUE_IBM_Interface.py] reads from the device data, and the gate
    counts and the accuracy of [BAROQUE_Metrics.py]. *)

From Stdlib Require Import QArith Qpower.
From stdpp Require Import gmap list strings.

(** ** Python exceptions *)

Inductive PyError : Type :=
| TranspilerError
| CouplingError
| KeyError
| TypeError
| IndexError.

Inductive result (A : Type) : Type :=
| Ok (a : A)
| Raise (e : PyError).
Arguments Ok {A} a.
Arguments Raise {A} e.

Definition rbind {A B : Type} (m : result A) (k : A → result B) : result B :=
  match m with
  | Ok a => k a
  | Raise e => Raise e
  end.

#[global] Instance result_ret : MRet result := fun A a => Ok a.
#[global] Instance result_bind : MBind result := fun A B k m => rbind m k.

(** A [for] loop that collects one value per element and stops at the
    first exception. *)
Fixpoint for_each {A B : Type} (f : A → result B) (l : list A) : result (list B) :=
  match l with
  | [] => Ok []
  | x :: r =>
      y ← f x;
      ys ← for_each f r;
      Ok (y :: ys)
  end.

Definition of_option {A : Type} (e : PyError) (o : option A) : result A :=
  match o with
  | Some a => Ok a
  | None => Raise e
  end.

(** ** Coupling map (Qiskit [CouplingMap]) and the library searches *)

Record CouplingMap : Type := { get_edges : list (nat * nat) }.

(** [physical_qubits]: the graph has the nodes [0 .. max index]. *)
Definition size (cm : CouplingMap) : nat :=
  match get_edges cm with
  | [] => 0
  | _ => S (foldr (fun e m => Nat.max (Nat.max e.1 e.2) m) 0 (get_edges cm))
  end.

Definition neighbors (es : list (nat * nat)) (u : nat) : list nat :=
  flat_map (fun e : nat * nat =>
              if e.1 =? u then [e.2] else if e.2 =? u then [e.1] else []) es.

Definition memb (x : nat) (l : list nat) : bool := existsb (Nat.eqb x) l.

Fixpoint dedup (l : list nat) : list nat :=
  match l with
  | [] => []
  | x :: r => if memb x r then dedup r else x :: dedup r
  end.

(** Breadth-first search over the undirected view of an edge list.  The
    frontier holds, for every node of the current level, the path that
    reached it, last node first. *)
Fixpoint expand (es : list (nat * nat)) (visited : list nat)
    (frontier : list (list nat)) : list nat * list (list nat) :=
  match frontier with
  | [] => (visited, [])
  | p :: rest =>
      let fresh :=
        filter (fun v => negb (memb v visited)) (dedup (neighbors es (hd 0 p))) in
      let '(vis, nxt) := expand es (fresh ++ visited) rest in
      (vis, map (fun v => v :: p) fresh ++ nxt)
  end.

Fixpoint bfs (fuel : nat) (es : list (nat * nat)) (dst : nat)
    (visited : list nat) (frontier : list (list nat)) : option (list nat) :=
  match fuel with
  | 0 => None
  | S fuel' =>
      match find (fun p => hd 0 p =? dst) frontier with
      | Some p => Some (rev p)
      | None =>
          match frontier with
          | [] => None
          | _ =>
              let '(vis, nxt) := expand es visited frontier in
              bfs fuel' es dst vis nxt
          end
      end
  end.

(** One shortest path from [src] to [dst], both included. *)
Definition bfs_path (es : list (nat * nat)) (src dst : nat) : option (list nat) :=
  bfs (2 * length es + 2) es dst [src] [[src]].

(** Two nodes joined by an edge, in either direction, and the paths that
    follow such edges. *)
Definition linked (es : list (nat * nat)) (u v : nat) : Prop :=
  In (u, v) es ∨ In (v, u) es.

Fixpoint walk (es : list (nat * nat)) (path : list nat) : Prop :=
  match path with
  | a :: (b :: _) as r => linked es a b ∧ walk es r
  | _ => True
  end.

(** Invariant of the search: every path of the frontier, read backwards,
    is a walk that starts at [src]. *)
Definition frontier_ok (es : list (nat * nat)) (src : nat)
    (frontier : list (list nat)) : Prop :=
  Forall (fun p => p ≠ [] ∧ walk es (rev p) ∧ hd_error (rev p) = Some src) frontier.

Definition edge_eqb (e f : nat * nat) : bool := (e.1 =? f.1) && (e.2 =? f.2).

(** First-insertion enumeration of a set of pairs. *)
Definition first_insertion_order (inserted : list (nat * nat)) : list (nat * nat) :=
  foldl (fun s e => if existsb (edge_eqb e) s then s else s ++ [e]) [] inserted.

(** The library behaviour the source relies on.
    - [set_iteration inserted]: the order in which [for x in s] enumerates
      the set [s] built by adding the elements of [inserted] one by one.
    - [nx_shortest_path edges s t]: [networkx.shortest_path] on the
      undirected graph with these edges, [None] for [NetworkXNoPath].
    - [rx_shortest_path edges s t]: the path returned by
      [CouplingMap.shortest_undirected_path], [None] when it raises.
    - [rx_distance edges s t]: [CouplingMap.distance], [None] when it
      raises.
    - [int_is a b]: the test [x is y] of the interpreter on two integer
      objects [x] and [y] that hold the qubit indices [a] and [b]. *)
Class Libraries : Type := {
  set_iteration : list (nat * nat) → list (nat * nat);
  nx_shortest_path : list (nat * nat) → nat → nat → option (list nat);
  rx_shortest_path : list (nat * nat) → nat → nat → option (list nat);
  rx_distance : list (nat * nat) → nat → nat → option nat;
  int_is : nat → nat → bool
}.

(** The test [is] of CPython on the integers that reach the pass: one
    object for each integer up to 256; above, the indices read from the
    layout and those of the edge tuples are different objects. *)
Definition cpython_is (a b : nat) : bool := (a =? b) && (a <=? 256).

Definition reference_libraries : Libraries := {|
  set_iteration := first_insertion_order;
  nx_shortest_path := bfs_path;
  rx_shortest_path := bfs_path;
  rx_distance := fun es s t => (fun p => length p - 1) <$> bfs_path es s t;
  int_is := cpython_is
|}.

(** [CouplingMap.shortest_undirected_path]. *)
Definition shortest_undirected_path `{Libraries} (cm : CouplingMap) (p1 p2 : nat)
  : result (list nat) :=
  of_option CouplingError (rx_shortest_path (get_edges cm) p1 p2).

(** [CouplingMap.distance]: number of links on a shortest path. *)
Definition distance `{Libraries} (cm : CouplingMap) (p1 p2 : nat) : result nat :=
  of_option CouplingError (rx_distance (get_edges cm) p1 p2).

(** ** Reliability model (the networkx graph [qubitAccuracy]) *)

(** An undirected graph with a [weight] on every edge: a finite map from
    the ordered pair of the endpoints to the weight. *)
Definition edge_key (u v : nat) : nat * nat := (Nat.min u v, Nat.max u v).

(** [[u, v] in qubitAccuracy.edges()] *)
Definition has_edge (acc : gmap (nat * nat) Q) (u v : nat) : bool :=
  bool_decide (is_Some (acc !! edge_key u v)).

(** [qubitAccuracy.edges[u, v]['weight']] *)
Definition edge_weight (acc : gmap (nat * nat) Q) (u v : nat) : result Q :=
  of_option KeyError (acc !! edge_key u v).

(** ** Layout (Qiskit [Layout]) *)

Record Layout : Type := {
  p2v : gmap nat nat;   (* physical -> logical *)
  v2p : gmap nat nat    (* logical -> physical *)
}.

Definition empty_layout : Layout := {| p2v := ∅; v2p := ∅ |}.

(** [layout[virtual]] *)
Definition physical_of (l : Layout) (v : nat) : result nat :=
  of_option KeyError (v2p l !! v).

(** [layout[physical]] *)
Definition logical_of (l : Layout) (p : nat) : result nat :=
  of_option KeyError (p2v l !! p).

Definition map_pop (m : gmap nat nat) (k : option nat) : gmap nat nat :=
  match k with
  | Some k => delete k m
  | None => m
  end.

(** [Layout._set_type_checked_item] *)
Definition set_item (l : Layout) (virtual physical : nat) : Layout :=
  let old := v2p l !! virtual in
  let v2p1 := delete virtual (v2p l) in
  let p2v1 := map_pop (p2v l) old in
  let old' := p2v1 !! physical in
  let p2v2 := delete physical p2v1 in
  let v2p2 := map_pop v2p1 old' in
  {| p2v := <[physical := virtual]> p2v2; v2p := <[virtual := physical]> v2p2 |}.

(** [Layout.swap(left, right)] on two physical qubits. *)
Definition swap (l : Layout) (left right : nat) : result Layout :=
  temp ← logical_of l left;
  r ← logical_of l right;
  let l1 := set_item l r left in
  Ok (set_item l1 temp right).

(** [Layout.generate_trivial_layout(register)] for a register of [n] bits. *)
Definition generate_trivial_layout (n : nat) : Layout :=
  foldl (fun l i => set_item l i i) empty_layout (seq 0 n).

(** [Layout.reorder_bits(bits)] for the bits [q[0] .. q[n-1]]. *)
Definition reorder_bits (l : Layout) (n : nat) : result (list nat) :=
  for_each (physical_of l) (seq 0 n).

(** ** Circuits *)

Record DAGOpNode : Type := {
  name : string;
  qargs : list nat;
  cargs : list nat;
  directive : bool
}.

(** [nodes] lists the operations in the order [serial_layers] yields them
    (one operation per layer). *)
Record DAGCircuit : Type := {
  qreg : nat;                       (* size of the quantum register q *)
  cregs : list (string * nat);      (* classical registers *)
  nodes : list DAGOpNode
}.

Definition SwapGate (q1 q2 : nat) : DAGOpNode :=
  {| name := "swap"; qargs := [q1; q2]; cargs := []; directive := false |}.

(** [subdag.two_qubit_ops()] *)
Definition is_two_qubit_op (g : DAGOpNode) : bool :=
  negb (directive g) && (length (qargs g) =? 2).

(** [new_dag.compose(other, qubits=order)]: bit [i] of [other] is wired to
    bit [order[i]] of a circuit with [n] qubits. *)
Definition wire (n : nat) (order : list nat) (v : nat) : result nat :=
  p ← of_option IndexError (order !! v);
  if p <? n then Ok p else Raise IndexError.

Definition compose_node (n : nat) (order : list nat) (g : DAGOpNode)
  : result DAGOpNode :=
  ps ← for_each (wire n order) (qargs g);
  Ok {| name := name g; qargs := ps; cargs := cargs g; directive := directive g |}.

Definition compose (n : nat) (order : list nat) (other : list DAGOpNode)
  : result (list DAGOpNode) :=
  for_each (compose_node n order) other.

(** ** The routing pass ([HERR.py]) *)

Record HERR : Type := {
  couplingMap : CouplingMap;
  qubitAccuracy : gmap (nat * nat) Q;
  initial_layout : option Layout;
  searchDepth : nat
}.

(** [HERR.__init__(couplingMap, qubitAccuracy, initial_layout=None,
    searchDepth=2)] *)
Definition HERR_init (cm : CouplingMap) (acc : gmap (nat * nat) Q)
    (il : option Layout) (depth : option nat) : HERR :=
  {| couplingMap := cm; qubitAccuracy := acc; initial_layout := il;
     searchDepth := default 2 depth |}.

Section Routing.
Context `{Libraries}.

(** The pairs [(path[k], path[k+1])] for [k] in [range(count)]. *)
Definition hops (path : list nat) (count : nat) : list (nat * nat) :=
  map (fun k => (nth k path 0, nth (S k) path 0)) (seq 0 count).

(** The accumulation loop shared by the two accuracy functions:
    [accuracy = accuracy * (linkAccuracy ** 3)] for every pair. *)
Fixpoint accumulate (acc : gmap (nat * nat) Q) (a : Q) (pairs : list (nat * nat))
  : result Q :=
  match pairs with
  | [] => Ok a
  | (w1, w2) :: r =>
      linkAccuracy ← edge_weight acc w1 w2;
      accumulate acc (a * linkAccuracy ^ 3)%Q r
  end.

Definition in_graph (es : list (nat * nat)) (x : nat) : bool :=
  existsb (fun e : nat * nat => (e.1 =? x) || (e.2 =? x)) es.

(** [find_path_excluding]: shortest path in the coupling graph without
    [exQubit]; [None] when source and destination coincide or when there
    is no such path. *)
Definition find_path_excluding (h : HERR) (sourceQubit destQubit exQubit : nat)
  : option (list nat) :=
  if sourceQubit =? destQubit then None
  else
    let subGraphEdges :=
      filter (fun e : nat * nat => negb ((e.1 =? exQubit) || (e.2 =? exQubit)))
             (get_edges (couplingMap h)) in
    if in_graph subGraphEdges sourceQubit && in_graph subGraphEdges destQubit
    then nx_shortest_path subGraphEdges sourceQubit destQubit
    else None.

(** [len(x)], a [TypeError] on [None]. *)
Definition py_len (x : option (list nat)) : result nat :=
  match x with
  | Some p => Ok (length p)
  | None => Raise TypeError
  end.

Definition in_pair (x : nat) (d : nat * nat) : bool := (x =? d.1) || (x =? d.2).

(** [find_shortest_path(sourceQubits, destQubit)] returns [qubitPath], the
    path of each of the two source qubits. *)
Definition find_shortest_path (h : HERR) (sourceQubits destQubit : nat * nat)
  : result (option (list nat) * option (list nat)) :=
  let '(s0, s1) := sourceQubits in
  let '(d0, d1) := destQubit in
  let q0Paths0 := if negb (d0 =? s1) then find_path_excluding h s0 d0 s1 else None in
  let q0Paths1 := if negb (d1 =? s1) then find_path_excluding h s0 d1 s1 else None in
  let q1Paths0 := if negb (d0 =? s0) then find_path_excluding h s1 d0 s0 else None in
  let q1Paths1 := if negb (d1 =? s0) then find_path_excluding h s1 d1 s0 else None in
  if negb (in_pair s0 destQubit) && negb (in_pair s1 destQubit) then
    (* first comparison: its assignments are overwritten below, only its
       calls to [len] remain observable *)
    _ ← py_len q0Paths0;
    _ ← py_len q1Paths0;
    l01 ← py_len q0Paths1;
    l00 ← py_len q0Paths0;
    c0 ← (if l01 <? l00
          then (l11 ← py_len q1Paths1; Ok (l01 <? l11))
          else Ok false);
    let qubitPath0 := if c0 : bool then q0Paths1 else q0Paths0 in
    l11 ← py_len q1Paths1;
    l10 ← py_len q1Paths0;
    c1 ← (if l11 <? l10
          then (l01' ← py_len q0Paths1; Ok (l11 <? l01'))
          else Ok false);
    let qubitPath1 := if c1 : bool then q1Paths1 else q1Paths0 in
    Ok (qubitPath0, qubitPath1)
  else if negb (in_pair s0 destQubit) then
    if negb (int_is s1 d0) then Ok (q0Paths1, None) else Ok (q0Paths0, None)
  else if negb (in_pair s1 destQubit) then
    if negb (int_is s0 d0) then Ok (None, q1Paths0) else Ok (None, q1Paths1)
  else Ok (None, None).

(** [calc_shortest_path_accuracy(qubit1, qubit2)] *)
Definition calc_shortest_path_accuracy (h : HERR) (qubit1 qubit2 : nat) : result Q :=
  path ← shortest_undirected_path (couplingMap h) qubit1 qubit2;
  accumulate (qubitAccuracy h) 1%Q (hops path (length path - 2)).

Definition path_hops (p : option (list nat)) : list (nat * nat) :=
  match p with
  | Some path => hops path (length path - 1)
  | None => []
  end.

(** [calc_path_accuracy(sourceQubits, destQubit, current_layout)] *)
Definition calc_path_accuracy (h : HERR) (sourceQubits destQubit : nat * nat)
    (current_layout : Layout) : result Q :=
  qubitPath ← find_shortest_path h sourceQubits destQubit;
  match qubitPath with
  | (None, None) => Ok 0%Q
  | (qubitPath0, qubitPath1) =>
      a0 ← accumulate (qubitAccuracy h) 1%Q (path_hops qubitPath0);
      a1 ← accumulate (qubitAccuracy h) 1%Q (path_hops qubitPath1);
      opAccuracy ← edge_weight (qubitAccuracy h) destQubit.1 destQubit.2;
      Ok (opAccuracy * a0 * a1)%Q
  end.

(** [tuple(sorted(edge))] *)
Definition sorted_edge (e : nat * nat) : nat * nat :=
  if e.2 <? e.1 then (e.2, e.1) else e.

(** The set [uniqueEdges], as the loop enumerates it. *)
Definition unique_edges (cm : CouplingMap) : list (nat * nat) :=
  set_iteration (map sorted_edge (get_edges cm)).

(** The test of the candidate loop: both endpoints of [edge] are within
    [depth] of both qubits ([and] evaluates left to right and stops at the
    first false operand). *)
Definition within_depth (cm : CouplingMap) (qubit1 qubit2 : nat)
    (edge : nat * nat) (depth : nat) : result bool :=
  a ← distance cm qubit1 edge.1;
  if negb (a <=? depth) then Ok false else
  b ← distance cm qubit1 edge.2;
  if negb (b <=? depth) then Ok false else
  c ← distance cm qubit2 edge.1;
  if negb (c <=? depth) then Ok false else
  d ← distance cm qubit2 edge.2;
  Ok (d <=? depth).

(** [a > b] on weights. *)
Definition Qgtb (a b : Q) : bool := negb (Qle_bool a b).

(** The loop [for edge in uniqueEdges] of [find_better_link], over an
    explicit enumeration; the loop state is
    [(bestEdge, bestEdgeAccuracy, foundBetterEdge)]. *)
Fixpoint find_better_link_loop (h : HERR) (qubit1 qubit2 : nat)
    (currentLayout : Layout) (depth : nat) (uniqueEdges : list (nat * nat))
    (st : (nat * nat) * Q * bool) : result ((nat * nat) * Q * bool) :=
  match uniqueEdges with
  | [] => Ok st
  | edge :: rest =>
      let '(bestEdge, bestEdgeAccuracy, foundBetterEdge) := st in
      near ← within_depth (couplingMap h) qubit1 qubit2 edge depth;
      if near : bool then
        newLinkAccuracy ← calc_path_accuracy h bestEdge edge currentLayout;
        if Qgtb newLinkAccuracy bestEdgeAccuracy
        then find_better_link_loop h qubit1 qubit2 currentLayout depth rest
               (edge, newLinkAccuracy, true)
        else find_better_link_loop h qubit1 qubit2 currentLayout depth rest st
      else find_better_link_loop h qubit1 qubit2 currentLayout depth rest st
  end.

(** The baseline [bestEdgeAccuracy] computed before the loop. *)
Definition baseline_accuracy (h : HERR) (qubit1 qubit2 : nat) : result Q :=
  if has_edge (qubitAccuracy h) qubit1 qubit2
  then edge_weight (qubitAccuracy h) qubit1 qubit2
  else calc_shortest_path_accuracy h qubit1 qubit2.

Definition find_better_link_over (uniqueEdges : list (nat * nat)) (h : HERR)
    (qubit1 qubit2 : nat) (currentLayout : Layout) (depth : nat)
  : result (option (nat * nat)) :=
  bestEdgeAccuracy ← baseline_accuracy h qubit1 qubit2;
  st ← find_better_link_loop h qubit1 qubit2 currentLayout depth uniqueEdges
         ((qubit1, qubit2), bestEdgeAccuracy, false);
  let '(bestEdge, _, foundBetterEdge) := st in
  Ok (if foundBetterEdge : bool then Some bestEdge else None).

(** [find_better_link(qubit1, qubit2, currentLayout, depth)] *)
Definition find_better_link (h : HERR) (qubit1 qubit2 : nat)
    (currentLayout : Layout) (depth : nat) : result (option (nat * nat)) :=
  find_better_link_over (unique_edges (couplingMap h)) h qubit1 qubit2
    currentLayout depth.

(** The swap layer: one [SwapGate] per pair of wires, its arguments read
    from the layout as it stands when the layer is built. *)
Definition swap_layer (l : Layout) (pairs : list (nat * nat))
  : result (list DAGOpNode) :=
  for_each (fun w : nat * nat =>
          qubit_1 ← logical_of l w.1;
          qubit_2 ← logical_of l w.2;
          Ok (SwapGate qubit_1 qubit_2)) pairs.

(** The loops [current_layout.swap(path[k], path[k + 1])]. *)
Fixpoint apply_swaps (l : Layout) (pairs : list (nat * nat)) : result Layout :=
  match pairs with
  | [] => Ok l
  | w :: r =>
      l' ← swap l w.1 w.2;
      apply_swaps l' r
  end.

(** The objects [run] works on: its argument [dag], the circuit [new_dag]
    it builds, and [current_layout]. *)
Record Store : Type := {
  dag : DAGCircuit;
  new_dag : DAGCircuit;
  current_layout : Layout
}.

Definition append_nodes (d : DAGCircuit) (gs : list DAGOpNode) : DAGCircuit :=
  {| qreg := qreg d; cregs := cregs d; nodes := nodes d ++ gs |}.

(** Insertion of a swap layer along [pairs] followed by the update of the
    layout (lines 65-91 and 97-119 of [HERR.py]). *)
Definition insert_swaps (st : Store) (pairs : list (nat * nat)) : result Store :=
  layer ← swap_layer (current_layout st) pairs;
  order ← reorder_bits (current_layout st) (qreg (new_dag st));
  placed ← compose (qreg (new_dag st)) order layer;
  l' ← apply_swaps (current_layout st) pairs;
  Ok {| dag := dag st; new_dag := append_nodes (new_dag st) placed;
        current_layout := l' |}.

(** The body of [for gate in subdag.two_qubit_ops()]. *)
Definition route_gate (h : HERR) (st : Store) (gate : DAGOpNode) : result Store :=
  p0 ← physical_of (current_layout st) (nth 0 (qargs gate) 0);
  p1 ← physical_of (current_layout st) (nth 1 (qargs gate) 0);
  betterEdge ← find_better_link h p0 p1 (current_layout st) (searchDepth h);
  match betterEdge with
  | Some edge =>
      swapPath ← find_shortest_path h (p0, p1) edge;
      insert_swaps st (path_hops swapPath.1 ++ path_hops swapPath.2)
  | None =>
      d ← distance (couplingMap h) p0 p1;
      if negb (d =? 1) then
        path ← shortest_undirected_path (couplingMap h) p0 p1;
        insert_swaps st (hops path (length path - 2))
      else Ok st
  end.

(** The body of [for layer in dag.serial_layers()]; a serial layer holds
    one operation. *)
Definition route_layer (h : HERR) (st : Store) (gate : DAGOpNode) : result Store :=
  st1 ← (if is_two_qubit_op gate then route_gate h st gate else Ok st);
  order ← reorder_bits (current_layout st1) (qreg (new_dag st1));
  placed ← compose (qreg (new_dag st1)) order [gate];
  Ok {| dag := dag st1; new_dag := append_nodes (new_dag st1) placed;
        current_layout := current_layout st1 |}.

Fixpoint route_layers (h : HERR) (st : Store) (layers : list DAGOpNode)
  : result Store :=
  match layers with
  | [] => Ok st
  | gate :: rest =>
      st' ← route_layer h st gate;
      route_layers h st' rest
  end.

(** The state after the set-up of [run] (lines 40-51): the registers of
    [dag] are added to an empty [new_dag] and the layout is the trivial
    layout of the register [q]. *)
Definition initial_store (d : DAGCircuit) : Store :=
  {| dag := d;
     new_dag := {| qreg := qreg d; cregs := cregs d; nodes := [] |};
     current_layout := generate_trivial_layout (qreg d) |}.

(** [run], with the whole final state. *)
Definition run_store (h : HERR) (d : DAGCircuit) : result Store :=
  if size (couplingMap h) <? qreg d then Raise TranspilerError
  else route_layers h (initial_store d) (nodes d).

(** [HERR.run(dag)] *)
Definition run (h : HERR) (d : DAGCircuit) : result DAGCircuit :=
  st ← run_store h d;
  Ok (new_dag st).

End Routing.

#[global] Existing Instance reference_libraries.

(** ** Building inputs and reading results *)

Definition cx (a b : nat) : DAGOpNode :=
  {| name := "cx"; qargs := [a; b]; cargs := []; directive := false |}.

Definition hgate (a : nat) : DAGOpNode :=
  {| name := "h"; qargs := [a]; cargs := []; directive := false |}.

(** The weighted graph with the given links. *)
Definition weights (l : list (nat * nat * Q)) : gmap (nat * nat) Q :=
  list_to_map (map (fun kw : nat * nat * Q => (edge_key kw.1.1 kw.1.2, kw.2)) l).

Definition both_ways (es : list (nat * nat)) : list (nat * nat) :=
  flat_map (fun e : nat * nat => [e; (e.2, e.1)]) es.

(** What can be observed of a result: the emitted operations as
    [(name, qargs)] and the final layout as the list of the logical owners
    of the physical qubits [0 .. n-1]. *)
Definition observe (r : result Store)
  : result (list (string * list nat) * list (option nat)) :=
  st ← r;
  Ok (map (fun g => (name g, qargs g)) (nodes (new_dag st)),
      map (fun p => p2v (current_layout st) !! p) (seq 0 (qreg (dag st)))).

Definition device (links : list (nat * nat * Q)) (il : option Layout)
    (depth : option nat) : HERR :=
  HERR_init {| get_edges := both_ways (map fst links) |} (weights links) il depth.

Definition program (n : nat) (gates : list DAGOpNode) : DAGCircuit :=
  {| qreg := n; cregs := []; nodes := gates |}.

Definition Qval (r : result Q) : result Q := q ← r; Ok (Qred q).

(** ** Predicates used in the statements *)

(** The two dictionaries of a layout are inverse of each other and their
    keys are the qubits [0 .. n-1]. *)
Definition inverse_maps (l : Layout) : Prop :=
  ∀ p v, p2v l !! p = Some v ↔ v2p l !! v = Some p.

Definition layout_ok (n : nat) (l : Layout) : Prop :=
  inverse_maps l
  ∧ (∀ p, is_Some (p2v l !! p) ↔ p < n)
  ∧ (∀ v, is_Some (v2p l !! v) ↔ v < n).

(** What a step leaves alone and what it appends: [swaps] are the pairs
    of physical qubits handed to [Layout.swap], [placed] the operations
    appended to [new_dag]. *)
Definition step_effect (st st' : Store) (swaps : list (nat * nat))
    (placed : list DAGOpNode) : Prop :=
  dag st' = dag st
  ∧ qreg (new_dag st') = qreg (new_dag st)
  ∧ cregs (new_dag st') = cregs (new_dag st)
  ∧ apply_swaps (current_layout st) swaps = Ok (current_layout st')
  ∧ nodes (new_dag st') = nodes (new_dag st) ++ placed.

(** An operation of the input and the operation emitted for it: the same
    operation, on as many qubits, each of them translated through [l]. *)
Definition readdressed (l : Layout) (g g' : DAGOpNode) : Prop :=
  name g' = name g
  ∧ cargs g' = cargs g
  ∧ directive g' = directive g
  ∧ Forall2 (fun v p => v2p l !! v = Some p) (qargs g) (qargs g').

(** One entry per layer: the swaps applied to the layout, the swap
    operations placed in [new_dag], and the operation emitted for the
    layer. *)
Definition LayerTrace : Type := list (nat * nat) * list DAGOpNode * DAGOpNode.

Definition trace_swaps (t : list LayerTrace) : list (nat * nat) :=
  concat (map (fun s : LayerTrace => s.1.1) t).

Definition trace_nodes (t : list LayerTrace) : list DAGOpNode :=
  concat (map (fun s : LayerTrace => s.1.2 ++ [s.2]) t).

Definition layer_ok (gate : DAGOpNode) (s : LayerTrace) : Prop :=
  length s.1.2 = length s.1.1
  ∧ Forall (fun g => name g = "swap") s.1.2
  ∧ ∃ l, readdressed l gate s.2.

(** The round trip of the specification, on the qubits [0 .. n-1]. *)
Definition bijection (n : nat) (l : Layout) : Prop :=
  (∀ p, p < n → ∃ v, v < n ∧ logical_of l p = Ok v ∧ physical_of l v = Ok p)
  ∧ (∀ v, v < n → ∃ p, p < n ∧ physical_of l v = Ok p ∧ logical_of l p = Ok v).

(** An operation of the input and the operation emitted for it through
    the layout [l]: the same operation, each of its qubits translated
    through [l], and each qubit of the emitted operation owned in [l] by
    the qubit it stands for, so that the operation of the input is read
    back from the emitted one. *)
Definition emitted_through (l : Layout) (g g' : DAGOpNode) : Prop :=
  readdressed l g g'
  ∧ Forall2 (fun v p => logical_of l p = Ok v) (qargs g) (qargs g').

(** The trace of the layers [layers] routed from the layout [l] to the
    layout [l']: layer after layer, in the order of the input, the swaps
    of the layer are applied to the layout, the operations placed for
    them are swap operations on these pairs of physical qubits, in the
    same order, and the operation emitted for the layer is the operation
    of the layer, translated through the layout as these swaps leave it. *)
Fixpoint routed (l : Layout) (layers : list DAGOpNode) (t : list LayerTrace)
    (l' : Layout) : Prop :=
  match layers, t with
  | [], [] => l' = l
  | gate :: layers', s :: t' =>
      ∃ l1, apply_swaps l s.1.1 = Ok l1
            ∧ s.1.2 = map (fun w : nat * nat => SwapGate w.1 w.2) s.1.1
            ∧ emitted_through l1 gate s.2
            ∧ routed l1 layers' t' l'
  | _, _ => False
  end.

(** The layout has no entry outside the register of [n] qubits. *)
Definition confined (n : nat) (l : Layout) : Prop :=
  (∀ p, n ≤ p → logical_of l p = Raise KeyError)
  ∧ (∀ v, n ≤ v → physical_of l v = Raise KeyError).

(** The consecutive links of a path. *)
Fixpoint links (path : list nat) : list (nat * nat) :=
  match path with
  | a :: (b :: _) as r => (a, b) :: links r
  | _ => []
  end.

Definition all_but_last {A : Type} (l : list A) : list A := take (length l - 1) l.

(** The product of [weight(link)^3] over a list of links, as the
    specification writes it. *)
Definition cube_product (acc : gmap (nat * nat) Q) (ls : list (nat * nat))
  : result Q :=
  ws ← for_each (fun e : nat * nat => edge_weight acc e.1 e.2) ls;
  Ok (foldr (fun w r => w ^ 3 * r)%Q 1%Q ws).

(** Equality of results, up to the equality of rationals. *)
Definition result_Qeq (r1 r2 : result Q) : Prop :=
  match r1, r2 with
  | Ok a, Ok b => (a == b)%Q
  | Raise e1, Raise e2 => e1 = e2
  | _, _ => False
  end.

Definition links_of (p : option (list nat)) : list (nat * nat) :=
  match p with
  | Some path => links path
  | None => []
  end.

(** A swap instruction of the swap layer for the wires [w], its arguments
    being the logical owners of the two wires in the layout [l]. *)
Definition addressed (l : Layout) (w : nat * nat) (g : DAGOpNode) : Prop :=
  ∃ q1 q2, p2v l !! w.1 = Some q1 ∧ p2v l !! w.2 = Some q2 ∧ g = SwapGate q1 q2.

(** ** Concrete devices *)

(** A line of three qubits [0 - 1 - 2]. *)
Definition line3 (w01 w12 : Q) : HERR :=
  device [((0,1), w01); ((1,2), w12)] None None.

(** A line of four qubits [0 - 1 - 2 - 3], the first link weaker than the
    two others. *)
Definition line4 : HERR :=
  device [((0,1), (1#2)%Q); ((1,2), 1%Q); ((2,3), 1%Q)] None None.

(** Three qubits in line in the order [0 - 2 - 1]. *)
Definition detour : HERR :=
  device [((0,2), (1#2)%Q); ((1,2), (1#2)%Q)] None None.

(** The complete graph on three qubits, link [0 - 1] weaker than the two
    others. *)
Definition triangle : HERR :=
  device [((0,1), (1#4)%Q); ((0,2), 1%Q); ((1,2), 1%Q)] None None.

(** The complete graph on three qubits with the weight [1/2] on every
    link. *)
Definition uniform_triangle : HERR :=
  device [((0,1), (1#2)%Q); ((0,2), (1#2)%Q); ((1,2), (1#2)%Q)] None None.

(** A ring of four qubits [0 - 1 - 2 - 3 - 0] with two weak links. *)
Definition ring4 : HERR :=
  device [((0,1), (1#4)%Q); ((1,2), 1%Q); ((2,3), 1%Q); ((0,3), (1#2)%Q)] None None.

(** A ring of five qubits [0 - 1 - 2 - 4 - 3 - 0], link [0 - 1] weak.  The
    links are listed in the order in which CPython (3.8 and later)
    enumerates the set [{(0,1), (1,2), (2,4), (3,4), (0,3)}]. *)
Definition ring5 : HERR :=
  device [((0,1), (1#4)%Q); ((2,4), 1%Q); ((1,2), 1%Q); ((3,4), 1%Q); ((0,3), 1%Q)]
         None None.

(** A triangle [0 - 1 - 2] with a fourth qubit attached to qubit [0]. *)
Definition kite : HERR :=
  device [((0,1), (1#4)%Q); ((0,2), 1%Q); ((0,3), (1#2)%Q); ((1,2), (1#2)%Q)]
         None None.

(** A triangle [1 - 2 - 3] with qubit [0] attached to qubit [1], all
    weights 1. *)
Definition pendant : HERR :=
  device [((0,1), 1%Q); ((1,2), 1%Q); ((1,3), 1%Q); ((2,3), 1%Q)] None None.

(** The layout [q0 -> 0, q1 -> 2, q2 -> 1]. *)
Definition crossed_layout : Layout :=
  set_item (set_item (set_item empty_layout 0 0) 1 2) 2 1.

(** The reference libraries with the candidate set enumerated in a given
    order. *)
Definition libraries_enumerating (order : list (nat * nat)) : Libraries := {|
  set_iteration := fun _ => order;
  nx_shortest_path := bfs_path;
  rx_shortest_path := bfs_path;
  rx_distance := fun es s t => (fun p => length p - 1) <$> bfs_path es s t;
  int_is := cpython_is
|}.

(** [a] is enumerated before [b]. *)
Fixpoint before (a b : nat * nat) (order : list (nat * nat)) : bool :=
  match order with
  | [] => false
  | e :: r => if edge_eqb e a then existsb (edge_eqb b) r
              else if edge_eqb e b then false else before a b r
  end.

Definition is_link (cm : CouplingMap) (p q : nat) : bool :=
  existsb (fun e => edge_eqb e (p, q) || edge_eqb e (q, p)) (get_edges cm).

(** ** The behaviour the specification describes, where it is compared
    with the source *)

(** Candidate search as the specification words it: the path accuracy of
    every candidate is computed with the pair [(qubit1, qubit2)] as the
    source pair. *)
Fixpoint spec_find_better_link_loop `{Libraries} (h : HERR) (qubit1 qubit2 : nat)
    (currentLayout : Layout) (depth : nat) (uniqueEdges : list (nat * nat))
    (st : (nat * nat) * Q * bool) : result ((nat * nat) * Q * bool) :=
  match uniqueEdges with
  | [] => Ok st
  | edge :: rest =>
      let '(bestEdge, bestEdgeAccuracy, foundBetterEdge) := st in
      near ← within_depth (couplingMap h) qubit1 qubit2 edge depth;
      if near : bool then
        newLinkAccuracy ← calc_path_accuracy h (qubit1, qubit2) edge currentLayout;
        if Qgtb newLinkAccuracy bestEdgeAccuracy
        then spec_find_better_link_loop h qubit1 qubit2 currentLayout depth rest
               (edge, newLinkAccuracy, true)
        else spec_find_better_link_loop h qubit1 qubit2 currentLayout depth rest st
      else spec_find_better_link_loop h qubit1 qubit2 currentLayout depth rest st
  end.

Definition spec_find_better_link_over `{Libraries} (uniqueEdges : list (nat * nat))
    (h : HERR) (qubit1 qubit2 : nat) (currentLayout : Layout) (depth : nat)
  : result (option (nat * nat)) :=
  bestEdgeAccuracy ← baseline_accuracy h qubit1 qubit2;
  st ← spec_find_better_link_loop h qubit1 qubit2 currentLayout depth uniqueEdges
         ((qubit1, qubit2), bestEdgeAccuracy, false);
  let '(bestEdge, _, foundBetterEdge) := st in
  Ok (if foundBetterEdge : bool then Some bestEdge else None).

(** Routing as the specification words it: from the starting layout given
    at construction, from the trivial layout when there is none. *)
Definition spec_run `{Libraries} (h : HERR) (d : DAGCircuit) : result DAGCircuit :=
  if size (couplingMap h) <? qreg d then Raise TranspilerError
  else
    st ← route_layers h
           {| dag := d;
              new_dag := {| qreg := qreg d; cregs := cregs d; nodes := [] |};
              current_layout :=
                default (generate_trivial_layout (qreg d)) (initial_layout h) |}
           (nodes d);
    Ok (new_dag st).

(** The swap chain as the specification words it: one swap after the
    other, each swap instruction addressed using the layout as updated by
    the earlier swaps of the chain, placed in [new_dag] through that
    layout, and applied to the layout immediately. *)
Fixpoint spec_insert_swaps_immediate (st : Store) (pairs : list (nat * nat))
  : result Store :=
  match pairs with
  | [] => Ok st
  | w :: r =>
      qubit_1 ← logical_of (current_layout st) w.1;
      qubit_2 ← logical_of (current_layout st) w.2;
      order ← reorder_bits (current_layout st) (qreg (new_dag st));
      placed ← compose (qreg (new_dag st)) order [SwapGate qubit_1 qubit_2];
      l' ← swap (current_layout st) w.1 w.2;
      spec_insert_swaps_immediate
        {| dag := dag st; new_dag := append_nodes (new_dag st) placed;
           current_layout := l' |} r
  end.

(** The result of a chain of swaps in closed form: the swap operations on
    the pairs of physical qubits are appended to [new_dag] in the order of
    the chain, and the layout is the one the swaps of the chain make of
    the layout before the chain. *)
Definition chain_result (st : Store) (pairs : list (nat * nat)) : result Store :=
  l' ← apply_swaps (current_layout st) pairs;
  Ok {| dag := dag st;
        new_dag := append_nodes (new_dag st)
                     (map (fun w : nat * nat => SwapGate w.1 w.2) pairs);
        current_layout := l' |}.

(** What can be observed of a returned circuit: its operations as
    [(name, qargs)]. *)
Definition emitted (r : result DAGCircuit) : result (list (string * list nat)) :=
  d ← r;
  Ok (map (fun g => (name g, qargs g)) (nodes d)).

(** The circuit consists of the single operation [nm] on the qubits [p]
    and [q]. *)
Definition emits_only (r : result (list (string * list nat))) (nm : string)
    (p q : nat) : bool :=
  match r with
  | Ok [(nm', [a; b])] => String.eqb nm' nm && (a =? p) && (b =? q)
  | _ => false
  end.

(** Two pass objects that differ at most in the field [initial_layout]. *)
Definition same_device (h h' : HERR) : Prop :=
  couplingMap h = couplingMap h'
  ∧ qubitAccuracy h = qubitAccuracy h'
  ∧ searchDepth h = searchDepth h'.

(** ** Devices on which no link is better than the link of the operation *)

(** Every weight lies in [[0, 1]]. *)
Definition unit_weights (acc : gmap (nat * nat) Q) : bool :=
  forallb (fun kw : nat * nat * Q => Qle_bool 0 kw.2 && Qle_bool kw.2 1)
          (map_to_list acc).

(** No weight is above [w]. *)
Definition dominant (acc : gmap (nat * nat) Q) (w : Q) : bool :=
  forallb (fun kw : nat * nat * Q => Qle_bool kw.2 w) (map_to_list acc).

(** The physical qubits [p] and [q] are adjacent and no link of the device
    has a larger weight than theirs. *)
Definition adjacent_dominant `{Libraries} (h : HERR) (p q : nat) : bool :=
  match distance (couplingMap h) p q, qubitAccuracy h !! edge_key p q with
  | Ok 1, Some w => dominant (qubitAccuracy h) w
  | _, _ => false
  end.

Definition all_pairs (n : nat) (f : nat → nat → bool) : bool :=
  forallb (fun p => forallb (fun q => (p =? q) || f p q) (seq 0 n)) (seq 0 n).

(** The two qubits of every two-qubit operation differ. *)
Definition distinct_qargs (d : DAGCircuit) : bool :=
  forallb (fun g => negb (is_two_qubit_op g)
                    || negb (nth 0 (qargs g) 0 =? nth 1 (qargs g) 0))
          (nodes d).

(** ** What the routing pass relies on in the libraries *)

(** [p] is a path of the graph from [s] to [t]. *)
Definition path_from_to (es : list (nat * nat)) (s t : nat) (p : list nat) : Prop :=
  walk es p ∧ hd_error p = Some s ∧ last p = Some t.

(** The part of the contract of the libraries that the statements below
    use: a search returns a path of the graph it is given, from the source
    to the destination; the path of the coupling map reaches the
    destination only at its end; two qubits at distance 1 are linked; and
    the enumeration of a set yields its elements. *)
Record sound_libraries `{Libraries} : Prop := {
  nx_path : ∀ es s t p, nx_shortest_path es s t = Some p → path_from_to es s t p;
  rx_path : ∀ es s t p,
    rx_shortest_path es s t = Some p → path_from_to es s t p ∧ ¬ In t (removelast p);
  rx_adjacent : ∀ es s t, rx_distance es s t = Some 1 → linked es s t;
  set_members : ∀ inserted e, In e (set_iteration inserted) ↔ In e inserted
}.

(** What the statements about the tests [is] and [is not] use: two
    integer objects that are the same object hold the same value, and the
    interpreter keeps one object for each integer up to 256 (CPython: from
    -5 to 256). *)
Record small_ints_shared `{Libraries} : Prop := {
  is_equal : ∀ a b, int_is a b = true → a = b;
  is_small : ∀ a, a ≤ 256 → int_is a a = true
}.

(** The swap operations placed for a layer are the swaps applied to the
    layout, and each acts on a link of the coupling map. *)
Definition swaps_on_links (cm : CouplingMap) (s : LayerTrace) : Prop :=
  s.1.2 = map (fun w : nat * nat => SwapGate w.1 w.2) s.1.1
  ∧ Forall (fun w : nat * nat => linked (get_edges cm) w.1 w.2) s.1.1.

(** The operations of the circuit that are no two-qubit operations and
    act on bits of the register. *)
Definition no_two_qubit_op (d : DAGCircuit) : bool :=
  forallb (fun g => negb (is_two_qubit_op g)
                    && forallb (fun v => v <? qreg d) (qargs g)) (nodes d).

(** ** The wrapper ([BAROQUE_Herr_Wrapper.py]) *)

(** A [QuantumCircuit] and its [DAGCircuit] are the same object of the
    model; [circuit_to_dag] and [dag_to_circuit] are the identity.

    [coupling_list.index(edge)]: the position of the first element equal
    to [edge].  The loop of the wrapper looks up the elements of the list
    itself, so that the [ValueError] for an absent element cannot arise;
    the model returns the length of the list there. *)
Fixpoint list_index (edge : nat * nat) (l : list (nat * nat)) : nat :=
  match l with
  | [] => 0
  | e :: r => if edge_eqb e edge then 0 else S (list_index edge r)
  end.

(** The loop [for edge in coupling_list] that stores the weights:
    [herr_noise_graph.edges[edge[0], edge[1]]["weight"]
       = cx_error_map[coupling_list.index(edge)]]. *)
Fixpoint set_weights (coupling_list : list (nat * nat)) (cx_error_map : list Q)
    (edges : list (nat * nat)) (herr_noise_graph : gmap (nat * nat) Q)
  : result (gmap (nat * nat) Q) :=
  match edges with
  | [] => Ok herr_noise_graph
  | edge :: rest =>
      w ← of_option IndexError (cx_error_map !! list_index edge coupling_list);
      set_weights coupling_list cx_error_map rest
        (<[edge_key edge.1 edge.2 := w]> herr_noise_graph)
  end.

(** The graph [herr_noise_graph] that the wrapper hands to the pass:
    [nx.from_edgelist(coupling_list)] with the weights stored by the
    loop. *)
Definition noise_graph (coupling_list : list (nat * nat)) (cx_error_map : list Q)
  : result (gmap (nat * nat) Q) :=
  set_weights coupling_list cx_error_map coupling_list ∅.

(** [routeUsingHerr(circuit, coupling_list, coupling_map, cx_error_map)] *)
Definition routeUsingHerr `{Libraries} (circuit : DAGCircuit)
    (coupling_list : list (nat * nat)) (coupling_map : CouplingMap)
    (cx_error_map : list Q) : result DAGCircuit :=
  herr_noise_graph ← noise_graph coupling_list cx_error_map;
  run (HERR_init coupling_map herr_noise_graph None None) circuit.

(** ** The device data ([BAROQUE_IBM_Interface.py]) *)

(** An entry of [props_dict["gates"]]: the qubits of the gate and the
    values of its parameters ([item["parameters"][i]["value"]]). *)
Record GateProperties : Type := {
  qubits : list nat;
  parameters : list Q
}.

(** The inner loop of [extractCxErrorMap] for one link: the first entry
    whose qubits are those of the link, if there is one. *)
Fixpoint first_entry (gates : list GateProperties) (line : nat * nat)
  : option GateProperties :=
  match gates with
  | [] => None
  | item :: rest =>
      if decide (qubits item = [line.1; line.2]) then Some item
      else first_entry rest line
  end.

(** [extractCxErrorMap] for a backend of version 0 or 1 (lines 146-157):
    for every link of the coupling list, the value of the first parameter
    of the first entry on the qubits of the link is appended; nothing is
    appended for a link without entry. *)
Fixpoint extractCxErrorMap (gates : list GateProperties)
    (coupling_map : list (nat * nat)) : result (list Q) :=
  match coupling_map with
  | [] => Ok []
  | line :: rest =>
      match first_entry gates line with
      | Some item =>
          value ← of_option IndexError (parameters item !! 0);
          cx_errors ← extractCxErrorMap gates rest;
          Ok (value :: cx_errors)
      | None => extractCxErrorMap gates rest
      end
  end.

(** ** Gate counts ([BAROQUE_Metrics.py]) *)

(** [circuit.count_ops()]: the number of operations of every name. *)
Definition count_ops (circuit : DAGCircuit) : gmap string nat :=
  foldl (fun ops g => <[name g := S (default 0 (ops !! name g))]> ops)
        ∅ (nodes circuit).

(** [metricCountGate(circuit, gate_string)] *)
Definition metricCountGate (circuit : DAGCircuit) (gate_string : string) : nat :=
  match count_ops circuit !! gate_string with
  | Some count => count
  | None => 0
  end.

(** [CommConst.CONTROL_NOT_GATE] *)
Definition CONTROL_NOT_GATE : string := "cx".

(** [metricCountCNOT(circuit)] *)
Definition metricCountCNOT (circuit : DAGCircuit) : nat :=
  metricCountGate circuit CONTROL_NOT_GATE.

(** [metricDiffGate(circuit_a, circuit_b, gate_string)] *)
Definition metricDiffGate (circuit_a circuit_b : DAGCircuit) (gate_string : string)
  : Z :=
  (Z.of_nat (metricCountGate circuit_b gate_string)
   - Z.of_nat (metricCountGate circuit_a gate_string))%Z.

(** [metricDiffCNOT(circuit_a, circuit_b)] *)
Definition metricDiffCNOT (circuit_a circuit_b : DAGCircuit) : Z :=
  (Z.of_nat (metricCountCNOT circuit_b) - Z.of_nat (metricCountCNOT circuit_a))%Z.

(** The link [e] has an entry in the gate properties. *)
Definition has_entry (gates : list GateProperties) (line : nat * nat) : Prop :=
  is_Some (first_entry gates line).

(** The number of operations called [gate_string]. *)
Definition occurrences (gate_string : string) (l : list DAGOpNode) : nat :=
  length (filter (fun g => name g = gate_string) l).

(** ** Devices with a weight on every link *)

(** Every link of the coupling map is an edge of the weighted graph. *)
Definition weights_cover_links (h : HERR) : bool :=
  forallb (fun e : nat * nat => has_edge (qubitAccuracy h) e.1 e.2)
          (get_edges (couplingMap h)).

(** Every operation acts on bits of the register. *)
Definition well_formed (d : DAGCircuit) : bool :=
  forallb (fun g => forallb (fun v => v <? qreg d) (qargs g)) (nodes d).

(** The result is a value or one of the exceptions [CouplingError] and
    [TypeError]. *)
Definition returns_or_raises {A : Type} (r : result A) : Prop :=
  match r with
  | Ok _ => True
  | Raise e => e = CouplingError ∨ e = TypeError
  end.

(** ** Accuracy of a simulation ([metricAccuracy]) *)

(** The dictionary [counts] returned by the simulation is given by its
    items in the order of iteration; its keys are ASCII strings. *)

(** [k.rfind(" ")]: the index of the last space, [None] for [-1]. *)
Fixpoint rfind_space (k : string) : option nat :=
  match k with
  | EmptyString => None
  | String c r =>
      match rfind_space r with
      | Some i => Some (S i)
      | None => if Ascii.eqb c Ascii.Space then Some 0 else None
      end
  end.

(** The key under which the count of [k] is stored again:
    [k[0:k.rfind(" ")]] when [k] has a space, [k] otherwise. *)
Definition new_key (k : string) : string :=
  match rfind_space k with
  | Some i => String.substring 0 i k
  | None => k
  end.

(** The dictionary [translate], by its items. *)
Definition translate (counts : list (string * nat)) : list (string * string) :=
  map (fun kv : string * nat => (kv.1, new_key kv.1)) counts.

(** The loop [counts[new] = counts.pop(old)]. *)
Fixpoint rename_keys (translate : list (string * string)) (counts : gmap string nat)
  : result (gmap string nat) :=
  match translate with
  | [] => Ok counts
  | (old, new) :: rest =>
      v ← of_option KeyError (counts !! old);
      rename_keys rest (<[new := v]> (delete old counts))
  end.

(** The loop over [correct_results] that adds up [num_correct]. *)
Definition num_correct (counts : gmap string nat) (correct_results : list string) : nat :=
  foldl (fun n answer => match counts !! answer with
                         | Some c => n + c
                         | None => n
                         end) 0 correct_results.

(** [a / b] on integers; [None] stands for [ZeroDivisionError]. *)
Definition true_divide (a b : nat) : option Q :=
  if b =? 0 then None else Some (Z.of_nat a # Pos.of_nat b)%Q.

(** [metricAccuracy], from the point where the counts of the simulation
    are known (lines 148-162). *)
Definition metricAccuracy (iterations : nat) (counts : list (string * nat))
    (correct_results : list string) : result (option Q) :=
  renamed ← rename_keys (translate counts) (list_to_map counts);
  Ok (true_divide (num_correct renamed correct_results) iterations).

(** The key has a space. *)
Fixpoint has_space (k : string) : bool :=
  match k with
  | EmptyString => false
  | String c r => Ascii.eqb c Ascii.Space || has_space r
  end.

(** The coupling list of the ring of four qubits, both directions of
    every link, and an error map for it. *)
Definition ring4_list : list (nat * nat) :=
  both_ways [(0, 1); (1, 2); (2, 3); (0, 3)].

Definition ring4_errors : list Q :=
  [(1#4); (1#4); 1; 1; 1; 1; (1#2); (1#2)]%Q.

(** Gate properties of a device with two qubits: one entry for a
    one-qubit gate and one for each direction of the link. *)
Definition two_qubit_gates : list GateProperties :=
  [ {| qubits := [0]; parameters := [(1#1000)%Q] |};
    {| qubits := [0; 1]; parameters := [(1#100)%Q; 300%Q] |};
    {| qubits := [1; 0]; parameters := [(1#50)%Q; 300%Q] |} ].

(** ** Circuits as objects *)

(** [run] receives a reference to a [DAGCircuit] object and returns a
    reference.  To state what [run] does to the object it is given, the
    circuits are placed in a heap: a reference is an address of the heap,
    [DAGCircuit()] allocates a new object, and the methods [add_qreg],
    [add_creg], [apply_operation_back] and [compose] write into the
    object they are called on.  Registers, operations and layouts stay
    values: [run] calls no method that changes one of the registers or
    operations of its argument, and its layout is a copy of its own. *)
(** A computation on the heap that returns a value or raises. *)
Definition Prog (A : Type) : Type := list DAGCircuit → result (A * list DAGCircuit).

#[global] Instance prog_ret : MRet Prog := fun A a σ => Ok (a, σ).
#[global] Instance prog_bind : MBind Prog := fun A B k m σ =>
  match m σ with
  | Ok (a, σ') => k a σ'
  | Raise e => Raise e
  end.

(** A computation that does not touch the heap. *)
Definition lift {A : Type} (x : result A) : Prog A := fun σ =>
  match x with
  | Ok a => Ok (a, σ)
  | Raise e => Raise e
  end.

Definition empty_circuit : DAGCircuit := {| qreg := 0; cregs := []; nodes := [] |}.

(** The object at an address. *)
Definition deref (σ : list DAGCircuit) (r : nat) : DAGCircuit := nth r σ empty_circuit.

Definition get (r : nat) : Prog DAGCircuit := fun σ => Ok (deref σ r, σ).

Definition update (r : nat) (f : DAGCircuit → DAGCircuit) : Prog unit := fun σ =>
  Ok (tt, <[r := f (deref σ r)]> σ).

(** [DAGCircuit()] *)
Definition new_DAGCircuit : Prog nat := fun σ =>
  Ok (length σ, σ ++ [empty_circuit]).

(** [self.add_qreg(qreg)], for the register [q] of [n] qubits. *)
Definition add_qreg (self : nat) (n : nat) : Prog unit :=
  update self (fun c => {| qreg := n; cregs := cregs c; nodes := nodes c |}).

(** [for creg in cregs: self.add_creg(creg)] *)
Definition add_cregs (self : nat) (cs : list (string * nat)) : Prog unit :=
  update self (fun c => {| qreg := qreg c; cregs := cregs c ++ cs; nodes := nodes c |}).

(** [self.apply_operation_back(op, qargs, cargs)], for each operation of
    a list in turn. *)
Definition apply_operations_back (self : nat) (ops : list DAGOpNode) : Prog unit :=
  update self (fun c => append_nodes c ops).

(** [self.compose(other, qubits=order)]: reads [other], writes [self]. *)
Definition compose_on (self other : nat) (order : list nat) : Prog unit := fun σ =>
  match compose (qreg (deref σ self)) order (nodes (deref σ other)) with
  | Ok placed => Ok (tt, <[self := append_nodes (deref σ self) placed]> σ)
  | Raise e => Raise e
  end.

Section RoutingOnObjects.
Context `{Libraries}.

(** Lines 65-91 and 97-119 of [HERR.py] on objects: a new circuit
    [swap_layer] with the register of the input, the swap instructions
    applied to it, its composition into [new_dag], and the update of the
    layout.  [pairs] is the computation of the wires of the chain, which
    takes place once the new circuit is there. *)
Definition insert_swaps_on (new_dag : nat) (canonical_register : nat)
    (current_layout : Layout) (pairs : result (list (nat * nat))) : Prog Layout :=
  swap_layer_ref ← new_DAGCircuit;
  _ ← add_qreg swap_layer_ref canonical_register;
  pairs ← lift pairs;
  layer ← lift (swap_layer current_layout pairs);
  _ ← apply_operations_back swap_layer_ref layer;
  out ← get new_dag;
  order ← lift (reorder_bits current_layout (qreg out));
  _ ← compose_on new_dag swap_layer_ref order;
  lift (apply_swaps current_layout pairs).

(** The body of [for gate in subdag.two_qubit_ops()]. *)
Definition route_gate_on (h : HERR) (new_dag : nat) (canonical_register : nat)
    (current_layout : Layout) (gate : DAGOpNode) : Prog Layout :=
  p0 ← lift (physical_of current_layout (nth 0 (qargs gate) 0));
  p1 ← lift (physical_of current_layout (nth 1 (qargs gate) 0));
  betterEdge ← lift (find_better_link h p0 p1 current_layout (searchDepth h));
  match betterEdge with
  | Some edge =>
      insert_swaps_on new_dag canonical_register current_layout
        (swapPath ← find_shortest_path h (p0, p1) edge;
         Ok (path_hops swapPath.1 ++ path_hops swapPath.2))
  | None =>
      d ← lift (distance (couplingMap h) p0 p1);
      if negb (d =? 1) then
        insert_swaps_on new_dag canonical_register current_layout
          (path ← shortest_undirected_path (couplingMap h) p0 p1;
           Ok (hops path (length path - 2)))
      else mret current_layout
  end.

Fixpoint route_gates_on (h : HERR) (new_dag : nat) (canonical_register : nat)
    (current_layout : Layout) (gates : list DAGOpNode) : Prog Layout :=
  match gates with
  | [] => mret current_layout
  | gate :: rest =>
      l ← route_gate_on h new_dag canonical_register current_layout gate;
      route_gates_on h new_dag canonical_register l rest
  end.

(** The body of [for layer in dag.serial_layers()], [subdag] being the
    circuit of the layer. *)
Definition route_layer_on (h : HERR) (new_dag : nat) (canonical_register : nat)
    (current_layout : Layout) (subdag : nat) : Prog Layout :=
  layer ← get subdag;
  l ← route_gates_on h new_dag canonical_register current_layout
        (List.filter is_two_qubit_op (nodes layer));
  out ← get new_dag;
  order ← lift (reorder_bits l (qreg out));
  _ ← compose_on new_dag subdag order;
  mret l.

(** One step of the generator [dag.serial_layers()]: a new circuit with
    the registers of [dag] and the next operation. *)
Definition next_layer (dag : nat) (node : DAGOpNode) : Prog nat :=
  subdag ← new_DAGCircuit;
  d ← get dag;
  _ ← add_qreg subdag (qreg d);
  _ ← add_cregs subdag (cregs d);
  _ ← apply_operations_back subdag [node];
  mret subdag.

Fixpoint route_layers_on (h : HERR) (dag new_dag : nat) (canonical_register : nat)
    (current_layout : Layout) (ops : list DAGOpNode) : Prog Layout :=
  match ops with
  | [] => mret current_layout
  | node :: rest =>
      subdag ← next_layer dag node;
      l ← route_layer_on h new_dag canonical_register current_layout subdag;
      route_layers_on h dag new_dag canonical_register l rest
  end.

(** [HERR.run(dag)] on objects: [dag] is the address of the input, the
    result the address of the circuit that is returned. *)
Definition run_on (h : HERR) (dag : nat) : Prog nat :=
  new_dag ← new_DAGCircuit;
  d ← get dag;
  _ ← add_qreg new_dag (qreg d);
  _ ← add_cregs new_dag (cregs d);
  d ← get dag;
  if size (couplingMap h) <? qreg d then lift (Raise TranspilerError)
  else
    let canonical_register := qreg d in
    let current_layout := generate_trivial_layout canonical_register in
    _ ← route_layers_on h dag new_dag canonical_register current_layout (nodes d);
    mret new_dag.

End RoutingOnObjects.

(** The objects that exist in [σ] are the same in [σ'], except the one at
    [r], and no object has disappeared. *)
Definition frame (r : nat) (σ σ' : list DAGCircuit) : Prop :=
  length σ ≤ length σ'
  ∧ ∀ r', r' < length σ → r' ≠ r → deref σ' r' = deref σ r'.

(** The computation [m] on the heap [σ] ends as [v] does, and then its
    result and its heap are related to the value of [v] by [R]. *)
Definition simulates {A B : Type} (m : Prog A) (σ : list DAGCircuit) (v : result B)
    (R : A → (list DAGCircuit) → B → Prop) : Prop :=
  match m σ, v with
  | Ok (a, σ'), Ok b => R a σ' b
  | Raise e, Raise e' => e = e'
  | _, _ => False
  end.

(** The store of the routing pass as the heap [σ] shows it. *)
Definition store_at (σ : list DAGCircuit) (d : DAGCircuit) (nd : nat) (l : Layout)
  : Store :=
  {| dag := d; new_dag := deref σ nd; current_layout := l |}.

(** * Properties *)

(** ** The error monad *)

Lemma bind_Ok {A B : Type} (m : result A) (k : A → result B) (b : B) :
  (x ← m; k x) = Ok b → ∃ a, m = Ok a ∧ k a = Ok b.
Proof. destruct m as [a|e]; simpl; [eauto | discriminate]. Qed.

Tactic Notation "inv_bind" hyp(H) "as" ident(a) ident(Ha) :=
  apply bind_Ok in H; destruct H as (a & Ha & H).

Tactic Notation "red_bind" hyp(H) := cbn [mbind result_bind rbind] in H.

Lemma of_option_Ok {A : Type} (e : PyError) (o : option A) (a : A) :
  of_option e o = Ok a ↔ o = Some a.
Proof. destruct o; simpl; split; congruence. Qed.

Lemma for_each_Forall2 {A B : Type} (f : A → result B) (l : list A) (l' : list B) :
  for_each f l = Ok l' → Forall2 (fun x y => f x = Ok y) l l'.
Proof.
  revert l'; induction l as [|x r IH]; intros l' Hm; simpl in Hm.
  - injection Hm as <-. constructor.
  - inv_bind Hm as y Hy. inv_bind Hm as ys Hys. injection Hm as <-.
    constructor; auto.
Qed.

(** ** The reference search *)

Lemma neighbors_linked (es : list (nat * nat)) (u v : nat) :
  In v (neighbors es u) → linked es u v.
Proof.
  unfold neighbors. rewrite in_flat_map. intros ([a b] & Hin & Hv). simpl in Hv.
  destruct (a =? u) eqn:Ea.
  - apply Nat.eqb_eq in Ea. subst a. destruct Hv as [<-|[]]. by left.
  - destruct (b =? u) eqn:Eb; [|destruct Hv].
    apply Nat.eqb_eq in Eb. subst b. destruct Hv as [<-|[]]. by right.
Qed.

Lemma dedup_In (l : list nat) (x : nat) : In x (dedup l) → In x l.
Proof.
  induction l as [|y r IH]; simpl; [done|].
  destruct (memb y r); simpl; intros Hx; [right; auto|].
  destruct Hx as [->|Hx]; [by left | right; auto].
Qed.

Lemma walk_snoc (es : list (nat * nat)) (path : list nat) (a b : nat) :
  walk es (path ++ [a]) → linked es a b → walk es (path ++ [a; b]).
Proof.
  induction path as [|x [|y r] IH]; simpl; intros Hw Hl.
  - done.
  - destruct Hw as [Hxa _]. done.
  - destruct Hw as [Hxy Hw]. split; [done|]. by apply IH.
Qed.

Lemma expand_ok (es : list (nat * nat)) (src : nat) (frontier : list (list nat))
    (visited : list nat) :
  frontier_ok es src frontier →
  frontier_ok es src (expand es visited frontier).2.
Proof.
  revert visited; induction frontier as [|p rest IH]; intros visited Hf; simpl.
  - constructor.
  - inversion Hf as [|? ? (Hne & Hw & Hs) Hrest]; subst.
    destruct (expand es _ rest) as [vis nxt] eqn:E. simpl.
    apply Forall_app. split.
    + apply Forall_forall. intros q Hq. apply list_elem_of_In, in_map_iff in Hq.
      destruct Hq as (v & <- & Hv).
      apply list_elem_of_In, list_elem_of_filter in Hv as [_ Hv].
      apply list_elem_of_In, dedup_In, neighbors_linked in Hv.
      destruct p as [|u p']; [done|]. simpl in *.
      split; [done|]. split.
      * rewrite <- app_assoc. simpl. by apply walk_snoc.
      * destruct (rev p' ++ [u]) eqn:E'; [by destruct (rev p')|]. done.
    + specialize (IH (filter (λ v : nat, negb (memb v visited))
                        (dedup (neighbors es (hd 0 p))) ++ visited) Hrest).
      by rewrite E in IH.
Qed.

Lemma bfs_ok (fuel : nat) (es : list (nat * nat)) (src dst : nat)
    (visited : list nat) (frontier : list (list nat)) (path : list nat) :
  frontier_ok es src frontier →
  bfs fuel es dst visited frontier = Some path →
  walk es path ∧ hd_error path = Some src ∧ last path = Some dst.
Proof.
  revert visited frontier; induction fuel as [|fuel IH]; intros visited frontier Hf Hb;
    simpl in Hb; [done|].
  destruct (find _ frontier) as [p|] eqn:Efind.
  - injection Hb as <-. apply find_some in Efind as [Hin Hd].
    apply Nat.eqb_eq in Hd.
    apply list_elem_of_In in Hin.
    pose proof (proj1 (Forall_forall _ _) Hf p Hin) as (Hne & Hw & Hs).
    repeat split; try done.
    destruct p as [|u p']; [done|]. simpl in *. subst u.
    by rewrite last_snoc.
  - destruct frontier as [|p rest]; [done|].
    pose proof (expand_ok es src (p :: rest) visited Hf) as Hn.
    destruct (expand es visited (p :: rest)) as [vis nxt]. simpl in Hn.
    by eapply IH.
Qed.

(** The reference search returns a walk of the graph from the source to
    the destination. *)
Lemma bfs_path_walk (es : list (nat * nat)) (src dst : nat) (path : list nat) :
  bfs_path es src dst = Some path →
  walk es path ∧ hd_error path = Some src ∧ last path = Some dst.
Proof.
  apply bfs_ok. constructor; [|constructor]. done.
Qed.

(** ** Layouts *)

Lemma set_item_fresh (l : Layout) (v p : nat) :
  v2p l !! v = None → p2v l !! p = None →
  set_item l v p = {| p2v := <[p := v]> (p2v l); v2p := <[v := p]> (v2p l) |}.
Proof.
  intros Hv Hp. unfold set_item. rewrite Hv. simpl. rewrite Hp. simpl.
  rewrite !delete_id by assumption. reflexivity.
Qed.

Lemma generate_trivial_layout_S (n : nat) :
  generate_trivial_layout (S n) = set_item (generate_trivial_layout n) n n.
Proof. unfold generate_trivial_layout. rewrite seq_S, foldl_app. reflexivity. Qed.

Lemma trivial_layout_maps (n : nat) :
  (∀ v, v2p (generate_trivial_layout n) !! v = if decide (v < n) then Some v else None)
  ∧ (∀ p, p2v (generate_trivial_layout n) !! p = if decide (p < n) then Some p else None).
Proof.
  induction n as [|n [IHv IHp]].
  - split; intros x; simpl; rewrite lookup_empty; by destruct (decide (x < 0)); [lia|].
  - rewrite generate_trivial_layout_S.
    rewrite set_item_fresh.
    2: { rewrite IHv. destruct (decide (n < n)); [lia | done]. }
    2: { rewrite IHp. destruct (decide (n < n)); [lia | done]. }
    split; intros x; simpl.
    + destruct (decide (x = n)) as [->|Hne].
      * rewrite lookup_insert_eq. destruct (decide (n < S n)); [done | lia].
      * rewrite lookup_insert_ne, IHv by done.
        destruct (decide (x < n)), (decide (x < S n)); try done; lia.
    + destruct (decide (x = n)) as [->|Hne].
      * rewrite lookup_insert_eq. destruct (decide (n < S n)); [done | lia].
      * rewrite lookup_insert_ne, IHp by done.
        destruct (decide (x < n)), (decide (x < S n)); try done; lia.
Qed.

Lemma trivial_layout_physical_of (n v p : nat) :
  physical_of (generate_trivial_layout n) v = Ok p → p = v ∧ v < n.
Proof.
  unfold physical_of. rewrite (proj1 (trivial_layout_maps n)).
  destruct (decide (v < n)); simpl; [|discriminate].
  intros [= <-]. done.
Qed.

Lemma generate_trivial_layout_ok (n : nat) : layout_ok n (generate_trivial_layout n).
Proof.
  destruct (trivial_layout_maps n) as [Hv Hp].
  split; [|split].
  - intros p v. rewrite Hv, Hp.
    destruct (decide (p < n)), (decide (v < n)); split; intros [= ->]; done.
  - intros p. rewrite Hp. destruct (decide (p < n)); split; intros Hs.
    + done.
    + by eauto.
    + by destruct Hs.
    + lia.
  - intros v. rewrite Hv. destruct (decide (v < n)); split; intros Hs.
    + done.
    + by eauto.
    + by destruct Hs.
    + lia.
Qed.

(** [Layout.swap] exchanges the owners of two physical qubits. *)
Lemma swap_exchange (l : Layout) (a b va vb : nat) :
  inverse_maps l →
  p2v l !! a = Some va → p2v l !! b = Some vb →
  swap l a b =
    Ok {| p2v := <[b := va]> (<[a := vb]> (p2v l));
          v2p := <[va := b]> (<[vb := a]> (v2p l)) |}.
Proof.
  intros Hinv Ha Hb. unfold swap, logical_of. rewrite Ha, Hb. simpl.
  pose proof (proj1 (Hinv _ _) Ha) as Hva.
  pose proof (proj1 (Hinv _ _) Hb) as Hvb.
  f_equal. unfold set_item at 2. simpl. rewrite Hvb. simpl.
  destruct (decide (a = b)) as [->|Hab].
  - assert (va = vb) as -> by congruence.
    rewrite lookup_delete_eq. simpl.
    unfold set_item. simpl. rewrite lookup_insert_eq. simpl.
    rewrite lookup_delete_eq. simpl.
    f_equal; apply map_eq; intros i.
    + destruct (decide (i = b)) as [->|?];
        [by rewrite !lookup_insert_eq|].
      rewrite !lookup_insert_ne, !lookup_delete_ne by done.
      by rewrite lookup_insert_ne, !lookup_delete_ne by done.
    + destruct (decide (i = vb)) as [->|?];
        [by rewrite !lookup_insert_eq|].
      rewrite !lookup_insert_ne, !lookup_delete_ne by done.
      by rewrite lookup_insert_ne, !lookup_delete_ne by done.
  - assert (Hvab : va ≠ vb).
    { intros ->. rewrite Hva in Hvb. congruence. }
    rewrite lookup_delete_ne, Ha by done. simpl.
    unfold set_item. simpl.
    rewrite (lookup_insert_ne _ vb va), lookup_delete_eq by done. simpl.
    rewrite (lookup_insert_ne _ a b), (lookup_delete_ne _ a b), lookup_delete_eq
      by done. simpl.
    f_equal; apply map_eq; intros i.
    + destruct (decide (i = b)) as [->|?];
        [by rewrite !lookup_insert_eq|].
      rewrite !lookup_insert_ne, !lookup_delete_ne by done.
      destruct (decide (i = a)) as [->|?];
        [by rewrite !lookup_insert_eq|].
      by rewrite !lookup_insert_ne, !lookup_delete_ne by done.
    + destruct (decide (i = va)) as [->|?];
        [by rewrite !lookup_insert_eq|].
      rewrite !lookup_insert_ne, !lookup_delete_ne by done.
      destruct (decide (i = vb)) as [->|?];
        [by rewrite !lookup_insert_eq|].
      by rewrite !lookup_insert_ne, !lookup_delete_ne by done.
Qed.

Lemma swap_Ok_inv (l l' : Layout) (a b : nat) :
  swap l a b = Ok l' →
  ∃ va vb, p2v l !! a = Some va ∧ p2v l !! b = Some vb.
Proof.
  unfold swap, logical_of. intros Hs.
  destruct (p2v l !! a) as [va|]; [|discriminate].
  destruct (p2v l !! b) as [vb|]; [|discriminate]. eauto.
Qed.

Lemma swap_layout_ok (n : nat) (l l' : Layout) (a b : nat) :
  layout_ok n l → swap l a b = Ok l' → layout_ok n l'.
Proof.
  intros (Hinv & Hp & Hv) Hs.
  destruct (swap_Ok_inv _ _ _ _ Hs) as (va & vb & Ha & Hb).
  rewrite (swap_exchange l a b va vb Hinv Ha Hb) in Hs. injection Hs as <-.
  pose proof (proj1 (Hinv _ _) Ha) as Hva.
  pose proof (proj1 (Hinv _ _) Hb) as Hvb.
  assert (Hinj : ∀ p q v, p2v l !! p = Some v → p2v l !! q = Some v → p = q).
  { intros p q v H1 H2. apply Hinv in H1, H2. congruence. }
  assert (Hinj' : ∀ v w p, v2p l !! v = Some p → v2p l !! w = Some p → v = w).
  { intros v w p H1 H2. apply Hinv in H1, H2. congruence. }
  repeat split; simpl.
  - intros Hl.
    destruct (decide (p = b)) as [->|Hpb].
    + rewrite lookup_insert_eq in Hl. injection Hl as <-. apply lookup_insert_eq.
    + rewrite lookup_insert_ne in Hl by done.
      destruct (decide (p = a)) as [->|Hpa].
      * rewrite lookup_insert_eq in Hl. injection Hl as <-.
        destruct (decide (va = vb)) as [E|E].
        -- exfalso. subst vb. apply Hpb. eapply Hinj; eauto.
        -- rewrite lookup_insert_ne by done. apply lookup_insert_eq.
      * rewrite lookup_insert_ne in Hl by done.
        assert (v ≠ va) by (intros ->; apply Hpa; eapply Hinj; eauto).
        assert (v ≠ vb) by (intros ->; apply Hpb; eapply Hinj; eauto).
        rewrite !lookup_insert_ne by done. by apply Hinv.
  - intros Hl.
    destruct (decide (v = va)) as [->|Hpb].
    + rewrite lookup_insert_eq in Hl. injection Hl as <-. apply lookup_insert_eq.
    + rewrite lookup_insert_ne in Hl by done.
      destruct (decide (v = vb)) as [->|Hpa].
      * rewrite lookup_insert_eq in Hl. injection Hl as <-.
        destruct (decide (a = b)) as [E|E].
        -- exfalso. subst b. apply Hpb. eapply Hinj'; eauto.
        -- rewrite lookup_insert_ne by done. apply lookup_insert_eq.
      * rewrite lookup_insert_ne in Hl by done.
        assert (p ≠ a) by (intros ->; apply Hpb; eapply Hinj'; eauto).
        assert (p ≠ b) by (intros ->; apply Hpa; eapply Hinj'; eauto).
        rewrite !lookup_insert_ne by done. by apply Hinv.
  - intros Hs. apply Hp.
    destruct (decide (p = b)) as [->|?]; [eauto|].
    rewrite lookup_insert_ne in Hs by done.
    destruct (decide (p = a)) as [->|?]; [eauto|].
    by rewrite lookup_insert_ne in Hs by done.
  - intros Hlt. apply Hp in Hlt.
    destruct (decide (p = b)) as [->|?]; [rewrite lookup_insert_eq; eauto|].
    rewrite lookup_insert_ne by done.
    destruct (decide (p = a)) as [->|?]; [rewrite lookup_insert_eq; eauto|].
    by rewrite lookup_insert_ne by done.
  - intros Hs. apply Hv.
    destruct (decide (v = va)) as [->|?]; [eauto|].
    rewrite lookup_insert_ne in Hs by done.
    destruct (decide (v = vb)) as [->|?]; [eauto|].
    by rewrite lookup_insert_ne in Hs by done.
  - intros Hlt. apply Hv in Hlt.
    destruct (decide (v = va)) as [->|?]; [rewrite lookup_insert_eq; eauto|].
    rewrite lookup_insert_ne by done.
    destruct (decide (v = vb)) as [->|?]; [rewrite lookup_insert_eq; eauto|].
    by rewrite lookup_insert_ne by done.
Qed.

Lemma apply_swaps_layout_ok (n : nat) (pairs : list (nat * nat)) (l l' : Layout) :
  layout_ok n l → apply_swaps l pairs = Ok l' → layout_ok n l'.
Proof.
  revert l; induction pairs as [|w r IH]; intros l Hok Hs; simpl in Hs.
  - by injection Hs as <-.
  - inv_bind Hs as l1 Hl1. eapply IH; [|exact Hs]. eapply swap_layout_ok; eauto.
Qed.

Lemma apply_swaps_app (l : Layout) (s1 s2 : list (nat * nat)) :
  apply_swaps l (s1 ++ s2) = (l' ← apply_swaps l s1; apply_swaps l' s2).
Proof.
  revert l; induction s1 as [|w r IH]; intros l; simpl; [reflexivity|].
  destruct (swap l w.1 w.2); simpl; [apply IH | reflexivity].
Qed.

Lemma apply_swaps_prefix (l l' : Layout) (swaps : list (nat * nat)) (k : nat) :
  apply_swaps l swaps = Ok l' → ∃ lk, apply_swaps l (take k swaps) = Ok lk.
Proof.
  intros Hs. rewrite <- (take_drop k swaps), apply_swaps_app in Hs.
  inv_bind Hs as lk Hlk. eauto.
Qed.

(** ** What a run leaves alone and what it appends *)

Section RoutingFacts.
Context `{Libraries}.

Lemma insert_swaps_frame (st st' : Store) (pairs : list (nat * nat)) :
  insert_swaps st pairs = Ok st' →
  dag st' = dag st
  ∧ qreg (new_dag st') = qreg (new_dag st)
  ∧ cregs (new_dag st') = cregs (new_dag st)
  ∧ apply_swaps (current_layout st) pairs = Ok (current_layout st')
  ∧ ∃ placed,
      nodes (new_dag st') = nodes (new_dag st) ++ placed
      ∧ length placed = length pairs
      ∧ Forall (fun g => name g = "swap") placed.
Proof.
  unfold insert_swaps. intros Hi.
  inv_bind Hi as layer Hlayer. inv_bind Hi as order Horder.
  inv_bind Hi as placed Hplaced. inv_bind Hi as l' Hl'. injection Hi as <-. simpl.
  repeat split; try done.
  exists placed. split; [done|].
  apply for_each_Forall2 in Hlayer, Hplaced.
  split.
  - rewrite <- (Forall2_length _ _ _ Hplaced). symmetry.
    exact (Forall2_length _ _ _ Hlayer).
  - clear - Hlayer Hplaced. revert placed Hplaced.
    induction Hlayer as [|w g wr gr Hw _ IH]; intros placed Hp.
    + inversion Hp. constructor.
    + inversion Hp as [|? g' ? gr' Hg Hr]; subst. constructor; [|by apply IH].
      inv_bind Hw as q1 Hq1. inv_bind Hw as q2 Hq2. injection Hw as <-.
      unfold compose_node in Hg. inv_bind Hg as ps Hps. injection Hg as <-.
      reflexivity.
Qed.

Lemma step_effect_refl (st : Store) : step_effect st st [] [].
Proof. unfold step_effect. simpl. by rewrite app_nil_r. Qed.

Lemma route_gate_effect (h : HERR) (st st' : Store) (gate : DAGOpNode) :
  route_gate h st gate = Ok st' →
  ∃ swaps placed,
    step_effect st st' swaps placed
    ∧ length placed = length swaps
    ∧ Forall (fun g => name g = "swap") placed.
Proof.
  unfold route_gate. intros Hr.
  inv_bind Hr as p0 Hp0. inv_bind Hr as p1 Hp1. inv_bind Hr as betterEdge Hb.
  destruct betterEdge as [edge|].
  - inv_bind Hr as swapPath Hpath.
    destruct (insert_swaps_frame _ _ _ Hr) as (? & ? & ? & ? & placed & ? & ? & ?).
    eexists _, placed. unfold step_effect. eauto 10.
  - inv_bind Hr as d Hd. destruct (negb (d =? 1)).
    + inv_bind Hr as path Hpath.
      destruct (insert_swaps_frame _ _ _ Hr) as (? & ? & ? & ? & placed & ? & ? & ?).
      eexists _, placed. unfold step_effect. eauto 10.
    + injection Hr as <-. exists [], []. split; [apply step_effect_refl|].
      split; [done|constructor].
Qed.

Lemma reorder_bits_lookup (l : Layout) (n : nat) (order : list nat) (v p : nat) :
  reorder_bits l n = Ok order → order !! v = Some p → v2p l !! v = Some p.
Proof.
  unfold reorder_bits. intros Hm Hl. apply for_each_Forall2 in Hm.
  destruct (Forall2_lookup_r _ _ _ _ _ Hm Hl) as (x & Hx & Hf).
  apply lookup_seq in Hx as [-> _]. simpl in Hf.
  by apply of_option_Ok in Hf.
Qed.

Lemma compose_node_readdressed (l : Layout) (n : nat) (order : list nat)
    (g g' : DAGOpNode) :
  reorder_bits l n = Ok order → compose_node n order g = Ok g' →
  readdressed l g g'.
Proof.
  intros Ho Hc. unfold compose_node in Hc. inv_bind Hc as ps Hps.
  injection Hc as <-.
  repeat split; simpl. apply for_each_Forall2 in Hps.
  eapply Forall2_impl; [exact Hps|]. simpl. intros v p Hw.
  unfold wire in Hw. inv_bind Hw as p' Hp'. apply of_option_Ok in Hp'.
  destruct (p' <? n); [|discriminate]. injection Hw as <-.
  eapply reorder_bits_lookup; eauto.
Qed.

Lemma route_layer_effect (h : HERR) (st st' : Store) (gate : DAGOpNode) :
  route_layer h st gate = Ok st' →
  ∃ swaps placed gate',
    step_effect st st' swaps (placed ++ [gate'])
    ∧ length placed = length swaps
    ∧ Forall (fun g => name g = "swap") placed
    ∧ readdressed (current_layout st') gate gate'.
Proof.
  unfold route_layer. intros Hr.
  inv_bind Hr as st1 Hst1. inv_bind Hr as order Horder. inv_bind Hr as out Hout.
  injection Hr as <-. simpl.
  unfold compose in Hout. simpl in Hout. inv_bind Hout as gate' Hgate'.
  injection Hout as <-.
  assert (Hg : ∃ swaps placed, step_effect st st1 swaps placed
                 ∧ length placed = length swaps
                 ∧ Forall (fun g => name g = "swap") placed).
  { destruct (is_two_qubit_op gate).
    - by apply (route_gate_effect h _ _ gate).
    - injection Hst1 as <-. exists [], []. split; [apply step_effect_refl|].
      split; [done|constructor]. }
  destruct Hg as (swaps & placed & (? & ? & ? & ? & Hn) & ? & ?).
  pose proof (compose_node_readdressed _ _ _ _ _ Horder Hgate') as Hre.
  exists swaps, placed, gate'. repeat split; simpl; try done; try apply Hre.
  by rewrite Hn, app_assoc.
Qed.

Lemma route_layers_effect (h : HERR) (layers : list DAGOpNode) (st st' : Store) :
  route_layers h st layers = Ok st' →
  ∃ t : list LayerTrace,
    step_effect st st' (trace_swaps t) (trace_nodes t)
    ∧ Forall2 layer_ok layers t.
Proof.
  revert st; induction layers as [|gate rest IH]; intros st Hr; simpl in Hr.
  - injection Hr as <-. exists []. split; [apply step_effect_refl | constructor].
  - inv_bind Hr as st1 Hst1.
    destruct (route_layer_effect _ _ _ _ Hst1)
      as (swaps & placed & gate' & (Hd & Hq & Hc & Hs & Hn) & Hlen & Hsw & Hre).
    destruct (IH _ Hr) as (t & (Hd' & Hq' & Hc' & Hs' & Hn') & Ht).
    exists ((swaps, placed, gate') :: t). split.
    + unfold step_effect, trace_swaps, trace_nodes. simpl.
      repeat split; try congruence.
      * rewrite apply_swaps_app, Hs. exact Hs'.
      * rewrite Hn', Hn. by rewrite <- !app_assoc.
    + constructor; [|exact Ht]. repeat split; simpl; eauto.
Qed.

Lemma run_store_effect (h : HERR) (d : DAGCircuit) (st : Store) :
  run_store h d = Ok st →
  ∃ t : list LayerTrace,
    step_effect (initial_store d) st (trace_swaps t) (trace_nodes t)
    ∧ Forall2 layer_ok (nodes d) t.
Proof.
  unfold run_store. destruct (size (couplingMap h) <? qreg d); [discriminate|].
  apply route_layers_effect.
Qed.

Lemma layout_ok_bijection (n : nat) (l : Layout) : layout_ok n l → bijection n l.
Proof.
  intros (Hinv & Hp & Hv). split.
  - intros p Hlt. destruct (proj2 (Hp p) Hlt) as [v Hpv].
    pose proof (proj1 (Hinv _ _) Hpv) as Hvp.
    exists v. unfold logical_of, physical_of. rewrite Hpv, Hvp.
    split; [apply Hv; eauto | done].
  - intros v Hlt. destruct (proj2 (Hv v) Hlt) as [p Hvp].
    pose proof (proj2 (Hinv _ _) Hvp) as Hpv.
    exists p. unfold logical_of, physical_of. rewrite Hpv, Hvp.
    split; [apply Hp; eauto | done].
Qed.

End RoutingFacts.

(** ** Accuracies *)

Lemma hops_cons (a b : nat) (r : list nat) (k : nat) :
  hops (a :: b :: r) (S k) = (a, b) :: hops (b :: r) k.
Proof.
  unfold hops. simpl. f_equal. rewrite <- seq_shift, map_map. reflexivity.
Qed.

Lemma hops_take (path : list nat) (k : nat) :
  k ≤ length path - 1 → hops path k = take k (links path).
Proof.
  revert path; induction k as [|k IH]; intros path Hk.
  - by destruct path as [|a [|b r]].
  - destruct path as [|a [|b r]]; simpl in Hk; try lia.
    rewrite hops_cons. simpl. f_equal. apply IH. simpl. lia.
Qed.

Lemma links_length (path : list nat) : length (links path) = length path - 1.
Proof.
  induction path as [|a [|b r] IH]; simpl in *; try reflexivity.
  rewrite IH. lia.
Qed.

Lemma hops_links (path : list nat) : hops path (length path - 1) = links path.
Proof.
  rewrite hops_take by lia. rewrite <- links_length. apply firstn_all.
Qed.

Lemma hops_all_but_last (path : list nat) :
  hops path (length path - 2) = all_but_last (links path).
Proof.
  rewrite hops_take by lia. unfold all_but_last. rewrite links_length.
  f_equal. lia.
Qed.

#[local] Arguments Qpower : simpl never.

Lemma accumulate_cube_product (acc : gmap (nat * nat) Q) (pairs : list (nat * nat))
    (a : Q) :
  result_Qeq (accumulate acc a pairs)
             (p ← cube_product acc pairs; Ok (a * p)%Q).
Proof.
  revert a; induction pairs as [|[w1 w2] r IH]; intros a; simpl.
  - ring.
  - unfold cube_product in *. simpl.
    destruct (edge_weight acc w1 w2) as [w|e]; simpl; [|reflexivity].
    specialize (IH (a * w ^ 3)%Q).
    destruct (for_each _ r) as [ws|e]; simpl in *.
    + destruct (accumulate acc (a * w ^ 3) r) as [x|]; simpl in *; [|contradiction].
      rewrite IH. ring.
    + exact IH.
Qed.

Lemma result_Qeq_bind_mult_1 (r1 r2 : result Q) :
  result_Qeq r1 (p ← r2; Ok (1 * p)%Q) → result_Qeq r1 r2.
Proof.
  destruct r1 as [a|e1], r2 as [b|e2]; simpl; try done.
  intros ->. ring.
Qed.

Lemma path_hops_links (p : option (list nat)) : path_hops p = links_of p.
Proof. destruct p; simpl; [apply hops_links | reflexivity]. Qed.

Section AccuracyFacts.
Context `{Libraries}.

(** C3 (as amended).  For a pair that is not directly linked, the
    baseline accuracy is the product of [weight(link)^3] over the
    consecutive links of [shortestPath(p0,p1)] except the last one (the
    link on which the operation itself is then applied). *)
Theorem baseline_is_product_without_last_link (h : HERR) (qubit1 qubit2 : nat) :
  has_edge (qubitAccuracy h) qubit1 qubit2 = false →
  result_Qeq (baseline_accuracy h qubit1 qubit2)
    (path ← shortest_undirected_path (couplingMap h) qubit1 qubit2;
     cube_product (qubitAccuracy h) (all_but_last (links path))).
Proof.
  intros He. unfold baseline_accuracy, calc_shortest_path_accuracy. rewrite He.
  destruct (shortest_undirected_path (couplingMap h) qubit1 qubit2) as [path|e];
    simpl; [|reflexivity].
  rewrite hops_all_but_last. apply result_Qeq_bind_mult_1.
  apply accumulate_cube_product.
Qed.

End AccuracyFacts.

Section MissingPath.
Context `{Libraries}.

(** C4 on its failing inputs.  When neither source qubit lies on the
    candidate link and one of the four searches finds no path (the
    subgraph without the partner disconnects a source qubit from an end
    of the candidate), the path assignment does not yield "no path" and
    the candidate is not scored 0: [len(None)] raises [TypeError] in
    [find_shortest_path], and [calc_path_accuracy] fails with it. *)
Theorem missing_path_raises_type_error (h : HERR) (s0 s1 d0 d1 : nat) (l : Layout) :
  in_pair s0 (d0, d1) = false →
  in_pair s1 (d0, d1) = false →
  find_path_excluding h s0 d0 s1 = None ∨ find_path_excluding h s1 d0 s0 = None
  ∨ find_path_excluding h s0 d1 s1 = None ∨ find_path_excluding h s1 d1 s0 = None →
  find_shortest_path h (s0, s1) (d0, d1) = Raise TypeError
  ∧ calc_path_accuracy h (s0, s1) (d0, d1) l = Raise TypeError.
Proof.
  intros H0 H1 Hnone.
  assert (Hf : find_shortest_path h (s0, s1) (d0, d1) = Raise TypeError).
  { unfold find_shortest_path. rewrite H0, H1. simpl.
    unfold in_pair in H0, H1. simpl in H0, H1.
    apply orb_false_iff in H0 as [H00 H01]. apply orb_false_iff in H1 as [H10 H11].
    rewrite (Nat.eqb_sym d0 s1), (Nat.eqb_sym d1 s1), (Nat.eqb_sym d0 s0),
      (Nat.eqb_sym d1 s0), H00, H01, H10, H11. simpl.
    destruct (find_path_excluding h s0 d0 s1) as [q00|]; simpl; [|reflexivity].
    destruct (find_path_excluding h s1 d0 s0) as [q10|]; simpl; [|reflexivity].
    destruct (find_path_excluding h s0 d1 s1) as [q01|]; simpl; [|reflexivity].
    destruct (find_path_excluding h s1 d1 s0) as [q11|]; simpl.
    - destruct Hnone as [?|[?|[?|?]]]; discriminate.
    - by destruct (length q01 <? length q00). }
  split; [exact Hf|]. unfold calc_path_accuracy. by rewrite Hf.
Qed.

End MissingPath.

(** ** Swap chains *)

Lemma swap_layer_addressed (l : Layout) (pairs : list (nat * nat))
    (layer : list DAGOpNode) :
  swap_layer l pairs = Ok layer → Forall2 (addressed l) pairs layer.
Proof.
  intros Hs. apply for_each_Forall2 in Hs.
  eapply Forall2_impl; [exact Hs|]. simpl. intros w g Hw.
  inv_bind Hw as q1 Hq1. inv_bind Hw as q2 Hq2. injection Hw as <-.
  apply of_option_Ok in Hq1, Hq2. by exists q1, q2.
Qed.

Lemma compose_swap_layer (l : Layout) (n : nat) (order : list nat)
    (pairs : list (nat * nat)) (layer placed : list DAGOpNode) :
  inverse_maps l →
  reorder_bits l n = Ok order →
  Forall2 (addressed l) pairs layer →
  compose n order layer = Ok placed →
  placed = map (fun w : nat * nat => SwapGate w.1 w.2) pairs.
Proof.
  intros Hinv Ho Ha. revert placed.
  induction Ha as [|w g pairs layer (q1 & q2 & Hq1 & Hq2 & ->) _ IH];
    intros placed Hc; unfold compose in *; simpl in Hc.
  - by injection Hc as <-.
  - inv_bind Hc as g' Hg'. inv_bind Hc as rest Hrest. injection Hc as <-.
    simpl. f_equal; [|by apply IH].
    destruct (compose_node_readdressed _ _ _ _ _ Ho Hg') as (Hn & Hca & Hd & Hq).
    simpl in *. destruct g' as [nm qs cs dr]; simpl in *. subst.
    inversion Hq as [|? p1 ? ? Hp1 Hq']; subst.
    inversion Hq' as [|? p2 ? ? Hp2 Hq'']; subst.
    inversion Hq''; subst.
    apply Hinv in Hq1, Hq2. unfold SwapGate. repeat f_equal; congruence.
Qed.

Section SwapChains.
Context `{Libraries}.

Lemma insert_swaps_exact (st st' : Store) (pairs : list (nat * nat)) :
  inverse_maps (current_layout st) →
  insert_swaps st pairs = Ok st' →
  (∃ layer, swap_layer (current_layout st) pairs = Ok layer
            ∧ Forall2 (addressed (current_layout st)) pairs layer)
  ∧ nodes (new_dag st') =
      nodes (new_dag st) ++ map (fun w : nat * nat => SwapGate w.1 w.2) pairs
  ∧ apply_swaps (current_layout st) pairs = Ok (current_layout st').
Proof.
  intros Hinv Hi. unfold insert_swaps in Hi.
  inv_bind Hi as layer Hlayer. inv_bind Hi as order Horder.
  inv_bind Hi as placed Hplaced. inv_bind Hi as l' Hl'. injection Hi as <-.
  simpl. pose proof (swap_layer_addressed _ _ _ Hlayer) as Ha.
  repeat split; [by exists layer | | done].
  f_equal. eapply compose_swap_layer; eauto.
Qed.

(** An operation on adjacent endpoints for which no better link is
    reported is passed through: no swap, same layout, the operation
    re-addressed. *)
Lemma pass_through_without_better_link (h : HERR) (st st' : Store)
    (gate : DAGOpNode) (p0 p1 : nat) :
  is_two_qubit_op gate = true →
  physical_of (current_layout st) (nth 0 (qargs gate) 0) = Ok p0 →
  physical_of (current_layout st) (nth 1 (qargs gate) 0) = Ok p1 →
  find_better_link h p0 p1 (current_layout st) (searchDepth h) = Ok None →
  distance (couplingMap h) p0 p1 = Ok 1 →
  route_layer h st gate = Ok st' →
  current_layout st' = current_layout st
  ∧ ∃ gate', nodes (new_dag st') = nodes (new_dag st) ++ [gate']
             ∧ readdressed (current_layout st) gate gate'.
Proof.
  intros H2 Hp0 Hp1 Hb Hd Hr. unfold route_layer in Hr. rewrite H2 in Hr.
  unfold route_gate in Hr. rewrite Hp0, Hp1 in Hr. red_bind Hr.
  rewrite Hb in Hr. red_bind Hr. rewrite Hd in Hr. simpl in Hr.
  inv_bind Hr as order Horder. inv_bind Hr as out Hout. injection Hr as <-.
  simpl. split; [done|].
  unfold compose in Hout. simpl in Hout. inv_bind Hout as gate' Hgate'.
  injection Hout as <-. exists gate'. split; [done|].
  eapply compose_node_readdressed; eauto.
Qed.

End SwapChains.

(** ** Dominant links *)

Lemma unit_weights_lookup (acc : gmap (nat * nat) Q) (k : nat * nat) (w : Q) :
  unit_weights acc = true → acc !! k = Some w → (0 <= w)%Q ∧ (w <= 1)%Q.
Proof.
  unfold unit_weights. rewrite forallb_forall. intros Hall Hk.
  apply elem_of_map_to_list, list_elem_of_In, Hall in Hk. simpl in Hk.
  apply andb_true_iff in Hk as [H0 H1].
  split; by apply Qle_bool_iff.
Qed.

Lemma dominant_lookup (acc : gmap (nat * nat) Q) (w0 : Q) (k : nat * nat) (w : Q) :
  dominant acc w0 = true → acc !! k = Some w → (w <= w0)%Q.
Proof.
  unfold dominant. rewrite forallb_forall. intros Hall Hk.
  apply elem_of_map_to_list, list_elem_of_In, Hall in Hk. simpl in Hk.
  by apply Qle_bool_iff.
Qed.

Lemma all_pairs_spec (n : nat) (f : nat → nat → bool) (p q : nat) :
  all_pairs n f = true → p < n → q < n → p ≠ q → f p q = true.
Proof.
  unfold all_pairs. rewrite forallb_forall. intros Hall Hp Hq Hne.
  assert (Hin : In p (seq 0 n)) by (apply in_seq; lia).
  specialize (Hall p Hin). rewrite forallb_forall in Hall.
  assert (Hin' : In q (seq 0 n)) by (apply in_seq; lia).
  specialize (Hall q Hin'). apply orb_true_iff in Hall as [Heq|Hf]; [|done].
  apply Nat.eqb_eq in Heq. done.
Qed.

Lemma cube_unit (w : Q) :
  (0 <= w)%Q → (w <= 1)%Q → (0 <= w ^ 3)%Q ∧ (w ^ 3 <= 1)%Q.
Proof.
  intros H0 H1. split; [by apply Qpower_0_le|].
  assert (Hc : (w ^ 3 == w * (w * w))%Q) by reflexivity.
  rewrite Hc.
  assert (Hww : (w * w <= 1)%Q).
  { assert (Hm := Qmult_le_compat_nonneg w 1 w 1 (conj H0 H1) (conj H0 H1)).
    by rewrite Qmult_1_l in Hm. }
  assert (H0ww : (0 <= w * w)%Q) by (by apply Qmult_le_0_compat).
  assert (Hm := Qmult_le_compat_nonneg w 1 (w * w) 1 (conj H0 H1) (conj H0ww Hww)).
  by rewrite Qmult_1_l in Hm.
Qed.

Lemma accumulate_bounds (acc : gmap (nat * nat) Q) (pairs : list (nat * nat))
    (a r : Q) :
  unit_weights acc = true → (0 <= a)%Q →
  accumulate acc a pairs = Ok r → (0 <= r)%Q ∧ (r <= a)%Q.
Proof.
  intros Hu. revert a; induction pairs as [|[w1 w2] rest IH]; intros a Ha Hacc;
    simpl in Hacc.
  - injection Hacc as <-. split; [done | apply Qle_refl].
  - inv_bind Hacc as w Hw. apply of_option_Ok in Hw.
    destruct (unit_weights_lookup _ _ _ Hu Hw) as [Hw0 Hw1].
    destruct (cube_unit w Hw0 Hw1) as [Hc0 Hc1].
    assert (Ha' : (0 <= a * w ^ 3)%Q) by (by apply Qmult_le_0_compat).
    destruct (IH _ Ha' Hacc) as [Hr0 Hr1]. split; [done|].
    eapply Qle_trans; [exact Hr1|].
    assert (Hm := Qmult_le_compat_nonneg a a (w ^ 3) 1
                    (conj Ha (Qle_refl a)) (conj Hc0 Hc1)).
    by rewrite Qmult_1_r in Hm.
Qed.

Section DominantLinks.
Context `{Libraries}.

Lemma calc_path_accuracy_bound (h : HERR) (src dst : nat * nat) (l : Layout)
    (wb a : Q) :
  unit_weights (qubitAccuracy h) = true →
  dominant (qubitAccuracy h) wb = true → (0 <= wb)%Q →
  calc_path_accuracy h src dst l = Ok a → (a <= wb)%Q.
Proof.
  intros Hu Hd Hwb Hc. unfold calc_path_accuracy in Hc.
  inv_bind Hc as qp Hqp.
  assert (Hgen :
    (a0 ← accumulate (qubitAccuracy h) 1%Q (path_hops qp.1);
     a1 ← accumulate (qubitAccuracy h) 1%Q (path_hops qp.2);
     opAccuracy ← edge_weight (qubitAccuracy h) dst.1 dst.2;
     Ok (opAccuracy * a0 * a1)%Q) = Ok a → (a <= wb)%Q).
  { clear Hc. intros Hc.
    inv_bind Hc as a0 Ha0. inv_bind Hc as a1 Ha1. inv_bind Hc as w Hw.
    injection Hc as <-. apply of_option_Ok in Hw.
    assert (Hone : (0 <= 1)%Q) by (vm_compute; discriminate).
    destruct (accumulate_bounds _ _ 1%Q _ Hu Hone Ha0) as [H00 H01].
    destruct (accumulate_bounds _ _ 1%Q _ Hu Hone Ha1) as [H10 H11].
    destruct (unit_weights_lookup _ _ _ Hu Hw) as [Hw0 Hw1].
    pose proof (dominant_lookup _ _ _ _ Hd Hw) as Hle.
    assert (Hm1 := Qmult_le_compat_nonneg w w a0 1
                     (conj Hw0 (Qle_refl w)) (conj H00 H01)).
    rewrite Qmult_1_r in Hm1.
    assert (Hwa0 : (0 <= w * a0)%Q) by (by apply Qmult_le_0_compat).
    assert (Hm2 := Qmult_le_compat_nonneg (w * a0) w a1 1
                     (conj Hwa0 Hm1) (conj H10 H11)).
    rewrite Qmult_1_r in Hm2.
    eapply Qle_trans; eauto. }
  destruct qp as [[p0|] [p1|]]; simpl in *; try (by apply Hgen).
  by injection Hc as <-.
Qed.

Lemma loop_without_improvement (h : HERR) (q1 q2 : nat) (l : Layout) (depth : nat)
    (order : list (nat * nat)) (e0 : nat * nat) (wb : Q)
    (st : (nat * nat) * Q * bool) :
  unit_weights (qubitAccuracy h) = true →
  dominant (qubitAccuracy h) wb = true → (0 <= wb)%Q →
  find_better_link_loop h q1 q2 l depth order (e0, wb, false) = Ok st →
  st = (e0, wb, false).
Proof.
  intros Hu Hd Hwb. induction order as [|e rest IH]; intros Hl; simpl in Hl.
  - by injection Hl as <-.
  - inv_bind Hl as near Hnear. destruct near; [|by apply IH].
    inv_bind Hl as a Ha.
    pose proof (calc_path_accuracy_bound _ _ _ _ _ _ Hu Hd Hwb Ha) as Hle.
    apply Qle_bool_iff in Hle. unfold Qgtb in Hl. rewrite Hle in Hl. simpl in Hl.
    by apply IH.
Qed.

(** On a link whose weight no other weight exceeds, [find_better_link]
    reports no better link, whatever the enumeration order. *)
Lemma no_better_link_when_dominant (h : HERR) (q1 q2 : nat) (l : Layout)
    (depth : nat) (wb : Q) (r : option (nat * nat)) :
  unit_weights (qubitAccuracy h) = true →
  qubitAccuracy h !! edge_key q1 q2 = Some wb →
  dominant (qubitAccuracy h) wb = true →
  find_better_link h q1 q2 l depth = Ok r → r = None.
Proof.
  intros Hu Hw Hd Hf. unfold find_better_link, find_better_link_over in Hf.
  inv_bind Hf as b Hb. inv_bind Hf as st Hst.
  unfold baseline_accuracy, has_edge, edge_weight in Hb. rewrite Hw in Hb.
  rewrite bool_decide_eq_true_2 in Hb by eauto. simpl in Hb. injection Hb as <-.
  destruct (unit_weights_lookup _ _ _ Hu Hw) as [Hw0 _].
  apply loop_without_improvement in Hst; try done. subst st.
  by injection Hf as <-.
Qed.

Lemma route_layer_identity (h : HERR) (n : nat) (st st' : Store) (gate : DAGOpNode) :
  unit_weights (qubitAccuracy h) = true →
  all_pairs n (adjacent_dominant h) = true →
  negb (is_two_qubit_op gate)
  || negb (nth 0 (qargs gate) 0 =? nth 1 (qargs gate) 0) = true →
  current_layout st = generate_trivial_layout n →
  qreg (new_dag st) = n →
  route_layer h st gate = Ok st' →
  current_layout st' = generate_trivial_layout n
  ∧ qreg (new_dag st') = n
  ∧ nodes (new_dag st') = nodes (new_dag st) ++ [gate].
Proof.
  intros Hu Hall Hdist Hl Hn Hr. unfold route_layer in Hr.
  inv_bind Hr as st1 Hst1.
  assert (Hst : st1 = st).
  { destruct (is_two_qubit_op gate) eqn:H2; [|by injection Hst1 as <-].
    simpl in Hdist. apply negb_true_iff, Nat.eqb_neq in Hdist.
    unfold route_gate in Hst1. rewrite Hl in Hst1.
    inv_bind Hst1 as p0 Hp0. inv_bind Hst1 as p1 Hp1.
    apply trivial_layout_physical_of in Hp0 as [-> Hlt0].
    apply trivial_layout_physical_of in Hp1 as [-> Hlt1].
    pose proof (all_pairs_spec _ _ _ _ Hall Hlt0 Hlt1 Hdist) as Had.
    unfold adjacent_dominant in Had.
    destruct (distance (couplingMap h) _ _) as [[|[|?]]|] eqn:Hd; try done.
    destruct (qubitAccuracy h !! edge_key _ _) as [w|] eqn:Hw; [|done].
    inv_bind Hst1 as r Hr'.
    apply (no_better_link_when_dominant _ _ _ _ _ w) in Hr'; try done. subst r.
    simpl in Hst1. by injection Hst1 as <-. }
  subst st1. inv_bind Hr as order Horder. inv_bind Hr as placed Hplaced.
  injection Hr as <-. simpl. repeat split; try done.
  f_equal. unfold compose in Hplaced. simpl in Hplaced.
  inv_bind Hplaced as gate' Hgate'. injection Hplaced as <-. f_equal.
  destruct (compose_node_readdressed _ _ _ _ _ Horder Hgate') as (E1 & E2 & E3 & E4).
  assert (Eq : qargs gate' = qargs gate).
  { clear - E4 Hl. rewrite Hl in E4.
    induction E4 as [|v p vs ps Hv _ IH]; [done|]. f_equal; [|exact IH].
    rewrite (proj1 (trivial_layout_maps n)) in Hv.
    destruct (decide (v < n)); congruence. }
  destruct gate, gate'; simpl in *. congruence.
Qed.

Lemma route_layers_identity (h : HERR) (n : nat) (layers : list DAGOpNode)
    (st st' : Store) :
  unit_weights (qubitAccuracy h) = true →
  all_pairs n (adjacent_dominant h) = true →
  forallb (fun g => negb (is_two_qubit_op g)
                    || negb (nth 0 (qargs g) 0 =? nth 1 (qargs g) 0)) layers = true →
  current_layout st = generate_trivial_layout n →
  qreg (new_dag st) = n →
  route_layers h st layers = Ok st' →
  nodes (new_dag st') = nodes (new_dag st) ++ layers.
Proof.
  intros Hu Hall. revert st; induction layers as [|g rest IH];
    intros st Hd Hl Hn Hr; simpl in Hr.
  - injection Hr as <-. by rewrite app_nil_r.
  - simpl in Hd. apply andb_true_iff in Hd as [Hg Hrest].
    inv_bind Hr as st1 Hst1.
    destruct (route_layer_identity _ _ _ _ _ Hu Hall Hg Hl Hn Hst1)
      as (Hl1 & Hn1 & Hnodes).
    rewrite (IH _ Hrest Hl1 Hn1 Hr), Hnodes, <- app_assoc. reflexivity.
Qed.

(** Where every two qubits of the program are adjacent through a link
    whose weight no other link exceeds, [run] returns the operations of
    the input as they are. *)
Lemma dominant_links_no_swap (h : HERR) (d out : DAGCircuit) :
  unit_weights (qubitAccuracy h) = true →
  all_pairs (qreg d) (adjacent_dominant h) = true →
  distinct_qargs d = true →
  run h d = Ok out → nodes out = nodes d.
Proof.
  intros Hu Hall Hd Hr. unfold run, run_store in Hr.
  inv_bind Hr as st Hst. injection Hr as <-.
  destruct (size (couplingMap h) <? qreg d); [discriminate|].
  by apply (route_layers_identity h (qreg d) (nodes d) (initial_store d)).
Qed.

(** C5 (as amended).  For every two-qubit operation whose current
    physical endpoints are adjacent and for which [find_better_link]
    reports no better link, the router inserts no swap, leaves the layout
    as it is and passes the operation through unchanged except for the
    re-addressing through the layout.  In particular, where every two
    qubits of the program are adjacent through a link whose weight no
    other link exceeds, all weights lying in [[0, 1]] (a complete graph
    with one weight for all its links is such a device), the router never
    inserts a swap: the output has the operations of the input. *)
Theorem adjacent_operations_pass_through :
  (∀ (h : HERR) (st st' : Store) (gate : DAGOpNode) (p0 p1 : nat),
     is_two_qubit_op gate = true →
     physical_of (current_layout st) (nth 0 (qargs gate) 0) = Ok p0 →
     physical_of (current_layout st) (nth 1 (qargs gate) 0) = Ok p1 →
     find_better_link h p0 p1 (current_layout st) (searchDepth h) = Ok None →
     distance (couplingMap h) p0 p1 = Ok 1 →
     route_layer h st gate = Ok st' →
     current_layout st' = current_layout st
     ∧ ∃ gate', nodes (new_dag st') = nodes (new_dag st) ++ [gate']
                ∧ readdressed (current_layout st) gate gate')
  ∧ (∀ (h : HERR) (d out : DAGCircuit),
       unit_weights (qubitAccuracy h) = true →
       all_pairs (qreg d) (adjacent_dominant h) = true →
       distinct_qargs d = true →
       run h d = Ok out → nodes out = nodes d).
Proof.
  split.
  - apply pass_through_without_better_link.
  - apply dominant_links_no_swap.
Qed.

End DominantLinks.

(** ** Candidate search *)

Section CandidateSearch.
Context `{Libraries}.

Lemma find_better_link_loop_found (h : HERR) (q1 q2 : nat) (l : Layout)
    (depth : nat) (order : list (nat * nat)) (e e' : nat * nat) (a a' : Q)
    (f : bool) :
  find_better_link_loop h q1 q2 l depth order (e, a, true) = Ok (e', a', f) →
  f = true.
Proof.
  revert e a; induction order as [|c rest IH]; intros e a Hl; simpl in Hl.
  - by injection Hl as _ _ <-.
  - inv_bind Hl as near Hnear. destruct near; [|by eapply IH].
    inv_bind Hl as x Hx. destruct (Qgtb x a); by eapply IH.
Qed.

Lemma spec_find_better_link_loop_found (h : HERR) (q1 q2 : nat) (l : Layout)
    (depth : nat) (order : list (nat * nat)) (e e' : nat * nat) (a a' : Q)
    (f : bool) :
  spec_find_better_link_loop h q1 q2 l depth order (e, a, true) = Ok (e', a', f) →
  f = true.
Proof.
  revert e a; induction order as [|c rest IH]; intros e a Hl; simpl in Hl.
  - by injection Hl as _ _ <-.
  - inv_bind Hl as near Hnear. destruct near; [|by eapply IH].
    inv_bind Hl as x Hx. destruct (Qgtb x a); by eapply IH.
Qed.

Lemma loops_agree_without_improvement (h : HERR) (q1 q2 : nat) (l : Layout)
    (depth : nat) (order : list (nat * nat)) (b : Q) (st : (nat * nat) * Q * bool) :
  st.2 = false →
  find_better_link_loop h q1 q2 l depth order ((q1, q2), b, false) = Ok st
  ↔ spec_find_better_link_loop h q1 q2 l depth order ((q1, q2), b, false) = Ok st.
Proof.
  destruct st as [[e a] f]. simpl. intros ->.
  induction order as [|c rest IH]; simpl; [done|].
  destruct (within_depth (couplingMap h) q1 q2 c depth) as [[|]|]; simpl;
    [|exact IH|done].
  destruct (calc_path_accuracy h (q1, q2) c l) as [x|]; simpl; [|done].
  destruct (Qgtb x b); [|exact IH].
  split; intros Hl.
  - by apply find_better_link_loop_found in Hl.
  - by apply spec_find_better_link_loop_found in Hl.
Qed.

(** The part of C2 that the source satisfies: [find_better_link] returns
    [None] exactly when no candidate within the search depth has a path
    accuracy, computed from the pair [(qubit1, qubit2)], above the
    baseline. *)
Lemma find_better_link_none (order : list (nat * nat)) (h : HERR) (q1 q2 : nat)
    (l : Layout) (depth : nat) :
  find_better_link_over order h q1 q2 l depth = Ok None
  ↔ spec_find_better_link_over order h q1 q2 l depth = Ok None.
Proof.
  unfold find_better_link_over, spec_find_better_link_over.
  destruct (baseline_accuracy h q1 q2) as [b|]; simpl; [|done].
  split; intros Hf.
  - inv_bind Hf as st Hst. destruct st as [[e a] [|]]; [done|].
    apply loops_agree_without_improvement in Hst; [|done]. by rewrite Hst.
  - inv_bind Hf as st Hst. destruct st as [[e a] [|]]; [done|].
    apply loops_agree_without_improvement in Hst; [|done]. by rewrite Hst.
Qed.

End CandidateSearch.

(** ** The claims on concrete inputs *)

(** Counterexample to C8 as stated: a program of two qubits on the line
    of three qubits.  The run succeeds and the final layout has no
    logical owner for the physical qubit 2 of the device. *)
Lemma layout_not_total_counterexample :
  ∃ st, run_store (line3 1 1) (program 2 [cx 0 1]) = Ok st
        ∧ 2 < size (couplingMap (line3 1 1))
        ∧ logical_of (current_layout st) 2 = Raise KeyError.
Proof.
  eexists. split; [vm_compute; reflexivity|].
  split; [vm_compute; lia | vm_compute; reflexivity].
Qed.

(** What the missing entries mean for routing: on the device with the
    links [0 - 2] and [2 - 1], a program of two qubits has its qubits on
    the physical qubits 0 and 1; the direct-connect chain goes through the
    physical qubit 2, which has no logical owner, and [run] raises. *)
Fact unmapped_qubit_raises :
  shortest_undirected_path (couplingMap detour) 0 1 = Ok [0; 2; 1]
  ∧ run detour (program 2 [cx 0 1]) = Raise KeyError.
Proof. split; vm_compute; reflexivity. Qed.

(** Witness of [baseline_is_product_without_last_link] (C3). *)
Lemma baseline_is_product_without_last_link_witness :
  has_edge (qubitAccuracy (line3 (1#2) (1#2))) 0 2 = false
  ∧ result_Qeq (baseline_accuracy (line3 (1#2) (1#2)) 0 2)
      (path ← shortest_undirected_path (couplingMap (line3 (1#2) (1#2))) 0 2;
       cube_product (qubitAccuracy (line3 (1#2) (1#2))) (all_but_last (links path))).
Proof.
  split; [vm_compute; reflexivity|].
  apply (baseline_is_product_without_last_link (line3 (1#2) (1#2)) 0 2).
  vm_compute; reflexivity.
Defined.

(** Counterexample to C3 as stated: on the line [0 - 1 - 2] with both
    weights [1/2] the baseline of the pair [(0, 2)] is [1/8], the cube of
    the weight of the first link, and not the product [1/64] over both
    links of the shortest path. *)
Lemma baseline_over_every_link_counterexample :
  has_edge (qubitAccuracy (line3 (1#2) (1#2))) 0 2 = false
  ∧ shortest_undirected_path (couplingMap (line3 (1#2) (1#2))) 0 2 = Ok [0; 1; 2]
  ∧ result_Qeq (baseline_accuracy (line3 (1#2) (1#2)) 0 2) (Ok (1#8)%Q)
  ∧ result_Qeq (cube_product (qubitAccuracy (line3 (1#2) (1#2))) (links [0; 1; 2]))
               (Ok (1#64)%Q)
  ∧ ¬ result_Qeq (baseline_accuracy (line3 (1#2) (1#2)) 0 2)
        (path ← shortest_undirected_path (couplingMap (line3 (1#2) (1#2))) 0 2;
         cube_product (qubitAccuracy (line3 (1#2) (1#2))) (links path)).
Proof.
  repeat split; try (vm_compute; reflexivity).
  intros Hq. vm_compute in Hq. discriminate.
Qed.

(** Witness of [adjacent_operations_pass_through] (C5): an operation on
    the adjacent qubits 0 and 1 of a line, and a program on the complete
    graph on three qubits with the weight [1/2] on every link. *)
Lemma adjacent_operations_pass_through_witness :
  (∃ st', route_layer (line3 1 1) (initial_store (program 3 [cx 0 1])) (cx 0 1) = Ok st'
          ∧ current_layout st' = generate_trivial_layout 3
          ∧ ∃ gate', nodes (new_dag st') = [] ++ [gate']
                     ∧ readdressed (generate_trivial_layout 3) (cx 0 1) gate')
  ∧ (∃ out, run uniform_triangle (program 3 [cx 0 1; hgate 2; cx 2 1; cx 0 2]) = Ok out
            ∧ nodes out = [cx 0 1; hgate 2; cx 2 1; cx 0 2]).
Proof.
  split.
  - eexists. split; [vm_compute; reflexivity|].
    apply (proj1 adjacent_operations_pass_through (line3 1 1)
             (initial_store (program 3 [cx 0 1])) _ (cx 0 1) 0 1);
      vm_compute; reflexivity.
  - eexists. split; [vm_compute; reflexivity|].
    apply (proj2 adjacent_operations_pass_through uniform_triangle
             (program 3 [cx 0 1; hgate 2; cx 2 1; cx 0 2]));
      vm_compute; reflexivity.
Defined.

(** Counterexample to C5 as stated: [triangle] is a complete graph, the
    operation is on the adjacent qubits 0 and 1, and the router inserts a
    swap on [(1, 2)] and applies the operation on [(0, 2)]. *)
Lemma complete_graph_swap_counterexample :
  Forall (fun pq : nat * nat => is_link (couplingMap triangle) pq.1 pq.2 = true)
         [(0, 1); (0, 2); (1, 2)]
  ∧ distance (couplingMap triangle) 0 1 = Ok 1
  ∧ find_better_link triangle 0 1 (generate_trivial_layout 3) 2 = Ok (Some (0, 2))
  ∧ observe (run_store triangle (program 3 [cx 0 1]))
    = Ok ([("swap", [1; 2]); ("cx", [0; 2])], [Some 0; Some 2; Some 1]).
Proof.
  repeat split; try (vm_compute; reflexivity).
  repeat constructor.
Qed.

(** C2 on a failing input.  Device [kite], operation on the physical
    qubits 1 and 3.  Computed with [(1, 3)] as the source pair, the path
    accuracies of the four candidates are [1/32], [1/512], [0] and [1/16],
    the baseline is [1/64], and the candidate with the highest path
    accuracy is the link [(1, 2)].  In whatever order the candidate set
    is enumerated, [find_better_link] returns [(0, 1)] or [(0, 2)]: once a
    candidate has been accepted, the following ones are evaluated with
    that candidate as the source pair. *)
Theorem find_better_link_misses_best_candidate :
  for_each (fun e => Qval (calc_path_accuracy kite (1, 3) e empty_layout))
           [(0, 1); (0, 2); (0, 3); (1, 2)]
  = Ok [(1#32)%Q; (1#512)%Q; 0%Q; (1#16)%Q]
  ∧ Qval (baseline_accuracy kite 1 3) = Ok (1#64)%Q
  ∧ Forall (fun order =>
              spec_find_better_link_over order kite 1 3 empty_layout 2
              = Ok (Some (1, 2))
              ∧ (find_better_link_over order kite 1 3 empty_layout 2
                 = Ok (Some (0, 1))
                 ∨ find_better_link_over order kite 1 3 empty_layout 2
                   = Ok (Some (0, 2))))
           (permutations [(0, 1); (0, 2); (0, 3); (1, 2)]).
Proof.
  split; [vm_compute; reflexivity|].
  split; [vm_compute; reflexivity|].
  remember (permutations [(0, 1); (0, 2); (0, 3); (1, 2)]) as orders eqn:E.
  vm_compute in E. subst orders.
  repeat (constructor;
          [split; [vm_compute; reflexivity
                  | (left; vm_compute; reflexivity)
                    || (right; vm_compute; reflexivity)] |]).
  constructor.
Qed.

(** C1 on a failing input.  Device [ring5], one operation on the logical
    qubits 0 and 2, which sit on the physical qubits 0 and 2, two links
    apart.  The candidate [(0, 1)] is accepted first; the candidate
    [(2, 4)], evaluated with [(0, 1)] as the source pair, replaces it;
    for the pair [(0, 2)] and the link [(2, 4)] the assignment gives no
    path at all, so that no swap is inserted and the operation is
    emitted on the physical qubits 0 and 2, which are not linked. *)
Theorem operation_emitted_off_link :
  unique_edges (couplingMap ring5) = [(0, 1); (2, 4); (1, 2); (3, 4); (0, 3)]
  ∧ find_better_link ring5 0 2 (generate_trivial_layout 5) 2 = Ok (Some (2, 4))
  ∧ find_shortest_path ring5 (0, 2) (2, 4) = Ok (None, None)
  ∧ observe (run_store ring5 (program 5 [cx 0 2]))
    = Ok ([("cx", [0; 2])], [Some 0; Some 1; Some 2; Some 3; Some 4])
  ∧ is_link (couplingMap ring5) 0 2 = false
  ∧ distance (couplingMap ring5) 0 2 = Ok 2.
Proof. repeat split; vm_compute; reflexivity. Qed.

(** The role of the enumeration order on this input: of the 120 orders in
    which the five candidates can be enumerated, the operation is emitted
    off a link in exactly those where [(0, 1)] comes before [(2, 4)] and
    [(2, 4)] before [(0, 3)] and [(3, 4)]; in the others it is moved to
    the link [(0, 3)] or [(3, 4)]. *)
Fact off_link_orders :
  forallb
    (fun order =>
       Bool.eqb
         (emits_only
            (emitted (@run (libraries_enumerating order) ring5 (program 5 [cx 0 2])))
            "cx" 0 2)
         (before (0, 1) (2, 4) order && before (2, 4) (0, 3) order
          && before (2, 4) (3, 4) order))
    (permutations [(0, 1); (2, 4); (1, 2); (3, 4); (0, 3)])
  = true.
Proof. vm_compute. reflexivity. Qed.

(** ** The starting layout *)

Section InitialLayout.
Context `{Libraries}.
Variables h h' : HERR.
Hypothesis Hsame : same_device h h'.

Lemma same_find_path_excluding (s d x : nat) :
  find_path_excluding h s d x = find_path_excluding h' s d x.
Proof. unfold find_path_excluding. by destruct Hsame as (-> & _). Qed.

Lemma same_find_shortest_path (src dst : nat * nat) :
  find_shortest_path h src dst = find_shortest_path h' src dst.
Proof.
  unfold find_shortest_path. destruct src, dst.
  by rewrite !same_find_path_excluding.
Qed.

Lemma same_calc_path_accuracy (src dst : nat * nat) (l : Layout) :
  calc_path_accuracy h src dst l = calc_path_accuracy h' src dst l.
Proof.
  unfold calc_path_accuracy. rewrite same_find_shortest_path.
  by destruct Hsame as (_ & -> & _).
Qed.

Lemma same_baseline_accuracy (q1 q2 : nat) :
  baseline_accuracy h q1 q2 = baseline_accuracy h' q1 q2.
Proof.
  unfold baseline_accuracy, calc_shortest_path_accuracy.
  by destruct Hsame as (-> & -> & _).
Qed.

Lemma same_find_better_link_loop (q1 q2 : nat) (l : Layout) (depth : nat)
    (es : list (nat * nat)) (st : (nat * nat) * Q * bool) :
  find_better_link_loop h q1 q2 l depth es st
  = find_better_link_loop h' q1 q2 l depth es st.
Proof.
  revert st; induction es as [|e r IH]; intros [[b a] f]; simpl; [reflexivity|].
  destruct Hsame as (<- & _).
  destruct (within_depth (couplingMap h) q1 q2 e depth) as [[|]|]; simpl;
    try reflexivity; [|apply IH].
  rewrite same_calc_path_accuracy.
  destruct (calc_path_accuracy h' b e l) as [x|]; simpl; [|reflexivity].
  destruct (Qgtb x a); apply IH.
Qed.

Lemma same_find_better_link (q1 q2 : nat) (l : Layout) (depth : nat) :
  find_better_link h q1 q2 l depth = find_better_link h' q1 q2 l depth.
Proof.
  unfold find_better_link, find_better_link_over.
  rewrite same_baseline_accuracy.
  destruct Hsame as (<- & _).
  destruct (baseline_accuracy h' q1 q2); simpl; [|reflexivity].
  by rewrite same_find_better_link_loop.
Qed.

Lemma same_route_gate (st : Store) (gate : DAGOpNode) :
  route_gate h st gate = route_gate h' st gate.
Proof.
  unfold route_gate.
  destruct (physical_of _ (nth 0 _ 0)) as [p0|]; [|reflexivity].
  destruct (physical_of _ (nth 1 _ 0)) as [p1|]; [|reflexivity].
  cbn [mbind result_bind rbind].
  rewrite same_find_better_link.
  destruct Hsame as (<- & _ & <-).
  destruct (find_better_link h' p0 p1 _ _) as [[e|]|]; try reflexivity.
  cbn [mbind result_bind rbind]. by rewrite same_find_shortest_path.
Qed.

Lemma same_route_layers (layers : list DAGOpNode) (st : Store) :
  route_layers h st layers = route_layers h' st layers.
Proof.
  revert st; induction layers as [|g r IH]; intros st; simpl; [reflexivity|].
  unfold route_layer. rewrite same_route_gate.
  destruct (if is_two_qubit_op g then _ else _) as [st1|]; simpl; [|reflexivity].
  destruct (reorder_bits _ _); simpl; [|reflexivity].
  destruct (compose _ _ _); simpl; [|reflexivity]. apply IH.
Qed.

(** [run] never reads the field [initial_layout]: two pass objects that
    agree on the other fields return the same result. *)
Lemma run_ignores_initial_layout (d : DAGCircuit) : run h d = run h' d.
Proof.
  unfold run, run_store. rewrite same_route_layers.
  by destruct Hsame as (<- & _).
Qed.

End InitialLayout.

(** C6 on a failing input.  Line [0 - 1 - 2] with weights [1/2], starting
    layout [q0 -> 0, q1 -> 2, q2 -> 1], one operation on [q0] and [q1].
    Routing from the starting layout has to bring the two qubits
    together with a swap; [run] routes from the trivial layout and emits
    the operation on the physical qubits 0 and 1 without any swap. *)
Theorem starting_layout_is_ignored :
  let h := device [((0,1), (1#2)%Q); ((1,2), (1#2)%Q)] (Some crossed_layout) None in
  initial_layout h = Some crossed_layout
  ∧ map (fun v => v2p crossed_layout !! v) [0; 1; 2] = [Some 0; Some 2; Some 1]
  ∧ emitted (run h (program 3 [cx 0 1])) = Ok [("cx", [0; 1])]
  ∧ emitted (spec_run h (program 3 [cx 0 1]))
    = Ok [("swap", [0; 1]); ("cx", [1; 2])]
  ∧ run h (program 3 [cx 0 1]) = run (line3 (1#2) (1#2)) (program 3 [cx 0 1]).
Proof. repeat split; vm_compute; reflexivity. Qed.

(** * The pass in detail and the code around it *)

(** ** The reference libraries keep the contract *)

Lemma edge_eqb_eq (e f : nat * nat) : edge_eqb e f = true ↔ e = f.
Proof.
  destruct e as [a b], f as [c d]. unfold edge_eqb. simpl.
  rewrite andb_true_iff, !Nat.eqb_eq. split; [intros [-> ->]; done | intros [= -> ->]; done].
Qed.

Lemma first_insertion_order_In (inserted acc : list (nat * nat)) (e : nat * nat) :
  In e (foldl (fun s e => if existsb (edge_eqb e) s then s else s ++ [e]) acc inserted)
  ↔ In e acc ∨ In e inserted.
Proof.
  revert acc; induction inserted as [|x r IH]; intros acc; simpl.
  - tauto.
  - rewrite IH. destruct (existsb (edge_eqb x) acc) eqn:Ex.
    + apply existsb_exists in Ex as (y & Hy & Hxy). apply edge_eqb_eq in Hxy. subst y.
      split; [tauto|]. intros [?|[<-|?]]; tauto.
    + rewrite in_app_iff. simpl. tauto.
Qed.

Lemma expand_shape (es : list (nat * nat)) (frontier : list (list nat))
    (visited : list nat) (q : list nat) :
  In q (expand es visited frontier).2 → ∃ v p, q = v :: p ∧ In p frontier.
Proof.
  revert visited; induction frontier as [|p rest IH]; intros visited; simpl.
  - intros [].
  - destruct (expand es _ rest) as [vis nxt] eqn:E. simpl.
    rewrite in_app_iff, in_map_iff. intros [(v & <- & _)|Hq].
    + exists v, p. split; [done | by left].
    + specialize (IH (filter (λ v : nat, negb (memb v visited))
                        (dedup (neighbors es (hd 0 p))) ++ visited)).
      rewrite E in IH. destruct (IH Hq) as (v & p' & -> & Hp').
      exists v, p'. split; [done | by right].
Qed.

Lemma bfs_end_once (fuel : nat) (es : list (nat * nat)) (dst : nat)
    (visited : list nat) (frontier : list (list nat)) (path : list nat) :
  Forall (fun p => p ≠ [] ∧ ¬ In dst (tl p)) frontier →
  bfs fuel es dst visited frontier = Some path →
  ¬ In dst (removelast path).
Proof.
  revert visited frontier; induction fuel as [|fuel IH]; intros visited frontier Hf Hb;
    simpl in Hb; [done|].
  destruct (find _ frontier) as [p|] eqn:Efind.
  - injection Hb as <-. apply find_some in Efind as [Hin _].
    apply list_elem_of_In in Hin.
    pose proof (proj1 (Forall_forall _ _) Hf p Hin) as (Hne & Hd).
    destruct p as [|u p']; [done|]. simpl in *.
    rewrite removelast_last. by rewrite <- in_rev.
  - destruct frontier as [|p0 rest]; [done|].
    destruct (expand es visited (p0 :: rest)) as [vis nxt] eqn:E.
    eapply IH; [|exact Hb].
    apply Forall_forall. intros q Hq. apply list_elem_of_In in Hq.
    assert (Hq' : In q (expand es visited (p0 :: rest)).2) by (by rewrite E).
    apply expand_shape in Hq' as (v & p & -> & Hp).
    split; [done|]. simpl.
    pose proof (find_none _ _ Efind p Hp) as Hhd. apply Nat.eqb_neq in Hhd.
    apply list_elem_of_In in Hp.
    pose proof (proj1 (Forall_forall _ _) Hf p Hp) as (Hne & Hd).
    destruct p as [|u p']; [done|]. simpl in *. intros [->|Hin]; done.
Qed.

Lemma bfs_path_end_once (es : list (nat * nat)) (src dst : nat) (path : list nat) :
  bfs_path es src dst = Some path → ¬ In dst (removelast path).
Proof.
  apply bfs_end_once. constructor; [|constructor]. split; [done|]. simpl. tauto.
Qed.

Lemma cpython_small_ints_shared : @small_ints_shared reference_libraries.
Proof.
  split; simpl; unfold cpython_is.
  - intros a b Hab. apply andb_true_iff in Hab as [Hab _]. by apply Nat.eqb_eq.
  - intros a Ha. rewrite Nat.eqb_refl. simpl. by apply Nat.leb_le.
Qed.

Lemma reference_libraries_sound : @sound_libraries reference_libraries.
Proof.
  split; simpl.
  - intros es s t p Hp. by apply bfs_path_walk.
  - intros es s t p Hp. split; [by apply bfs_path_walk | by eapply bfs_path_end_once].
  - intros es s t Hd. destruct (bfs_path es s t) as [p|] eqn:Hp; [|done].
    simpl in Hd. injection Hd as Hlen.
    destruct (bfs_path_walk _ _ _ _ Hp) as (Hw & Hs & Ht).
    destruct p as [|a [|b [|c r]]]; simpl in *; try lia.
    injection Hs as ->. injection Ht as ->. tauto.
  - intros inserted e. unfold first_insertion_order.
    rewrite first_insertion_order_In. simpl. tauto.
Qed.

(** ** Paths that avoid a qubit *)

Lemma walk_weaken (es es' : list (nat * nat)) (p : list nat) :
  (∀ u v, linked es u v → linked es' u v) → walk es p → walk es' p.
Proof.
  intros Hsub. induction p as [|a [|b r] IH]; simpl; try done.
  intros [Hl Hw]. split; [by apply Hsub | by apply IH].
Qed.

Lemma linked_sym (es : list (nat * nat)) (u v : nat) : linked es u v → linked es v u.
Proof. unfold linked. tauto. Qed.

Lemma walk_node_linked (es : list (nat * nat)) (p : list nat) (a : nat) :
  walk es p → 2 ≤ length p → In a p → ∃ b, linked es a b.
Proof.
  induction p as [|x [|y r] IH]; simpl; try lia.
  intros [Hl Hw] _ [<-|Hin].
  - by exists y.
  - destruct r as [|z r'].
    + destruct Hin as [<-|[]]. exists x. by apply linked_sym.
    + apply IH; [done | simpl; lia | done].
Qed.

Lemma walk_links (es : list (nat * nat)) (p : list nat) :
  walk es p → Forall (fun w : nat * nat => linked es w.1 w.2) (links p).
Proof.
  induction p as [|a [|b r] IH]; simpl; try constructor.
  - by destruct H.
  - apply IH. by destruct H.
Qed.

Lemma reduced_linked (es : list (nat * nat)) (x u v : nat) :
  linked (filter (fun e : nat * nat => negb ((e.1 =? x) || (e.2 =? x))) es) u v →
  linked es u v ∧ u ≠ x ∧ v ≠ x.
Proof.
  assert (Hin : ∀ a b,
    In (a, b) (filter (fun e : nat * nat => negb ((e.1 =? x) || (e.2 =? x))) es) →
    In (a, b) es ∧ a ≠ x ∧ b ≠ x).
  { intros a b Hab. apply list_elem_of_In, list_elem_of_filter in Hab as [Hp Hab].
    apply list_elem_of_In in Hab. simpl in Hp.
    apply Is_true_true, negb_true_iff, orb_false_iff in Hp as [Ha Hb].
    apply Nat.eqb_neq in Ha, Hb. done. }
  intros [H|H]; apply Hin in H as (? & ? & ?); unfold linked; tauto.
Qed.

Section PathsExcluding.
Context `{Libraries}.

(** No path leads to the excluded qubit. *)
Lemma find_path_excluding_to_excluded (h : HERR) (s x : nat) :
  find_path_excluding h s x x = None.
Proof.
  unfold find_path_excluding. destruct (s =? x); [done|].
  match goal with |- (if ?a && ?b then _ else _) = _ => assert (Hb : b = false) end.
  { apply not_true_is_false. intros Hg. unfold in_graph in Hg.
    apply existsb_exists in Hg as ([a b] & Hin & Hab).
    apply list_elem_of_In, list_elem_of_filter in Hin as [Hp _]. simpl in *.
    apply Is_true_true, negb_true_iff in Hp. congruence. }
  rewrite Hb. by rewrite andb_false_r.
Qed.

(** What the search itself gives: a path of the graph without the
    excluded qubit. *)
Lemma find_path_excluding_reduced (h : HERR) (s d x : nat) (p : list nat) :
  sound_libraries →
  find_path_excluding h s d x = Some p →
  s ≠ d
  ∧ path_from_to
      (filter (fun e : nat * nat => negb ((e.1 =? x) || (e.2 =? x)))
              (get_edges (couplingMap h))) s d p.
Proof.
  intros Hs Hf. unfold find_path_excluding in Hf.
  destruct (s =? d) eqn:Esd; [done|]. apply Nat.eqb_neq in Esd.
  destruct (in_graph _ s && in_graph _ d); [|done].
  split; [done | by apply (nx_path Hs)].
Qed.

Lemma path_from_to_length (es : list (nat * nat)) (s d : nat) (p : list nat) :
  path_from_to es s d p → s ≠ d → 2 ≤ length p.
Proof.
  intros (_ & Hhd & Hlast) Hne.
  destruct p as [|a [|b r]]; simpl in *; [done | congruence | lia].
Qed.

Lemma reduced_walk_avoids (es : list (nat * nat)) (x : nat) (p : list nat) :
  walk (filter (fun e : nat * nat => negb ((e.1 =? x) || (e.2 =? x))) es) p →
  2 ≤ length p → ¬ In x p.
Proof.
  intros Hw Hlen Hin. destruct (walk_node_linked _ _ _ Hw Hlen Hin) as [b Hb].
  apply reduced_linked in Hb as (_ & Hxx & _). done.
Qed.

Lemma reduced_walk_weaken (es : list (nat * nat)) (x : nat) (p : list nat) :
  walk (filter (fun e : nat * nat => negb ((e.1 =? x) || (e.2 =? x))) es) p →
  walk es p.
Proof.
  apply walk_weaken. intros u v Hl. by apply reduced_linked in Hl as [? _].
Qed.

(** X1.  A path returned by [find_path_excluding] is a path of the coupling
    map from the source to the destination that does not visit the
    excluded qubit; in particular the search returns [None] when the
    source is the destination and when the excluded qubit is one of the
    two. *)
Theorem find_path_excluding_avoids (h : HERR) (s d x : nat) (p : list nat) :
  sound_libraries →
  find_path_excluding h s d x = Some p →
  path_from_to (get_edges (couplingMap h)) s d p
  ∧ ¬ In x p ∧ s ≠ d ∧ s ≠ x ∧ d ≠ x.
Proof.
  intros Hs Hf.
  destruct (find_path_excluding_reduced _ _ _ _ _ Hs Hf) as (Hne & Hw & Hhd & Hlast).
  pose proof (path_from_to_length _ _ _ _ (conj Hw (conj Hhd Hlast)) Hne) as Hlen.
  pose proof (reduced_walk_avoids _ _ _ Hw Hlen) as Hx.
  assert (Hsp : In s p) by (destruct p; [done|]; injection Hhd as ->; by left).
  assert (Hdp : In d p).
  { apply last_Some in Hlast as [l' ->]. apply in_app_iff. right. by left. }
  split; [|split; [done|split; [done|split]]].
  - split; [by eapply reduced_walk_weaken | done].
  - intros ->. done.
  - intros ->. done.
Qed.

End PathsExcluding.

(** ** The assignment of paths to the two source qubits *)

Section Assignment.
Context `{Libraries}.

(** X2.  When the second source qubit lies on the candidate link and its
    index is at most 256 (where the test [is not] of line 235 is a test of
    the values), the assignment yields no path for either source qubit,
    whether or not the first one lies on the candidate, and the candidate
    is scored 0. *)
Theorem second_source_on_candidate (h : HERR) (s0 s1 : nat) (destQubit : nat * nat)
    (l : Layout) :
  small_ints_shared →
  s1 ≤ 256 →
  in_pair s1 destQubit = true →
  find_shortest_path h (s0, s1) destQubit = Ok (None, None)
  ∧ calc_path_accuracy h (s0, s1) destQubit l = Ok 0%Q.
Proof.
  intros Hs Hsmall Hin.
  assert (Hf : find_shortest_path h (s0, s1) destQubit = Ok (None, None)).
  { destruct destQubit as [d0 d1]. unfold find_shortest_path.
    rewrite Hin. rewrite andb_false_r.
    destruct (in_pair s0 (d0, d1)); simpl; [reflexivity|].
    unfold in_pair in Hin. simpl in Hin.
    destruct (int_is s1 d0) eqn:Eis; simpl.
    - apply (is_equal Hs) in Eis. subst d0. by rewrite Nat.eqb_refl.
    - destruct (s1 =? d0) eqn:E0; simpl in Hin.
      + apply Nat.eqb_eq in E0. subst d0.
        rewrite (is_small Hs s1 Hsmall) in Eis. discriminate.
      + apply Nat.eqb_eq in Hin. subst d1. by rewrite Nat.eqb_refl. }
  split; [exact Hf|]. unfold calc_path_accuracy. by rewrite Hf.
Qed.

(** X3.  When the first source qubit lies on the candidate link, with an
    index of at most 256 (where the test [is not] of line 242 is a test of
    the values), and the second does not, the first stays where it is and
    the second is given the path to the other end of the candidate that
    avoids the first. *)
Theorem first_source_on_candidate (h : HERR) (s0 s1 d0 d1 : nat) :
  small_ints_shared →
  s0 ≤ 256 →
  in_pair s0 (d0, d1) = true →
  in_pair s1 (d0, d1) = false →
  find_shortest_path h (s0, s1) (d0, d1)
  = Ok (None, find_path_excluding h s1 (if s0 =? d0 then d1 else d0) s0).
Proof.
  intros Hs Hsmall H0 H1. unfold find_shortest_path. rewrite H0, H1. simpl.
  rewrite (Nat.eqb_sym d0 s0).
  destruct (s0 =? d0) eqn:E0; simpl.
  - apply Nat.eqb_eq in E0. subst d0. rewrite (is_small Hs s0 Hsmall). simpl.
    destruct (d1 =? s0) eqn:E1; simpl; [|reflexivity].
    apply Nat.eqb_eq in E1. subst d1. by rewrite find_path_excluding_to_excluded.
  - destruct (int_is s0 d0) eqn:Eis; simpl; [|reflexivity].
    apply (is_equal Hs) in Eis. apply Nat.eqb_neq in E0. done.
Qed.

(** X4.  When neither source qubit lies on the candidate link, the four
    searches are made and [find_shortest_path] raises [TypeError] exactly
    when one of them finds no path; otherwise each source qubit is given
    its path to the second end of the candidate when that path is strictly
    shorter than its path to the first end and than the path of the other
    source qubit to the second end, and its path to the first end in every
    other case. *)
Theorem both_sources_off_candidate (h : HERR) (s0 s1 d0 d1 : nat) :
  in_pair s0 (d0, d1) = false →
  in_pair s1 (d0, d1) = false →
  find_shortest_path h (s0, s1) (d0, d1)
  = match find_path_excluding h s0 d0 s1, find_path_excluding h s0 d1 s1,
          find_path_excluding h s1 d0 s0, find_path_excluding h s1 d1 s0 with
    | Some q00, Some q01, Some q10, Some q11 =>
        Ok (Some (if (length q01 <? length q00) && (length q01 <? length q11)
                  then q01 else q00),
            Some (if (length q11 <? length q10) && (length q11 <? length q01)
                  then q11 else q10))
    | _, _, _, _ => Raise TypeError
    end.
Proof.
  intros H0 H1. unfold find_shortest_path. rewrite H0, H1. simpl.
  unfold in_pair in H0, H1. simpl in H0, H1.
  apply orb_false_iff in H0 as [H00 H01]. apply orb_false_iff in H1 as [H10 H11].
  rewrite (Nat.eqb_sym d0 s1), (Nat.eqb_sym d1 s1), (Nat.eqb_sym d0 s0),
    (Nat.eqb_sym d1 s0), H00, H01, H10, H11. simpl.
  destruct (find_path_excluding h s0 d0 s1) as [q00|]; simpl; [|reflexivity].
  destruct (find_path_excluding h s1 d0 s0) as [q10|]; simpl;
    [|by destruct (find_path_excluding h s0 d1 s1)].
  destruct (find_path_excluding h s0 d1 s1) as [q01|]; simpl; [|reflexivity].
  destruct (find_path_excluding h s1 d1 s0) as [q11|]; simpl.
  - destruct (length q01 <? length q00), (length q11 <? length q10),
      (length q01 <? length q11), (length q11 <? length q01); reflexivity.
  - by destruct (length q01 <? length q00).
Qed.

End Assignment.

(** ** Accuracies are probabilities *)

Section AccuracyBounds.
Context `{Libraries}.

Lemma calc_path_accuracy_unit (h : HERR) (src dst : nat * nat) (l : Layout) (a : Q) :
  unit_weights (qubitAccuracy h) = true →
  calc_path_accuracy h src dst l = Ok a →
  (0 <= a)%Q
  ∧ ((a == 0)%Q
     ∨ ∃ w, qubitAccuracy h !! edge_key dst.1 dst.2 = Some w ∧ (a <= w)%Q ∧ (w <= 1)%Q).
Proof.
  intros Hu Hc. unfold calc_path_accuracy in Hc.
  inv_bind Hc as qp Hqp.
  assert (Hgen :
    (a0 ← accumulate (qubitAccuracy h) 1%Q (path_hops qp.1);
     a1 ← accumulate (qubitAccuracy h) 1%Q (path_hops qp.2);
     opAccuracy ← edge_weight (qubitAccuracy h) dst.1 dst.2;
     Ok (opAccuracy * a0 * a1)%Q) = Ok a →
    (0 <= a)%Q
    ∧ ∃ w, qubitAccuracy h !! edge_key dst.1 dst.2 = Some w ∧ (a <= w)%Q ∧ (w <= 1)%Q).
  { clear Hc. intros Hc.
    inv_bind Hc as a0 Ha0. inv_bind Hc as a1 Ha1. inv_bind Hc as w Hw.
    injection Hc as <-. apply of_option_Ok in Hw.
    assert (Hone : (0 <= 1)%Q) by (vm_compute; discriminate).
    destruct (accumulate_bounds _ _ 1%Q _ Hu Hone Ha0) as [H00 H01].
    destruct (accumulate_bounds _ _ 1%Q _ Hu Hone Ha1) as [H10 H11].
    destruct (unit_weights_lookup _ _ _ Hu Hw) as [Hw0 Hw1].
    assert (Hwa0 : (0 <= w * a0)%Q) by (by apply Qmult_le_0_compat).
    split; [by apply Qmult_le_0_compat|].
    exists w. split; [done|]. split; [|done].
    assert (Hm1 := Qmult_le_compat_nonneg w w a0 1
                     (conj Hw0 (Qle_refl w)) (conj H00 H01)).
    rewrite Qmult_1_r in Hm1.
    assert (Hm2 := Qmult_le_compat_nonneg (w * a0) w a1 1
                     (conj Hwa0 Hm1) (conj H10 H11)).
    by rewrite Qmult_1_r in Hm2. }
  destruct qp as [[p0|] [p1|]]; simpl in *;
    try (destruct (Hgen Hc) as [? ?]; split; [done | by right]).
  injection Hc as <-. split; [apply Qle_refl | by left].
Qed.

(** X5.  On a device whose weights all lie in [[0, 1]], the two quantities
    that [find_better_link] compares are probabilities: a path accuracy
    lies between 0 and the weight of the candidate link, and the baseline
    between 0 and 1. *)
Theorem accuracies_are_probabilities (h : HERR) :
  unit_weights (qubitAccuracy h) = true →
  (∀ src dst l a,
     calc_path_accuracy h src dst l = Ok a →
     (0 <= a)%Q ∧ (a <= 1)%Q
     ∧ ∀ w, qubitAccuracy h !! edge_key dst.1 dst.2 = Some w → (a <= w)%Q)
  ∧ (∀ qubit1 qubit2 b,
       baseline_accuracy h qubit1 qubit2 = Ok b → (0 <= b)%Q ∧ (b <= 1)%Q).
Proof.
  intros Hu. split.
  - intros src dst l a Hc.
    destruct (calc_path_accuracy_unit _ _ _ _ _ Hu Hc) as [H0 [Hz|(w & Hw & Haw & Hw1)]].
    + split; [done|]. split.
      * rewrite Hz. vm_compute; discriminate.
      * intros w Hw. rewrite Hz. exact (proj1 (unit_weights_lookup _ _ _ Hu Hw)).
    + split; [done|]. split; [eapply Qle_trans; eauto|].
      intros w' Hw'. congruence.
  - intros q1 q2 b Hb. unfold baseline_accuracy in Hb.
    destruct (has_edge (qubitAccuracy h) q1 q2).
    + apply of_option_Ok in Hb. exact (unit_weights_lookup _ _ _ Hu Hb).
    + unfold calc_shortest_path_accuracy in Hb. inv_bind Hb as path Hpath.
      apply accumulate_bounds in Hb; [done..|]. vm_compute; discriminate.
Qed.

End AccuracyBounds.

(** ** What [find_better_link] returns *)

Lemma Qgtb_lt (a b : Q) : Qgtb a b = true ↔ (b < a)%Q.
Proof.
  unfold Qgtb. rewrite negb_true_iff. split.
  - intros Hle. apply Qnot_le_lt. intros Hab. apply Qle_bool_iff in Hab. congruence.
  - intros Hlt. apply not_true_is_false. intros Hle. apply Qle_bool_iff in Hle.
    by apply Qlt_not_le in Hlt.
Qed.

Section BetterLink.
Context `{Libraries}.

Lemma find_better_link_loop_result (h : HERR) (q1 q2 : nat) (l : Layout) (depth : nat)
    (order : list (nat * nat)) (e : nat * nat) (a : Q) (f : bool)
    (e' : nat * nat) (a' : Q) (f' : bool) :
  find_better_link_loop h q1 q2 l depth order (e, a, f) = Ok (e', a', f') →
  (e', a', f') = (e, a, f)
  ∨ (f' = true ∧ In e' order
     ∧ within_depth (couplingMap h) q1 q2 e' depth = Ok true
     ∧ (a < a')%Q
     ∧ ∃ src, calc_path_accuracy h src e' l = Ok a').
Proof.
  revert e a f; induction order as [|c rest IH]; intros e a f Hl; simpl in Hl.
  - left. congruence.
  - inv_bind Hl as near Hnear. destruct near.
    + inv_bind Hl as x Hx. destruct (Qgtb x a) eqn:Hgt.
      * apply Qgtb_lt in Hgt. right.
        destruct (IH _ _ _ Hl) as [[= -> -> ->]|(-> & Hin & Hw & Hlt & src & Hsrc)].
        -- repeat split; try done; [by left | by exists e].
        -- repeat split; try done; [by right | by eapply Qlt_trans | by exists src].
      * destruct (IH _ _ _ Hl) as [?|(-> & Hin & Hw & Hlt & src & Hsrc)]; [by left|].
        right. repeat split; try done; [by right | by exists src].
    + destruct (IH _ _ _ Hl) as [?|(-> & Hin & Hw & Hlt & src & Hsrc)]; [by left|].
      right. repeat split; try done; [by right | by exists src].
Qed.

Lemma sorted_edge_linked (es : list (nat * nat)) (e : nat * nat) :
  In e (map sorted_edge es) → linked es e.1 e.2 ∧ e.1 ≤ e.2.
Proof.
  rewrite in_map_iff. intros ([a b] & <- & Hin). unfold sorted_edge. simpl.
  destruct (b <? a) eqn:E; simpl.
  - apply Nat.ltb_lt in E. split; [by right | lia].
  - apply Nat.ltb_ge in E. split; [by left | lia].
Qed.

(** X6.  A link returned by [find_better_link] is a link of the coupling
    map, given with its smaller qubit first, both ends of which are within
    the search depth of both qubits of the operation, and it was given a
    path accuracy strictly above the baseline of the operation. *)
Theorem better_link_is_near_link (h : HERR) (qubit1 qubit2 : nat) (l : Layout)
    (depth : nat) (edge : nat * nat) :
  sound_libraries →
  find_better_link h qubit1 qubit2 l depth = Ok (Some edge) →
  linked (get_edges (couplingMap h)) edge.1 edge.2
  ∧ edge.1 ≤ edge.2
  ∧ within_depth (couplingMap h) qubit1 qubit2 edge depth = Ok true
  ∧ ∃ b a src,
      baseline_accuracy h qubit1 qubit2 = Ok b
      ∧ calc_path_accuracy h src edge l = Ok a
      ∧ (b < a)%Q.
Proof.
  intros Hs Hf. unfold find_better_link, find_better_link_over in Hf.
  inv_bind Hf as b Hb. inv_bind Hf as st Hst. destruct st as [[e' a'] f'].
  destruct f'; [|done]. injection Hf as ->.
  apply find_better_link_loop_result in Hst
    as [[=]|(_ & Hin & Hw & Hlt & src & Hsrc)].
  unfold unique_edges in Hin. apply (proj1 (set_members Hs _ _)) in Hin.
  apply sorted_edge_linked in Hin as [Hl Hle].
  repeat split; try done. by exists b, a', src.
Qed.

End BetterLink.

(** ** The trace of a run *)

Lemma links_take (k : nat) (path : list nat) :
  links (take (S k) path) = take k (links path).
Proof.
  revert k; induction path as [|a [|b r] IH]; intros k.
  - by destruct k.
  - by destruct k.
  - destruct k as [|k]; [reflexivity|].
    change (take (S (S k)) (a :: b :: r)) with (a :: b :: take k r).
    change (links (a :: b :: take k r)) with ((a, b) :: links (take (S k) (b :: r))).
    rewrite IH. reflexivity.
Qed.

Lemma links_removelast (path : list nat) :
  links (removelast path) = all_but_last (links path).
Proof.
  unfold all_but_last. rewrite links_length, removelast_firstn_len.
  destruct path as [|a r]; [reflexivity|].
  change (Init.Nat.pred (length (a :: r))) with (length r).
  destruct r as [|b r]; [reflexivity|].
  change (length (b :: r)) with (S (length r)). rewrite links_take.
  f_equal. simpl. lia.
Qed.

Lemma Forall_all_but_last {A : Type} (P : A → Prop) (l : list A) :
  Forall P l → Forall P (all_but_last l).
Proof. unfold all_but_last. apply Forall_take. Qed.

Section Traces.
Context `{Libraries}.

Lemma find_shortest_path_choice (h : HERR) (s0 s1 : nat) (d : nat * nat)
    (qp : option (list nat) * option (list nat)) :
  find_shortest_path h (s0, s1) d = Ok qp →
  (qp.1 = None ∨ ∃ t, qp.1 = find_path_excluding h s0 t s1)
  ∧ (qp.2 = None ∨ ∃ t, qp.2 = find_path_excluding h s1 t s0).
Proof.
  destruct d as [d0 d1]. unfold find_shortest_path.
  assert (Hgen : ∀ (c : bool) s t x,
    (if c then find_path_excluding h s t x else None) = None
    ∨ ∃ t', (if c then find_path_excluding h s t x else None)
            = find_path_excluding h s t' x).
  { intros [|] s t x; [right; by exists t | by left]. }
  pose proof (Hgen (negb (d0 =? s1)) s0 d0 s1) as H00.
  pose proof (Hgen (negb (d1 =? s1)) s0 d1 s1) as H01.
  pose proof (Hgen (negb (d0 =? s0)) s1 d0 s0) as H10.
  pose proof (Hgen (negb (d1 =? s0)) s1 d1 s0) as H11.
  revert H00 H01 H10 H11.
  generalize (if negb (d0 =? s1) then find_path_excluding h s0 d0 s1 else None).
  generalize (if negb (d1 =? s1) then find_path_excluding h s0 d1 s1 else None).
  generalize (if negb (d0 =? s0) then find_path_excluding h s1 d0 s0 else None).
  generalize (if negb (d1 =? s0) then find_path_excluding h s1 d1 s0 else None).
  intros q11 q10 q01 q00 H00 H01 H10 H11. clear Hgen.
  destruct (negb (in_pair s0 (d0, d1)) && negb (in_pair s1 (d0, d1))).
  - intros Hq. inv_bind Hq as x1 Hx1. inv_bind Hq as x2 Hx2.
    inv_bind Hq as l01 Hl01. inv_bind Hq as l00 Hl00. inv_bind Hq as c0 Hc0.
    inv_bind Hq as l11 Hl11. inv_bind Hq as l10 Hl10. inv_bind Hq as c1 Hc1.
    injection Hq as <-. simpl. split; [by destruct c0 | by destruct c1].
  - destruct (negb (in_pair s0 (d0, d1))).
    + destruct (negb (int_is s1 d0)); intros [= <-]; simpl; auto.
    + destruct (negb (in_pair s1 (d0, d1))); [|intros [= <-]; simpl; auto].
      destruct (negb (int_is s0 d0)); intros [= <-]; simpl; auto.
Qed.

Lemma path_hops_linked (h : HERR) (s x : nat) (q : option (list nat)) :
  sound_libraries →
  (q = None ∨ ∃ t, q = find_path_excluding h s t x) →
  Forall (fun w : nat * nat => linked (get_edges (couplingMap h)) w.1 w.2) (path_hops q).
Proof.
  intros Hs Hq. rewrite path_hops_links.
  destruct q as [p|]; [|constructor]. destruct Hq as [|[t Ht]]; [done|].
  symmetry in Ht.
  apply (find_path_excluding_reduced _ _ _ _ _ Hs) in Ht as (_ & Hw & _).
  by eapply walk_links, reduced_walk_weaken.
Qed.

Lemma routed_swaps (l l' : Layout) (layers : list DAGOpNode) (t : list LayerTrace) :
  routed l layers t l' → apply_swaps l (trace_swaps t) = Ok l'.
Proof.
  revert l t; induction layers as [|gate rest IH]; intros l [|s t]; simpl; try done.
  - by intros ->.
  - intros (l1 & Hs & _ & _ & Hr). unfold trace_swaps. simpl.
    rewrite apply_swaps_app, Hs. simpl. by apply IH.
Qed.

Lemma layout_ok_confined (n : nat) (l : Layout) : layout_ok n l → confined n l.
Proof.
  intros (_ & Hp & Hv). split.
  - intros p Hle. unfold logical_of. destruct (p2v l !! p) as [v|] eqn:E; [|done].
    assert (p < n) by (apply Hp; eauto). lia.
  - intros v Hle. unfold physical_of. destruct (v2p l !! v) as [p|] eqn:E; [|done].
    assert (v < n) by (apply Hv; eauto). lia.
Qed.

Lemma readdressed_emitted_through (l : Layout) (g g' : DAGOpNode) :
  inverse_maps l → readdressed l g g' → emitted_through l g g'.
Proof.
  intros Hinv Hre. split; [done|]. destruct Hre as (_ & _ & _ & Hq).
  eapply Forall2_impl; [exact Hq|]. simpl. intros v p Hvp.
  apply Hinv in Hvp. unfold logical_of. by rewrite Hvp.
Qed.

Lemma route_gate_chain (h : HERR) (st st' : Store) (gate : DAGOpNode) :
  inverse_maps (current_layout st) →
  route_gate h st gate = Ok st' →
  ∃ chain,
    step_effect st st' chain (map (fun w : nat * nat => SwapGate w.1 w.2) chain)
    ∧ (sound_libraries →
       Forall (fun w : nat * nat => linked (get_edges (couplingMap h)) w.1 w.2) chain).
Proof.
  intros Hinv Hr. unfold route_gate in Hr.
  inv_bind Hr as p0 Hp0. inv_bind Hr as p1 Hp1. inv_bind Hr as betterEdge Hb.
  assert (Hins : ∀ chain,
    insert_swaps st chain = Ok st' →
    step_effect st st' chain (map (fun w : nat * nat => SwapGate w.1 w.2) chain)).
  { intros chain Hi.
    destruct (insert_swaps_frame _ _ _ Hi) as (? & ? & ? & ? & _).
    destruct (insert_swaps_exact _ _ _ Hinv Hi) as (_ & ? & _).
    by repeat split. }
  destruct betterEdge as [edge|].
  - inv_bind Hr as swapPath Hpath.
    exists (path_hops swapPath.1 ++ path_hops swapPath.2). split; [by apply Hins|].
    intros Hs.
    destruct (find_shortest_path_choice _ _ _ _ _ Hpath) as [H0 H1].
    apply Forall_app. split; eapply path_hops_linked; eauto.
  - inv_bind Hr as d Hd. destruct (negb (d =? 1)).
    + inv_bind Hr as path Hpath.
      exists (hops path (length path - 2)). split; [by apply Hins|].
      intros Hs.
      rewrite hops_all_but_last. apply Forall_all_but_last, walk_links.
      apply of_option_Ok in Hpath. by apply (rx_path Hs) in Hpath as ((? & _) & _).
    + injection Hr as <-. exists []. split; [apply step_effect_refl | constructor].
Qed.

Lemma route_layer_chain (h : HERR) (n : nat) (st st' : Store) (gate : DAGOpNode) :
  layout_ok n (current_layout st) →
  route_layer h st gate = Ok st' →
  layout_ok n (current_layout st')
  ∧ ∃ chain gate',
      step_effect st st' chain
        (map (fun w : nat * nat => SwapGate w.1 w.2) chain ++ [gate'])
      ∧ emitted_through (current_layout st') gate gate'
      ∧ (sound_libraries →
         Forall (fun w : nat * nat => linked (get_edges (couplingMap h)) w.1 w.2) chain).
Proof.
  intros Hok Hr. unfold route_layer in Hr.
  inv_bind Hr as st1 Hst1. inv_bind Hr as order Horder. inv_bind Hr as out Hout.
  injection Hr as <-. simpl.
  unfold compose in Hout. simpl in Hout. inv_bind Hout as gate' Hgate'.
  injection Hout as <-.
  assert (Hg : ∃ chain,
    step_effect st st1 chain (map (fun w : nat * nat => SwapGate w.1 w.2) chain)
    ∧ (sound_libraries →
       Forall (fun w : nat * nat => linked (get_edges (couplingMap h)) w.1 w.2) chain)).
  { destruct (is_two_qubit_op gate).
    - apply (route_gate_chain h _ _ gate); [apply Hok | done].
    - injection Hst1 as <-. exists []. split; [apply step_effect_refl | constructor]. }
  destruct Hg as (chain & (? & ? & ? & Hsw & Hn) & Hl).
  assert (Hok1 : layout_ok n (current_layout st1)) by (by eapply apply_swaps_layout_ok).
  split; [done|].
  exists chain, gate'. split; [|split; [|done]].
  - unfold step_effect. simpl. repeat split; try done. by rewrite Hn, app_assoc.
  - apply readdressed_emitted_through; [apply Hok1|].
    eapply compose_node_readdressed; eauto.
Qed.

Lemma route_layers_routed (h : HERR) (n : nat) (layers : list DAGOpNode)
    (st st' : Store) :
  layout_ok n (current_layout st) →
  route_layers h st layers = Ok st' →
  ∃ t : list LayerTrace,
    step_effect st st' (trace_swaps t) (trace_nodes t)
    ∧ routed (current_layout st) layers t (current_layout st')
    ∧ (sound_libraries → Forall (swaps_on_links (couplingMap h)) t).
Proof.
  revert st; induction layers as [|gate rest IH]; intros st Hok Hr; simpl in Hr.
  - injection Hr as <-. exists []. split; [apply step_effect_refl|].
    split; [done | constructor].
  - inv_bind Hr as st1 Hst1.
    destruct (route_layer_chain _ _ _ _ _ Hok Hst1)
      as (Hok1 & chain & gate' & (Hd & Hq & Hc & Hsw & Hn) & Hre & Hl).
    destruct (IH _ Hok1 Hr) as (t & (Hd' & Hq' & Hc' & Hs' & Hn') & Ht & Hlinks).
    exists ((chain, map (fun w : nat * nat => SwapGate w.1 w.2) chain, gate') :: t).
    split; [|split].
    + unfold step_effect, trace_swaps, trace_nodes. simpl.
      repeat split; try congruence.
      * rewrite apply_swaps_app, Hsw. exact Hs'.
      * rewrite Hn', Hn. by rewrite <- !app_assoc.
    + simpl. exists (current_layout st1). done.
    + intros Hs. constructor; [|by apply Hlinks]. split; [done|]. by apply Hl.
Qed.

(** C9.  The output of [run] is the concatenation, layer by layer and in
    the order of the input, of the swaps inserted for the layer followed
    by the operation of the layer: the operation emitted at the end of
    the part of a layer is the operation of that layer of the input, with
    the same name and classical arguments, each qubit translated through
    the layout that the swaps up to this point have made of the trivial
    layout, and it is read back from the emitted operation through that
    layout.  So the original operations keep their relative order, and
    the inserted swaps only precede the operation of their layer. *)
Theorem program_order_preserved (h : HERR) (d out : DAGCircuit) :
  run h d = Ok out →
  ∃ (t : list LayerTrace) (l' : Layout),
    nodes out = trace_nodes t
    ∧ routed (generate_trivial_layout (qreg d)) (nodes d) t l'.
Proof.
  unfold run, run_store. intros Hr. inv_bind Hr as st Hst. injection Hr as <-.
  destruct (size (couplingMap h) <? qreg d); [discriminate|].
  apply (route_layers_routed h (qreg d)) in Hst
    as (t & (_ & _ & _ & _ & Hn) & Ht & _); [|apply generate_trivial_layout_ok].
  by exists t, (current_layout st).
Qed.

(** C8 (as amended).  The layout of a run is the trivial layout of the
    register [q] followed by the swaps of the run, which are the swaps
    that the output shows, layer by layer.  After every one of these
    swaps the layout is a bijection between the logical qubits of the
    program and the physical qubits [0 .. n-1] that the register
    occupies: [physicalOf(logicalOf(p)) = p] for every such [p], and
    [logicalOf(physicalOf(v)) = v] for every logical qubit [v]; a
    physical qubit from [n] on has no entry in the layout, and neither
    has a logical qubit outside the register. *)
Theorem layout_bijection_on_register (h : HERR) (d : DAGCircuit) (st : Store) :
  run_store h d = Ok st →
  ∃ t : list LayerTrace,
    nodes (new_dag st) = trace_nodes t
    ∧ routed (generate_trivial_layout (qreg d)) (nodes d) t (current_layout st)
    ∧ apply_swaps (generate_trivial_layout (qreg d)) (trace_swaps t)
      = Ok (current_layout st)
    ∧ ∀ k, ∃ l,
        apply_swaps (generate_trivial_layout (qreg d)) (take k (trace_swaps t)) = Ok l
        ∧ bijection (qreg d) l
        ∧ confined (qreg d) l.
Proof.
  unfold run_store. intros Hr.
  destruct (size (couplingMap h) <? qreg d); [discriminate|].
  apply (route_layers_routed h (qreg d)) in Hr
    as (t & (_ & _ & _ & Hs & Hn) & Ht & _); [|apply generate_trivial_layout_ok].
  simpl in Hs, Hn, Ht. exists t. split; [exact Hn|]. split; [exact Ht|].
  split; [exact Hs|].
  intros k. destruct (apply_swaps_prefix _ _ _ k Hs) as [lk Hlk].
  exists lk. split; [exact Hlk|].
  assert (Hok : layout_ok (qreg d) lk).
  { eapply apply_swaps_layout_ok; [apply generate_trivial_layout_ok | exact Hlk]. }
  split; [by apply layout_ok_bijection | by apply layout_ok_confined].
Qed.

(** X7.  Every swap that [run] inserts acts on a link of the coupling map.
    The output is, layer by layer, the swaps inserted for the layer
    followed by the operation of the layer, translated through the layout
    as these swaps leave it; the swaps of a layer are swap operations on
    exactly the pairs of physical qubits that are exchanged in the layout,
    in the same order, the layout at the end of the run is the trivial
    layout after all these exchanges, and each of these pairs is a link. *)
Theorem inserted_swaps_on_links (h : HERR) (d : DAGCircuit) (st : Store) :
  sound_libraries →
  run_store h d = Ok st →
  ∃ t : list LayerTrace,
    nodes (new_dag st) = trace_nodes t
    ∧ routed (generate_trivial_layout (qreg d)) (nodes d) t (current_layout st)
    ∧ apply_swaps (generate_trivial_layout (qreg d)) (trace_swaps t)
      = Ok (current_layout st)
    ∧ Forall (swaps_on_links (couplingMap h)) t.
Proof.
  intros Hs Hr. unfold run_store in Hr.
  destruct (size (couplingMap h) <? qreg d); [discriminate|].
  apply (route_layers_routed h (qreg d)) in Hr
    as (t & (_ & _ & _ & Hsw & Hn) & Ht & Hl); [|apply generate_trivial_layout_ok].
  exists t. split; [exact Hn|]. split; [exact Ht|]. split; [exact Hsw|]. by apply Hl.
Qed.

End Traces.

(** ** The direct-connect chain *)

Lemma swap_moves (l l' : Layout) (a b v : nat) :
  inverse_maps l → swap l a b = Ok l' →
  v2p l !! v = Some a → v2p l' !! v = Some b.
Proof.
  intros Hinv Hs Hv.
  destruct (swap_Ok_inv _ _ _ _ Hs) as (va & vb & Ha & Hb).
  rewrite (swap_exchange l a b va vb Hinv Ha Hb) in Hs. injection Hs as <-. simpl.
  apply Hinv in Hv. assert (v = va) as -> by congruence.
  apply lookup_insert_eq.
Qed.

Lemma swap_fixes (l l' : Layout) (a b v q : nat) :
  inverse_maps l → swap l a b = Ok l' →
  v2p l !! v = Some q → q ≠ a → q ≠ b → v2p l' !! v = Some q.
Proof.
  intros Hinv Hs Hv Hqa Hqb.
  destruct (swap_Ok_inv _ _ _ _ Hs) as (va & vb & Ha & Hb).
  rewrite (swap_exchange l a b va vb Hinv Ha Hb) in Hs. injection Hs as <-. simpl.
  apply Hinv in Ha, Hb.
  rewrite !lookup_insert_ne; [done | congruence | congruence].
Qed.

Lemma chain_moves (n : nat) (path : list nat) (l l' : Layout) (v a : nat) :
  layout_ok n l →
  apply_swaps l (links (a :: path)) = Ok l' →
  v2p l !! v = Some a →
  v2p l' !! v = last (a :: path).
Proof.
  revert l a; induction path as [|b r IH]; intros l a Hok Hs Hv.
  - simpl in Hs. by injection Hs as <-.
  - change (links (a :: b :: r)) with ((a, b) :: links (b :: r)) in Hs.
    simpl in Hs. inv_bind Hs as l1 Hl1.
    change (last (a :: b :: r)) with (last (b :: r)).
    apply (IH l1 b); [by eapply swap_layout_ok | exact Hs|].
    apply (swap_moves l l1 a b v); [apply Hok | exact Hl1 | exact Hv].
Qed.

Lemma chain_fixes (n : nat) (path : list nat) (l l' : Layout) (v q : nat) :
  layout_ok n l →
  apply_swaps l (links path) = Ok l' →
  v2p l !! v = Some q → ¬ In q path →
  v2p l' !! v = Some q.
Proof.
  revert l; induction path as [|a [|b r] IH]; intros l Hok Hs Hv Hq.
  - simpl in Hs. by injection Hs as <-.
  - simpl in Hs. by injection Hs as <-.
  - change (links (a :: b :: r)) with ((a, b) :: links (b :: r)) in Hs.
    simpl in Hs. inv_bind Hs as l1 Hl1.
    eapply IH; [eapply swap_layout_ok; eauto | exact Hs | |].
    + apply (swap_fixes l l1 a b v q); [apply Hok | exact Hl1 | exact Hv | |];
        intros ->; apply Hq; simpl; tauto.
    + intros Hin. apply Hq. by right.
Qed.

Lemma walk_penultimate (es : list (nat * nat)) (p : list nat) (a t : nat) :
  walk es p → last (removelast p) = Some a → last p = Some t → linked es a t.
Proof.
  induction p as [|x [|y [|z r]] IH]; intros Hw Ha Ht.
  - done.
  - done.
  - simpl in *. injection Ha as <-. injection Ht as <-. tauto.
  - apply IH.
    + by destruct Hw.
    + exact Ha.
    + exact Ht.
Qed.

Section DirectConnect.
Context `{Libraries}.

(** X8.  When [find_better_link] reports no better link, the operation is
    emitted on a link of the coupling map: either its two physical qubits
    are at distance 1, or the swaps along the shortest path, all but the
    last link of it, bring the first qubit next to the second. *)
Theorem direct_connect_reaches_link (h : HERR) (n : nat) (st st' : Store)
    (gate : DAGOpNode) (v0 v1 p0 p1 : nat) :
  sound_libraries →
  layout_ok n (current_layout st) →
  is_two_qubit_op gate = true →
  qargs gate = [v0; v1] →
  v0 ≠ v1 →
  physical_of (current_layout st) v0 = Ok p0 →
  physical_of (current_layout st) v1 = Ok p1 →
  find_better_link h p0 p1 (current_layout st) (searchDepth h) = Ok None →
  route_layer h st gate = Ok st' →
  ∃ a b gate',
    last (nodes (new_dag st')) = Some gate'
    ∧ name gate' = name gate
    ∧ qargs gate' = [a; b]
    ∧ physical_of (current_layout st') v0 = Ok a
    ∧ physical_of (current_layout st') v1 = Ok b
    ∧ linked (get_edges (couplingMap h)) a b.
Proof.
  intros Hs Hok H2 Hq Hne Hp0 Hp1 Hb Hr.
  assert (Hinv : inverse_maps (current_layout st)) by apply Hok.
  apply of_option_Ok in Hp0, Hp1.
  assert (Hpne : p0 ≠ p1).
  { intros ->. apply Hinv in Hp0, Hp1. congruence. }
  unfold route_layer in Hr. rewrite H2 in Hr.
  inv_bind Hr as st1 Hst1. inv_bind Hr as order Horder. inv_bind Hr as out Hout.
  injection Hr as <-. simpl.
  unfold compose in Hout. simpl in Hout. inv_bind Hout as gate' Hgate'.
  injection Hout as <-.
  destruct (compose_node_readdressed _ _ _ _ _ Horder Hgate') as (Hn & _ & _ & Hre).
  rewrite Hq in Hre.
  inversion Hre as [|? a ? qs Ha Hre' E1 E2]; subst.
  inversion Hre' as [|? b ? qs' Hb' Hre'' E1' E2']; subst.
  inversion Hre''; subst.
  assert (Hgoal : linked (get_edges (couplingMap h)) a b);
    [|exists a, b, gate'; rewrite last_snoc; unfold physical_of;
      rewrite Ha, Hb'; by repeat split].
  unfold route_gate in Hst1. rewrite Hq in Hst1. simpl in Hst1.
  unfold physical_of in Hst1. rewrite Hp0, Hp1 in Hst1. simpl in Hst1.
  rewrite Hb in Hst1. red_bind Hst1.
  inv_bind Hst1 as d Hd. destruct (d =? 1) eqn:Ed; simpl in Hst1.
  - injection Hst1 as <-. apply Nat.eqb_eq in Ed. subst d.
    apply of_option_Ok in Hd. apply (rx_adjacent Hs) in Hd.
    assert (a = p0) as -> by congruence. assert (b = p1) as -> by congruence. done.
  - inv_bind Hst1 as path Hpath. apply of_option_Ok in Hpath.
    apply (rx_path Hs) in Hpath as ((Hw & Hhd & Hlast) & Hend).
    destruct (insert_swaps_frame _ _ _ Hst1) as (_ & _ & _ & Hsw & _).
    rewrite hops_all_but_last, <- links_removelast in Hsw.
    destruct path as [|x [|y r]]; simpl in Hhd, Hlast; [done|congruence|].
    injection Hhd as ->.
    assert (Hrl : removelast (p0 :: y :: r) = p0 :: removelast (y :: r)) by reflexivity.
    pose proof (chain_moves n _ _ _ v0 p0 Hok ltac:(rewrite <- Hrl; exact Hsw) Hp0) as Hm.
    rewrite <- Hrl in Hm.
    pose proof (chain_fixes n _ _ _ v1 p1 Hok Hsw Hp1 Hend) as Hf.
    assert (b = p1) as -> by congruence.
    rewrite Ha in Hm. symmetry in Hm.
    eapply walk_penultimate; eauto.
Qed.

End DirectConnect.

(** ** Programs without two-qubit operations *)

Lemma reorder_bits_trivial (n : nat) :
  reorder_bits (generate_trivial_layout n) n = Ok (seq 0 n).
Proof.
  unfold reorder_bits.
  assert (Hgen : ∀ l : list nat, Forall (fun v => v < n) l →
    for_each (physical_of (generate_trivial_layout n)) l = Ok l).
  { induction l as [|v r IH]; intros Hl; [reflexivity|].
    inversion Hl; subst.
    assert (Hv : physical_of (generate_trivial_layout n) v = Ok v).
    { unfold physical_of. rewrite (proj1 (trivial_layout_maps n)).
      by destruct (decide (v < n)); [|lia]. }
    cbn [for_each]. rewrite Hv, IH by done. reflexivity. }
  apply Hgen. apply Forall_forall. intros v Hv. apply elem_of_seq in Hv. lia.
Qed.

Lemma compose_node_identity (n : nat) (g : DAGOpNode) :
  forallb (fun v => v <? n) (qargs g) = true →
  compose_node n (seq 0 n) g = Ok g.
Proof.
  intros Hq. unfold compose_node.
  assert (Hgen : ∀ l : list nat, forallb (fun v => v <? n) l = true →
    for_each (wire n (seq 0 n)) l = Ok l).
  { induction l as [|v r IH]; intros Hl; [reflexivity|].
    simpl in Hl. apply andb_true_iff in Hl as [Hv Hr].
    assert (Hw : wire n (seq 0 n) v = Ok v).
    { unfold wire. apply Nat.ltb_lt in Hv as Hv'.
      rewrite lookup_seq_lt by done. simpl. by rewrite Hv. }
    cbn [for_each]. rewrite Hw, IH by done. reflexivity. }
  rewrite Hgen by done. simpl. by destruct g.
Qed.

Section OneQubitPrograms.
Context `{Libraries}.

Lemma route_layers_one_qubit (h : HERR) (n : nat) (layers : list DAGOpNode)
    (st : Store) :
  forallb (fun g => negb (is_two_qubit_op g)
                    && forallb (fun v => v <? n) (qargs g)) layers = true →
  current_layout st = generate_trivial_layout n →
  qreg (new_dag st) = n →
  route_layers h st layers
  = Ok {| dag := dag st; new_dag := append_nodes (new_dag st) layers;
          current_layout := current_layout st |}.
Proof.
  revert st; induction layers as [|g rest IH]; intros st Hall Hl Hn.
  - simpl. unfold append_nodes. rewrite app_nil_r. by destruct st as [? []].
  - simpl in Hall. apply andb_true_iff in Hall as [Hg Hrest].
    apply andb_true_iff in Hg as [H2 Hq]. apply negb_true_iff in H2.
    cbn [route_layers]. unfold route_layer. rewrite H2.
    cbn [mbind result_bind rbind negb].
    rewrite Hl, Hn, reorder_bits_trivial. cbn [mbind result_bind rbind].
    unfold compose. cbn [for_each]. rewrite compose_node_identity by done.
    cbn [mbind result_bind rbind].
    rewrite IH; simpl; try done.
    unfold append_nodes. simpl. by rewrite <- app_assoc.
Qed.

(** X10.  A program without two-qubit operations that fits the device is
    returned as it is: [run] places every operation on the qubits it names
    and inserts nothing. *)
Theorem one_qubit_program_unchanged (h : HERR) (d : DAGCircuit) :
  qreg d ≤ size (couplingMap h) →
  no_two_qubit_op d = true →
  run h d = Ok d.
Proof.
  intros Hsize Hno. unfold run, run_store.
  destruct (size (couplingMap h) <? qreg d) eqn:E; [apply Nat.ltb_lt in E; lia|].
  rewrite (route_layers_one_qubit h (qreg d)) by done.
  simpl. unfold append_nodes. simpl. by destruct d.
Qed.

End OneQubitPrograms.

(** ** The graph of the wrapper *)

Lemma list_index_In (e : nat * nat) (l : list (nat * nat)) :
  In e l → list_index e l < length l ∧ l !! list_index e l = Some e.
Proof.
  induction l as [|x r IH]; simpl; [done|]. intros Hin.
  destruct (edge_eqb x e) eqn:E.
  - apply edge_eqb_eq in E. subst x. split; [lia | done].
  - assert (Hr : In e r).
    { destruct Hin as [->|?]; [|done].
      assert (edge_eqb e e = true) by (by apply edge_eqb_eq). congruence. }
    destruct (IH Hr). split; [lia | done].
Qed.

Lemma list_index_NoDup (l : list (nat * nat)) (i : nat) (e : nat * nat) :
  NoDup l → l !! i = Some e → list_index e l = i.
Proof.
  intros Hnd Hi.
  assert (Hin : In e l) by (by apply list_elem_of_In, list_elem_of_lookup; exists i).
  destruct (list_index_In e l Hin) as [_ Hl].
  by apply (NoDup_lookup l _ _ e Hnd).
Qed.

Lemma edge_key_eq (a b u v : nat) :
  edge_key a b = edge_key u v ↔ (a, b) = (u, v) ∨ (a, b) = (v, u).
Proof.
  unfold edge_key. split.
  - intros [= Hmin Hmax].
    destruct (Nat.le_ge_cases a b), (Nat.le_ge_cases u v);
      [left | right | right | left]; f_equal; lia.
  - intros [[= -> ->]|[= -> ->]]; [done|]. f_equal; lia.
Qed.

Lemma set_weights_miss (cl : list (nat * nat)) (em : list Q) (edges : list (nat * nat))
    (g g' : gmap (nat * nat) Q) (k : nat * nat) :
  Forall (fun e : nat * nat => edge_key e.1 e.2 ≠ k) edges →
  set_weights cl em edges g = Ok g' → g' !! k = g !! k.
Proof.
  revert g; induction edges as [|e r IH]; intros g Hall Hs; simpl in Hs.
  - by injection Hs as <-.
  - inversion Hall; subst. inv_bind Hs as w Hw.
    rewrite (IH _ ltac:(done) Hs). by rewrite lookup_insert_ne.
Qed.

Lemma set_weights_hit (cl : list (nat * nat)) (em : list Q)
    (pre post : list (nat * nat)) (e : nat * nat) (g g' : gmap (nat * nat) Q) :
  Forall (fun e' : nat * nat => edge_key e'.1 e'.2 ≠ edge_key e.1 e.2) post →
  set_weights cl em (pre ++ e :: post) g = Ok g' →
  is_Some (em !! list_index e cl)
  ∧ g' !! edge_key e.1 e.2 = em !! list_index e cl.
Proof.
  revert g; induction pre as [|x r IH]; intros g Hall Hs; simpl in Hs.
  - inv_bind Hs as w Hw. apply of_option_Ok in Hw.
    rewrite (set_weights_miss _ _ _ _ _ _ Hall Hs), lookup_insert_eq.
    split; [by exists w | done].
  - inv_bind Hs as w Hw. by eapply IH.
Qed.

Lemma set_weights_keys (cl : list (nat * nat)) (em : list Q) (edges : list (nat * nat))
    (g g' : gmap (nat * nat) Q) (k : nat * nat) :
  set_weights cl em edges g = Ok g' →
  is_Some (g' !! k) ↔ is_Some (g !! k) ∨ ∃ e, In e edges ∧ edge_key e.1 e.2 = k.
Proof.
  revert g; induction edges as [|e r IH]; intros g Hs; simpl in Hs.
  - injection Hs as <-. split; [by left|]. by intros [?|(? & [] & _)].
  - inv_bind Hs as w Hw. rewrite (IH _ Hs). split.
    + intros [Hk|(e' & Hin & Hk)].
      * destruct (decide (edge_key e.1 e.2 = k)) as [<-|Hne].
        -- right. exists e. split; [by left | done].
        -- rewrite lookup_insert_ne in Hk by done. by left.
      * right. exists e'. split; [by right | done].
    + intros [Hk|(e' & [->|Hin] & Hk)].
      * left. destruct (decide (edge_key e.1 e.2 = k)) as [<-|Hne].
        -- rewrite lookup_insert_eq. eauto.
        -- by rewrite lookup_insert_ne.
      * left. subst k. rewrite lookup_insert_eq. eauto.
      * right. by exists e'.
Qed.

Lemma set_weights_total (cl : list (nat * nat)) (em : list Q) (edges : list (nat * nat))
    (g : gmap (nat * nat) Q) :
  Forall (fun e => list_index e cl < length em) edges →
  ∃ g', set_weights cl em edges g = Ok g'.
Proof.
  revert g; induction edges as [|e r IH]; intros g Hall; simpl; [eauto|].
  inversion Hall as [|? ? He Hr]; subst.
  destruct (lookup_lt_is_Some_2 em _ He) as [w ->]. simpl. by apply IH.
Qed.

Lemma set_weights_short (cl : list (nat * nat)) (em : list Q)
    (pre post : list (nat * nat)) (e : nat * nat) (g : gmap (nat * nat) Q) :
  length em ≤ list_index e cl →
  (∃ g', set_weights cl em pre g = Ok g') ∨ set_weights cl em pre g = Raise IndexError →
  set_weights cl em (pre ++ e :: post) g = Raise IndexError.
Proof.
  intros He. revert g; induction pre as [|x r IH]; intros g Hpre; simpl.
  - by rewrite (lookup_ge_None_2 em _ He).
  - simpl in Hpre. destruct (em !! list_index x cl) as [w|]; simpl in *; [|done].
    by apply IH.
Qed.

Lemma set_weights_error (cl : list (nat * nat)) (em : list Q) (edges : list (nat * nat))
    (g : gmap (nat * nat) Q) :
  (∃ g', set_weights cl em edges g = Ok g') ∨ set_weights cl em edges g = Raise IndexError.
Proof.
  revert g; induction edges as [|e r IH]; intros g; simpl; [eauto|].
  destruct (em !! list_index e cl) as [w|]; simpl; [apply IH | by right].
Qed.

(** X13.  In the graph that the wrapper builds, the weight of a link is the
    entry of the error map at the position of the direction of the link
    that comes last in the coupling list; when the list names both
    directions, the entry of the earlier one is dropped. *)
Theorem last_direction_sets_weight (coupling_list : list (nat * nat))
    (cx_error_map : list Q) (g : gmap (nat * nat) Q) (i : nat) (e : nat * nat) :
  NoDup coupling_list →
  noise_graph coupling_list cx_error_map = Ok g →
  coupling_list !! i = Some e →
  (∀ j e', i < j → coupling_list !! j = Some e' →
           e' ≠ e ∧ e' ≠ (e.2, e.1)) →
  ∃ w, cx_error_map !! i = Some w
       ∧ edge_weight g e.1 e.2 = Ok w
       ∧ edge_weight g e.2 e.1 = Ok w.
Proof.
  intros Hnd Hg Hi Hlast. unfold noise_graph in Hg.
  pose proof (list_index_NoDup _ _ _ Hnd Hi) as Hidx.
  rewrite <- (take_drop_middle _ _ _ Hi) in Hg at 2.
  apply set_weights_hit in Hg as [Hsome Hk].
  - rewrite Hidx in Hsome, Hk. destruct Hsome as [w Hw]. exists w.
    split; [done|].
    assert (Hsym : edge_key e.2 e.1 = edge_key e.1 e.2).
    { apply edge_key_eq. by right. }
    unfold edge_weight. by rewrite Hsym, Hk, Hw.
  - apply Forall_forall. intros [a b] Hin Hk.
    apply list_elem_of_lookup in Hin as [j Hj]. rewrite lookup_drop in Hj.
    destruct (Hlast (S i + j) (a, b) ltac:(lia) Hj) as [H1 H2].
    simpl in Hk. apply edge_key_eq in Hk as [Hk|Hk]; destruct e; simpl in *; congruence.
Qed.

Lemma noise_graph_keys (coupling_list : list (nat * nat)) (cx_error_map : list Q)
    (g : gmap (nat * nat) Q) (u v : nat) :
  noise_graph coupling_list cx_error_map = Ok g →
  is_Some (g !! edge_key u v) ↔ linked coupling_list u v.
Proof.
  intros Hg. unfold noise_graph in Hg.
  rewrite (set_weights_keys _ _ _ _ _ (edge_key u v) Hg). split.
  - intros [Hs|([a b] & Hin & He)]; [rewrite lookup_empty in Hs; by destruct Hs|].
    simpl in He. apply edge_key_eq in He as [[= -> ->]|[= -> ->]]; [by left | by right].
  - intros [Hin|Hin]; right; eexists; (split; [exact Hin|]); simpl;
      apply edge_key_eq; tauto.
Qed.

(** X14.  The graph that the wrapper builds has exactly the links of the
    coupling list, in either direction, and every one of them has a
    weight. *)
Theorem noise_graph_links (coupling_list : list (nat * nat)) (cx_error_map : list Q)
    (g : gmap (nat * nat) Q) (u v : nat) :
  noise_graph coupling_list cx_error_map = Ok g →
  (has_edge g u v = true ↔ linked coupling_list u v)
  ∧ (linked coupling_list u v → ∃ w, edge_weight g u v = Ok w).
Proof.
  intros Hg. pose proof (noise_graph_keys _ _ _ u v Hg) as Hiff. split.
  - unfold has_edge. by rewrite bool_decide_eq_true.
  - intros Hl. apply Hiff in Hl as [w Hw]. exists w. unfold edge_weight. by rewrite Hw.
Qed.

Section Wrapper.
Context `{Libraries}.

(** X15.  The wrapper needs an entry of the error map for every element of
    the coupling list.  With an error map at least as long as the
    coupling list the graph is built; with a shorter one, and a coupling
    list without repetition, [routeUsingHerr] raises [IndexError] before
    it routes anything. *)
Theorem error_map_must_cover_coupling_list (coupling_list : list (nat * nat))
    (cx_error_map : list Q) :
  (length coupling_list ≤ length cx_error_map →
   ∃ g, noise_graph coupling_list cx_error_map = Ok g)
  ∧ (NoDup coupling_list → length cx_error_map < length coupling_list →
     ∀ circuit coupling_map,
       routeUsingHerr circuit coupling_list coupling_map cx_error_map
       = Raise IndexError).
Proof.
  split.
  - intros Hlen. apply set_weights_total. apply Forall_forall. intros e He.
    apply list_elem_of_In in He. pose proof (list_index_In e _ He). lia.
  - intros Hnd Hlen circuit coupling_map. unfold routeUsingHerr, noise_graph.
    destruct (lookup_lt_is_Some_2 coupling_list (length cx_error_map) Hlen) as [e He].
    rewrite <- (take_drop_middle _ _ _ He) at 2.
    rewrite set_weights_short; [done | | apply set_weights_error].
    by rewrite (list_index_NoDup _ _ _ Hnd He).
Qed.

End Wrapper.

(** ** Weights along the paths of a device built by the wrapper *)

Lemma accumulate_total (g : gmap (nat * nat) Q) (es : list (nat * nat))
    (pairs : list (nat * nat)) (x : Q) :
  (∀ u v, linked es u v → is_Some (g !! edge_key u v)) →
  Forall (fun w : nat * nat => linked es w.1 w.2) pairs →
  ∃ a, accumulate g x pairs = Ok a.
Proof.
  intros Hg Hall. revert x; induction Hall as [|[u v] r Huv _ IH]; intros x; simpl.
  - eauto.
  - destruct (Hg u v Huv) as [w Hw]. unfold edge_weight. rewrite Hw. simpl. apply IH.
Qed.

Section WrapperDevice.
Context `{Libraries}.

Lemma find_shortest_path_raises (h : HERR) (src dst : nat * nat) (e : PyError) :
  find_shortest_path h src dst = Raise e → e = TypeError.
Proof.
  destruct src as [s0 s1], dst as [d0 d1]. unfold find_shortest_path.
  generalize (if negb (d0 =? s1) then find_path_excluding h s0 d0 s1 else None).
  generalize (if negb (d1 =? s1) then find_path_excluding h s0 d1 s1 else None).
  generalize (if negb (d0 =? s0) then find_path_excluding h s1 d0 s0 else None).
  generalize (if negb (d1 =? s0) then find_path_excluding h s1 d1 s0 else None).
  intros q11 q10 q01 q00.
  destruct (negb (in_pair s0 (d0, d1)) && negb (in_pair s1 (d0, d1))).
  - destruct q00 as [q00|], q10 as [q10|], q01 as [q01|]; simpl; try congruence;
      destruct q11 as [q11|]; simpl; try congruence.
    + destruct (length q01 <? length q00), (length q11 <? length q10); simpl; congruence.
    + destruct (length q01 <? length q00); simpl; congruence.
  - destruct (negb (in_pair s0 (d0, d1))).
    + destruct (negb (int_is s1 d0)); congruence.
    + destruct (negb (in_pair s1 (d0, d1))); [|congruence].
      destruct (negb (int_is s0 d0)); congruence.
Qed.

Lemma weights_cover_links_lookup (h : HERR) (u v : nat) :
  weights_cover_links h = true →
  linked (get_edges (couplingMap h)) u v →
  is_Some (qubitAccuracy h !! edge_key u v).
Proof.
  unfold weights_cover_links. rewrite forallb_forall. intros Hall Hl.
  assert (Hsym : edge_key v u = edge_key u v) by (apply edge_key_eq; by right).
  destruct Hl as [Hin|Hin]; apply Hall in Hin; unfold has_edge in Hin; simpl in Hin;
    apply bool_decide_eq_true in Hin; [done | by rewrite <- Hsym].
Qed.

Lemma baseline_covered (h : HERR) (q1 q2 : nat) :
  sound_libraries →
  weights_cover_links h = true →
  (∃ b, baseline_accuracy h q1 q2 = Ok b)
  ∨ baseline_accuracy h q1 q2 = Raise CouplingError.
Proof.
  intros Hs Hc. unfold baseline_accuracy.
  destruct (has_edge (qubitAccuracy h) q1 q2) eqn:He.
  - left. unfold has_edge in He. apply bool_decide_eq_true in He as [w Hw'].
    exists w. unfold edge_weight. by rewrite Hw'.
  - unfold calc_shortest_path_accuracy, shortest_undirected_path.
    destruct (rx_shortest_path (get_edges (couplingMap h)) q1 q2) as [path|] eqn:Hp;
      simpl; [left | by right].
    apply (rx_path Hs) in Hp as ((Hwalk & _) & _).
    eapply accumulate_total; [intros u v; by apply weights_cover_links_lookup|].
    rewrite hops_all_but_last. by apply Forall_all_but_last, walk_links.
Qed.

Lemma calc_path_accuracy_covered (h : HERR) (src dst : nat * nat) (l : Layout) :
  sound_libraries →
  weights_cover_links h = true →
  linked (get_edges (couplingMap h)) dst.1 dst.2 →
  (∃ a, calc_path_accuracy h src dst l = Ok a)
  ∨ calc_path_accuracy h src dst l = Raise TypeError.
Proof.
  intros Hs Hc Hl. destruct src as [s0 s1]. unfold calc_path_accuracy.
  pose proof (fun u v => weights_cover_links_lookup h u v Hc) as Hw.
  destruct (find_shortest_path _ (s0, s1) dst) as [qp|e] eqn:Hf; simpl.
  - left.
    destruct (find_shortest_path_choice _ _ _ _ _ Hf) as [H0 H1].
    pose proof (path_hops_linked _ _ _ _ Hs H0) as Hl0.
    pose proof (path_hops_linked _ _ _ _ Hs H1) as Hl1.
    destruct (accumulate_total _ _ _ 1%Q Hw Hl0) as [a0 Ha0].
    destruct (accumulate_total _ _ _ 1%Q Hw Hl1) as [a1 Ha1].
    destruct (Hw _ _ Hl) as [w Hw'].
    assert (Hbody : ∃ a,
      (a0 ← accumulate (qubitAccuracy h) 1%Q (path_hops qp.1);
       a1 ← accumulate (qubitAccuracy h) 1%Q (path_hops qp.2);
       opAccuracy ← edge_weight (qubitAccuracy h) dst.1 dst.2;
       Ok (opAccuracy * a0 * a1)%Q) = Ok a).
    { rewrite Ha0, Ha1. unfold edge_weight. rewrite Hw'. simpl. eauto. }
    destruct qp as [[p0|] [p1|]]; try exact Hbody. eauto.
  - right. by rewrite (find_shortest_path_raises _ _ _ _ Hf).
Qed.

Lemma wrapper_covers (coupling_list : list (nat * nat)) (coupling_map : CouplingMap)
    (cx_error_map : list Q) (g : gmap (nat * nat) Q) :
  get_edges coupling_map = coupling_list →
  noise_graph coupling_list cx_error_map = Ok g →
  weights_cover_links (HERR_init coupling_map g None None) = true.
Proof.
  intros Hcm Hg. unfold weights_cover_links. apply forallb_forall. intros [u v] Hin.
  simpl. unfold has_edge. apply bool_decide_eq_true.
  apply (noise_graph_keys _ _ _ u v Hg). rewrite <- Hcm. by left.
Qed.

(** X16.  On a device built by the wrapper, the graph has a weight for every
    link of the coupling map, so that the accuracy functions of the pass
    never raise [KeyError] there: the baseline of two qubits is computed
    unless the coupling map has no path between them, and the path
    accuracy of a link is computed unless the assignment of paths
    raises [TypeError]. *)
Theorem wrapper_weights_cover_paths (coupling_list : list (nat * nat))
    (coupling_map : CouplingMap) (cx_error_map : list Q) (g : gmap (nat * nat) Q) :
  sound_libraries →
  get_edges coupling_map = coupling_list →
  noise_graph coupling_list cx_error_map = Ok g →
  (∀ qubit1 qubit2,
     (∃ b, baseline_accuracy (HERR_init coupling_map g None None) qubit1 qubit2 = Ok b)
     ∨ baseline_accuracy (HERR_init coupling_map g None None) qubit1 qubit2
       = Raise CouplingError)
  ∧ (∀ src dst l,
       linked coupling_list dst.1 dst.2 →
       (∃ a, calc_path_accuracy (HERR_init coupling_map g None None) src dst l = Ok a)
       ∨ calc_path_accuracy (HERR_init coupling_map g None None) src dst l
         = Raise TypeError).
Proof.
  intros Hs Hcm Hg. pose proof (wrapper_covers _ _ _ _ Hcm Hg) as Hc. split.
  - intros q1 q2. by apply baseline_covered.
  - intros src dst l Hl. apply calc_path_accuracy_covered; try done.
    simpl. by rewrite Hcm.
Qed.

End WrapperDevice.

(** ** The error map read from the device data *)

Lemma extractCxErrorMap_length (gates : list GateProperties)
    (coupling_map : list (nat * nat)) (cx_errors : list Q) :
  extractCxErrorMap gates coupling_map = Ok cx_errors →
  length cx_errors ≤ length coupling_map.
Proof.
  revert cx_errors; induction coupling_map as [|line rest IH]; intros errs He;
    simpl in He.
  - by injection He as <-.
  - destruct (first_entry gates line) as [item|].
    + inv_bind He as value Hv. inv_bind He as errs' Herrs. injection He as <-.
      simpl. specialize (IH _ Herrs). lia.
    + specialize (IH _ He). simpl. lia.
Qed.

Lemma extractCxErrorMap_short (gates : list GateProperties)
    (coupling_map : list (nat * nat)) (cx_errors : list Q) :
  extractCxErrorMap gates coupling_map = Ok cx_errors →
  ¬ Forall (has_entry gates) coupling_map →
  length cx_errors < length coupling_map.
Proof.
  revert cx_errors; induction coupling_map as [|line rest IH]; intros errs He Hn;
    simpl in He.
  - destruct Hn. constructor.
  - destruct (first_entry gates line) as [item|] eqn:Hitem.
    + inv_bind He as value Hv. inv_bind He as errs' Herrs. injection He as <-.
      assert (length errs' < length rest); [|simpl; lia].
      apply IH; [done|]. intros Hr. apply Hn.
      constructor; [|done]. unfold has_entry. rewrite Hitem. eauto.
    + apply extractCxErrorMap_length in He. simpl. lia.
Qed.

(** X17.  The error map read from the data of a version 0 or 1 backend is
    aligned with the coupling list exactly when every link has an entry
    among the gate properties.  If so, [cx_errors[i]] is the value of the
    first parameter of the first entry on the qubits of link [i]; if not,
    the list is shorter than the coupling list, the links without entry
    having been skipped. *)
Theorem error_map_aligned_when_complete (gates : list GateProperties)
    (coupling_map : list (nat * nat)) (cx_errors : list Q) :
  extractCxErrorMap gates coupling_map = Ok cx_errors →
  (Forall (has_entry gates) coupling_map →
   Forall2 (fun line e => ∃ item, first_entry gates line = Some item
                                  ∧ parameters item !! 0 = Some e)
           coupling_map cx_errors)
  ∧ (¬ Forall (has_entry gates) coupling_map →
     length cx_errors < length coupling_map).
Proof.
  intros He. split; [|by apply extractCxErrorMap_short].
  revert cx_errors He; induction coupling_map as [|line rest IH]; intros errs He Hall;
    simpl in He.
  - injection He as <-. constructor.
  - inversion Hall as [|? ? Hl Hr]; subst.
    destruct (first_entry gates line) as [item|] eqn:Hitem.
    + inv_bind He as value Hv. inv_bind He as errs' Herrs. injection He as <-.
      apply of_option_Ok in Hv. constructor; [by exists item | by apply IH].
    + unfold has_entry in Hl. rewrite Hitem in Hl. by destruct Hl.
Qed.

Section InterfaceAndWrapper.
Context `{Libraries}.

(** X18.  A link without entry among the gate properties makes routing
    through the wrapper fail.  The error map read from the device data is
    then shorter than the coupling list, and [routeUsingHerr] raises
    [IndexError], whatever the circuit. *)
Theorem missing_entry_fails_routing (gates : list GateProperties)
    (coupling_list : list (nat * nat)) (cx_errors : list Q)
    (circuit : DAGCircuit) (coupling_map : CouplingMap) :
  NoDup coupling_list →
  ¬ Forall (has_entry gates) coupling_list →
  extractCxErrorMap gates coupling_list = Ok cx_errors →
  routeUsingHerr circuit coupling_list coupling_map cx_errors = Raise IndexError.
Proof.
  intros Hnd Hmiss He.
  pose proof (extractCxErrorMap_short _ _ _ He Hmiss) as Hlen.
  unfold routeUsingHerr, noise_graph.
  destruct (lookup_lt_is_Some_2 coupling_list (length cx_errors) Hlen) as [e Hlk].
  rewrite <- (take_drop_middle _ _ _ Hlk) at 2.
  rewrite set_weights_short; [done | | apply set_weights_error].
  by rewrite (list_index_NoDup _ _ _ Hnd Hlk).
Qed.

End InterfaceAndWrapper.

(** ** Gate counts of a routed circuit *)

Lemma occurrences_app (gate_string : string) (l1 l2 : list DAGOpNode) :
  occurrences gate_string (l1 ++ l2)
  = occurrences gate_string l1 + occurrences gate_string l2.
Proof. unfold occurrences. by rewrite filter_app, length_app. Qed.

Lemma count_ops_fold (gate_string : string) (l : list DAGOpNode)
    (ops : gmap string nat) :
  default 0 (foldl (fun ops g => <[name g := S (default 0 (ops !! name g))]> ops)
                   ops l !! gate_string)
  = default 0 (ops !! gate_string) + occurrences gate_string l.
Proof.
  revert ops; induction l as [|g r IH]; intros ops; simpl.
  - unfold occurrences. simpl. lia.
  - rewrite IH. change (g :: r) with ([g] ++ r). rewrite occurrences_app.
    unfold occurrences at 2. 
    destruct (decide (name g = gate_string)) as [<-|Hne].
    + rewrite lookup_insert_eq. rewrite filter_cons_True by done. simpl. lia.
    + rewrite lookup_insert_ne by done. rewrite filter_cons_False by done. simpl. lia.
Qed.

Lemma metricCountGate_occurrences (circuit : DAGCircuit) (gate_string : string) :
  metricCountGate circuit gate_string = occurrences gate_string (nodes circuit).
Proof.
  unfold metricCountGate, count_ops.
  pose proof (count_ops_fold gate_string (nodes circuit) ∅) as Hc.
  rewrite lookup_empty in Hc. simpl in Hc. rewrite <- Hc.
  by destruct (foldl _ _ _ !! gate_string).
Qed.

Lemma occurrences_swaps (gate_string : string) (l : list DAGOpNode) :
  Forall (fun g => name g = "swap") l →
  occurrences gate_string l = if decide (gate_string = "swap") then length l else 0.
Proof.
  unfold occurrences. induction 1 as [|g r Hg _ IH]; simpl.
  - by destruct (decide _).
  - destruct (decide (gate_string = "swap")) as [->|Hne].
    + rewrite filter_cons_True by done. simpl. by rewrite IH.
    + rewrite filter_cons_False by congruence. exact IH.
Qed.

Lemma occurrences_trace (gate_string : string) (layers : list DAGOpNode)
    (t : list LayerTrace) :
  Forall2 layer_ok layers t →
  occurrences gate_string (trace_nodes t)
  = occurrences gate_string layers
    + (if decide (gate_string = "swap") then length (trace_swaps t) else 0).
Proof.
  induction 1 as [|gate s layers t (Hlen & Hsw & l & Hn & _) _ IH].
  - unfold trace_nodes, trace_swaps. simpl. by destruct (decide _).
  - unfold trace_nodes, trace_swaps in *. simpl.
    rewrite !occurrences_app, IH, (occurrences_swaps _ _ Hsw), length_app.
    change (gate :: layers) with ([gate] ++ layers). rewrite occurrences_app.
    assert (Hg : occurrences gate_string [s.2] = occurrences gate_string [gate]).
    { unfold occurrences.
      destruct (decide (name gate = gate_string)) as [E|E].
      - rewrite !filter_cons_True by congruence. done.
      - rewrite !filter_cons_False by congruence. done. }
    rewrite Hg. destruct (decide (gate_string = "swap")); lia.
Qed.

Section GateCounts.
Context `{Libraries}.

(** X19.  Routing through the wrapper changes the count of no gate but the
    swap.  For every gate name other than ["swap"] the difference in
    count between the circuit and the routed circuit is 0, the difference
    in CNOT count in particular; the swap count does not decrease. *)
Theorem routing_changes_only_swap_count (circuit routed : DAGCircuit)
    (coupling_list : list (nat * nat)) (coupling_map : CouplingMap)
    (cx_error_map : list Q) :
  routeUsingHerr circuit coupling_list coupling_map cx_error_map = Ok routed →
  (∀ gate_string, gate_string ≠ "swap" →
                  metricDiffGate circuit routed gate_string = 0%Z)
  ∧ metricDiffCNOT circuit routed = 0%Z
  ∧ (0 <= metricDiffGate circuit routed "swap")%Z.
Proof.
  intros Hr. unfold routeUsingHerr in Hr. inv_bind Hr as g Hg.
  unfold run in Hr. inv_bind Hr as st Hst. injection Hr as <-.
  destruct (run_store_effect _ _ _ Hst) as (t & (_ & _ & _ & _ & Hn) & Ht).
  simpl in Hn.
  assert (Hc : ∀ gate_string,
    metricCountGate (new_dag st) gate_string
    = metricCountGate circuit gate_string
      + (if decide (gate_string = "swap") then length (trace_swaps t) else 0)).
  { intros gs. rewrite !metricCountGate_occurrences, Hn. by apply occurrences_trace. }
  split; [|split].
  - intros gs Hne. unfold metricDiffGate. rewrite Hc.
    destruct (decide (gs = "swap")); [done | lia].
  - unfold metricDiffCNOT, metricCountCNOT. rewrite Hc.
    destruct (decide (CONTROL_NOT_GATE = "swap")); [done | lia].
  - unfold metricDiffGate. rewrite Hc. lia.
Qed.

End GateCounts.

(** ** An operation moved to a better link *)

Section BetterLinkReached.
Context `{Libraries}.

(** X9.  When the better link holds the first qubit of the operation
    (a physical qubit of index at most 256, where the test [is not] of
    line 242 is a test of the values) and not the second, and the second
    has a path to the other end of the link that avoids the first, the
    swaps along that path bring the operation onto the better link: the
    first qubit stays, the second arrives at the other end. *)
Theorem operation_moved_to_better_link (h : HERR) (n : nat) (st st' : Store)
    (gate : DAGOpNode) (v0 v1 p0 p1 d0 d1 : nat) (path : list nat) :
  sound_libraries →
  small_ints_shared →
  p0 ≤ 256 →
  layout_ok n (current_layout st) →
  is_two_qubit_op gate = true →
  qargs gate = [v0; v1] →
  physical_of (current_layout st) v0 = Ok p0 →
  physical_of (current_layout st) v1 = Ok p1 →
  find_better_link h p0 p1 (current_layout st) (searchDepth h) = Ok (Some (d0, d1)) →
  in_pair p0 (d0, d1) = true →
  in_pair p1 (d0, d1) = false →
  find_path_excluding h p1 (if p0 =? d0 then d1 else d0) p0 = Some path →
  route_layer h st gate = Ok st' →
  ∃ gate',
    nodes (new_dag st')
    = nodes (new_dag st) ++ map (fun w : nat * nat => SwapGate w.1 w.2) (links path)
      ++ [gate']
    ∧ name gate' = name gate
    ∧ qargs gate' = [p0; if p0 =? d0 then d1 else d0]
    ∧ ((p0, if p0 =? d0 then d1 else d0) = (d0, d1)
       ∨ (p0, if p0 =? d0 then d1 else d0) = (d1, d0)).
Proof.
  intros Hs Hi Hsmall Hok H2 Hq Hp0 Hp1 Hb Hin0 Hin1 Hpath Hr.
  assert (Hinv : inverse_maps (current_layout st)) by apply Hok.
  apply of_option_Ok in Hp0, Hp1.
  unfold route_layer in Hr. rewrite H2 in Hr.
  inv_bind Hr as st1 Hst1. inv_bind Hr as order Horder. inv_bind Hr as out Hout.
  injection Hr as <-. simpl.
  unfold compose in Hout. simpl in Hout. inv_bind Hout as gate' Hgate'.
  injection Hout as <-.
  destruct (compose_node_readdressed _ _ _ _ _ Horder Hgate') as (Hn & _ & _ & Hre).
  rewrite Hq in Hre.
  inversion Hre as [|? a ? qs Ha Hre' E1 E2]; subst.
  inversion Hre' as [|? b ? qs' Hb' Hre'' E1' E2']; subst.
  inversion Hre''; subst.
  unfold route_gate in Hst1. rewrite Hq in Hst1. cbn [nth] in Hst1.
  unfold physical_of in Hst1. rewrite Hp0, Hp1 in Hst1.
  cbn [of_option mbind result_bind rbind] in Hst1.
  rewrite Hb in Hst1. red_bind Hst1.
  assert (Hfsp : find_shortest_path h (p0, p1) (d0, d1) = Ok (None, Some path)).
  { rewrite <- Hpath. unfold find_shortest_path. rewrite Hin0, Hin1. simpl.
    rewrite (Nat.eqb_sym d0 p0).
    destruct (p0 =? d0) eqn:E0; simpl.
    - apply Nat.eqb_eq in E0. subst d0. rewrite (is_small Hi p0 Hsmall). simpl.
      destruct (d1 =? p0) eqn:E1; simpl; [|reflexivity].
      apply Nat.eqb_eq in E1. subst d1. by rewrite find_path_excluding_to_excluded.
    - destruct (int_is p0 d0) eqn:Eis; simpl; [|reflexivity].
      apply (is_equal Hi) in Eis. apply Nat.eqb_neq in E0. done. }
  rewrite Hfsp in Hst1.
  red_bind Hst1. cbn [fst snd] in Hst1. rewrite !path_hops_links in Hst1.
  simpl app in Hst1. simpl links_of in Hst1.
  destruct (insert_swaps_exact _ _ _ Hinv Hst1) as (_ & Hnodes & Hsw).
  destruct (find_path_excluding_reduced _ _ _ _ _ Hs Hpath)
    as (Hne & Hw & Hhd & Hlast).
  pose proof (reduced_walk_avoids _ _ _ Hw
                (path_from_to_length _ _ _ _ (conj Hw (conj Hhd Hlast)) Hne)) as Hx.
  destruct path as [|x rest]; [done|]. simpl in Hhd. injection Hhd as ->.
  pose proof (chain_moves n _ _ _ v1 p1 Hok Hsw Hp1) as Hm.
  pose proof (chain_fixes n _ _ _ v0 p0 Hok Hsw Hp0 Hx) as Hf.
  exists gate'. split; [by rewrite Hnodes, <- app_assoc|]. split; [done|].
  split.
  - rewrite Hlast in Hm. destruct gate' as [nm qs cs dr]. simpl in *.
    congruence.
  - unfold in_pair in Hin0. simpl in Hin0.
    destruct (p0 =? d0) eqn:E; simpl in Hin0.
    + apply Nat.eqb_eq in E. subst. by left.
    + apply Nat.eqb_eq in Hin0. subst. by right.
Qed.

End BetterLinkReached.

(** ** The errors of [run] *)

Lemma bind_no_error {A B : Type} (e : PyError) (m : result A) (k : A → result B) :
  m ≠ Raise e → (∀ a, m = Ok a → k a ≠ Raise e) → (x ← m; k x) ≠ Raise e.
Proof.
  destruct m as [a|e']; simpl; [intros _ Hk; by apply Hk | intros Hm _ [= ->]; done].
Qed.

Lemma of_option_no_error {A : Type} (e e' : PyError) (o : option A) :
  e' ≠ e → of_option e' o ≠ Raise e.
Proof. destruct o; simpl; congruence. Qed.

Lemma for_each_no_error {A B : Type} (e : PyError) (f : A → result B) (l : list A) :
  (∀ x, f x ≠ Raise e) → for_each f l ≠ Raise e.
Proof.
  intros Hf. induction l as [|x r IH]; simpl; [done|].
  apply bind_no_error; [apply Hf|]. intros y _.
  apply bind_no_error; [apply IH|]. done.
Qed.

Ltac no_error :=
  repeat first
    [ done
    | apply of_option_no_error; done
    | apply for_each_no_error; intros ?
    | apply bind_no_error; [|intros ? ?] ].

Lemma swap_no_error (l : Layout) (a b : nat) : swap l a b ≠ Raise TranspilerError.
Proof. unfold swap, logical_of. no_error. Qed.

Lemma apply_swaps_no_error (pairs : list (nat * nat)) (l : Layout) :
  apply_swaps l pairs ≠ Raise TranspilerError.
Proof.
  revert l; induction pairs as [|w r IH]; intros l; simpl; [done|].
  apply bind_no_error; [apply swap_no_error | intros ? _; apply IH].
Qed.

Lemma compose_no_error (n : nat) (order : list nat) (gs : list DAGOpNode) :
  compose n order gs ≠ Raise TranspilerError.
Proof.
  unfold compose, compose_node. no_error.
  unfold wire. no_error. by destruct (_ <? _).
Qed.

Lemma insert_swaps_no_error (st : Store) (pairs : list (nat * nat)) :
  insert_swaps st pairs ≠ Raise TranspilerError.
Proof.
  unfold insert_swaps.
  apply bind_no_error; [unfold swap_layer, logical_of; no_error|]. intros layer _.
  apply bind_no_error; [unfold reorder_bits, physical_of; no_error|]. intros order _.
  apply bind_no_error; [apply compose_no_error|]. intros placed _.
  apply bind_no_error; [apply apply_swaps_no_error | done].
Qed.

Lemma accumulate_no_error (g : gmap (nat * nat) Q) (pairs : list (nat * nat)) (x : Q) :
  accumulate g x pairs ≠ Raise TranspilerError.
Proof.
  revert x; induction pairs as [|[u v] r IH]; intros x; simpl; [done|].
  apply bind_no_error; [unfold edge_weight; no_error | intros ? _; apply IH].
Qed.

Section RunErrors.
Context `{Libraries}.

Lemma calc_path_accuracy_no_error (h : HERR) (src dst : nat * nat) (l : Layout) :
  calc_path_accuracy h src dst l ≠ Raise TranspilerError.
Proof.
  unfold calc_path_accuracy. apply bind_no_error.
  - intros Hf. by apply find_shortest_path_raises in Hf.
  - intros qp _.
    assert (Hbody :
      (a0 ← accumulate (qubitAccuracy h) 1%Q (path_hops qp.1);
       a1 ← accumulate (qubitAccuracy h) 1%Q (path_hops qp.2);
       opAccuracy ← edge_weight (qubitAccuracy h) dst.1 dst.2;
       Ok (opAccuracy * a0 * a1)%Q) ≠ Raise TranspilerError).
    { apply bind_no_error; [apply accumulate_no_error|]. intros ? _.
      apply bind_no_error; [apply accumulate_no_error|]. intros ? _.
      unfold edge_weight. no_error. }
    destruct qp as [[p0|] [p1|]]; try exact Hbody. done.
Qed.

Lemma within_depth_no_error (cm : CouplingMap) (q1 q2 : nat) (e : nat * nat)
    (depth : nat) :
  within_depth cm q1 q2 e depth ≠ Raise TranspilerError.
Proof.
  unfold within_depth, distance.
  apply bind_no_error; [no_error|]. intros a _. destruct (negb _); [done|].
  apply bind_no_error; [no_error|]. intros b _. destruct (negb _); [done|].
  apply bind_no_error; [no_error|]. intros c _. destruct (negb _); [done|].
  no_error.
Qed.

Lemma find_better_link_loop_no_error (h : HERR) (q1 q2 : nat) (l : Layout)
    (depth : nat) (order : list (nat * nat)) (st : (nat * nat) * Q * bool) :
  find_better_link_loop h q1 q2 l depth order st ≠ Raise TranspilerError.
Proof.
  revert st; induction order as [|e r IH]; intros [[b a] f]; simpl; [done|].
  apply bind_no_error; [apply within_depth_no_error|]. intros near _.
  destruct near; [|apply IH].
  apply bind_no_error; [apply calc_path_accuracy_no_error|]. intros x _.
  destruct (Qgtb x a); apply IH.
Qed.

Lemma find_better_link_no_error (h : HERR) (q1 q2 : nat) (l : Layout) (depth : nat) :
  find_better_link h q1 q2 l depth ≠ Raise TranspilerError.
Proof.
  unfold find_better_link, find_better_link_over.
  apply bind_no_error.
  - unfold baseline_accuracy, edge_weight, calc_shortest_path_accuracy,
      shortest_undirected_path.
    destruct (has_edge _ _ _); [no_error|].
    apply bind_no_error; [no_error | intros ? _; apply accumulate_no_error].
  - intros b _. apply bind_no_error; [apply find_better_link_loop_no_error|].
    intros [[? ?] ?] _. done.
Qed.

Lemma route_gate_no_error (h : HERR) (st : Store) (gate : DAGOpNode) :
  route_gate h st gate ≠ Raise TranspilerError.
Proof.
  unfold route_gate, physical_of.
  apply bind_no_error; [no_error|]. intros p0 _.
  apply bind_no_error; [no_error|]. intros p1 _.
  apply bind_no_error; [apply find_better_link_no_error|]. intros [edge|] _.
  - apply bind_no_error; [|intros ? _; apply insert_swaps_no_error].
    intros Hf. by apply find_shortest_path_raises in Hf.
  - unfold distance, shortest_undirected_path.
    apply bind_no_error; [no_error|]. intros d _. destruct (negb _); [|done].
    apply bind_no_error; [no_error | intros ? _; apply insert_swaps_no_error].
Qed.

Lemma route_layers_no_error (h : HERR) (layers : list DAGOpNode) (st : Store) :
  route_layers h st layers ≠ Raise TranspilerError.
Proof.
  revert st; induction layers as [|g r IH]; intros st; simpl; [done|].
  apply bind_no_error; [|intros ? _; apply IH].
  unfold route_layer.
  apply bind_no_error.
  { destruct (is_two_qubit_op g); [apply route_gate_no_error | done]. }
  intros st1 _. unfold reorder_bits, physical_of.
  apply bind_no_error; [no_error|]. intros order _.
  apply bind_no_error; [apply compose_no_error | done].
Qed.

(** X11.  [run] raises [TranspilerError] exactly when the program has more
    qubits than the device; no later step of the routing raises it. *)
Theorem transpiler_error_iff_too_many_qubits (h : HERR) (d : DAGCircuit) :
  run h d = Raise TranspilerError ↔ size (couplingMap h) < qreg d.
Proof.
  unfold run, run_store. split.
  - destruct (size (couplingMap h) <? qreg d) eqn:E; [by apply Nat.ltb_lt in E|].
    intros Hr. exfalso. revert Hr.
    apply bind_no_error; [apply route_layers_no_error | done].
  - intros Hlt. apply Nat.ltb_lt in Hlt. by rewrite Hlt.
Qed.

End RunErrors.

(** ** The exceptions of a run on the full register *)

Lemma bind_returns_or_raises {A B : Type} (m : result A) (k : A → result B) :
  returns_or_raises m →
  (∀ a, m = Ok a → returns_or_raises (k a)) →
  returns_or_raises (x ← m; k x).
Proof. destruct m as [a|e]; simpl; [intros _ Hk; by apply Hk | done]. Qed.

Lemma for_each_total {A B : Type} (f : A → result B) (l : list A) :
  Forall (fun x => ∃ y, f x = Ok y) l → ∃ ys, for_each f l = Ok ys.
Proof.
  induction 1 as [|x r [y Hy] _ [ys Hys]]; simpl; [eauto|].
  rewrite Hy. simpl. rewrite Hys. simpl. eauto.
Qed.

Lemma foldr_max_ge (es : list (nat * nat)) (e : nat * nat) :
  In e es → Nat.max e.1 e.2 ≤ foldr (fun e m => Nat.max (Nat.max e.1 e.2) m) 0 es.
Proof.
  induction es as [|x r IH]; simpl; [done|]. intros [->|Hin]; [lia|].
  specialize (IH Hin). lia.
Qed.

Lemma linked_lt_size (cm : CouplingMap) (u v : nat) :
  linked (get_edges cm) u v → u < size cm ∧ v < size cm.
Proof.
  unfold size. intros [Hin|Hin]; pose proof (foldr_max_ge _ _ Hin) as Hle;
    simpl in Hle; destruct (get_edges cm); try done; lia.
Qed.

Lemma layout_ok_owner (n : nat) (l : Layout) (p : nat) :
  layout_ok n l → p < n → ∃ v, p2v l !! p = Some v ∧ v < n.
Proof.
  intros (Hinv & Hp & Hv) Hlt. destruct (proj2 (Hp p) Hlt) as [v Hpv].
  exists v. split; [done|]. apply Hv. apply Hinv in Hpv. eauto.
Qed.

Lemma layout_ok_place (n : nat) (l : Layout) (v : nat) :
  layout_ok n l → v < n → ∃ p, v2p l !! v = Some p ∧ p < n.
Proof.
  intros (Hinv & Hp & Hv) Hlt. destruct (proj2 (Hv v) Hlt) as [p Hvp].
  exists p. split; [done|]. apply Hp. apply Hinv in Hvp. eauto.
Qed.

Lemma reorder_bits_total (n : nat) (l : Layout) :
  layout_ok n l →
  ∃ order, reorder_bits l n = Ok order
           ∧ ∀ v, v < n → ∃ p, order !! v = Some p ∧ p < n.
Proof.
  intros Hok. unfold reorder_bits.
  destruct (for_each_total (physical_of l) (seq 0 n)) as [order Ho].
  { apply Forall_forall. intros v Hv. apply elem_of_seq in Hv.
    destruct (layout_ok_place n l v Hok ltac:(lia)) as (p & Hp & _).
    exists p. unfold physical_of. by rewrite Hp. }
  exists order. split; [done|]. intros v Hv.
  pose proof (for_each_Forall2 _ _ _ Ho) as Hf.
  destruct (Forall2_lookup_l _ _ _ v v Hf (lookup_seq_lt _ _ _ Hv)) as (p & Hp & Hpv).
  exists p. split; [done|]. apply of_option_Ok in Hpv.
  destruct Hok as (Hinv & Hpn & _). apply Hpn. apply Hinv in Hpv. eauto.
Qed.

Lemma compose_total (n : nat) (order : list nat) (gs : list DAGOpNode) :
  (∀ v, v < n → ∃ p, order !! v = Some p ∧ p < n) →
  Forall (fun g => Forall (fun v => v < n) (qargs g)) gs →
  ∃ placed, compose n order gs = Ok placed.
Proof.
  intros Ho Hgs. unfold compose. apply for_each_total.
  eapply Forall_impl; [exact Hgs|]. intros g Hg. simpl in Hg. unfold compose_node.
  destruct (for_each_total (wire n order) (qargs g)) as [ps Hps].
  { eapply Forall_impl; [exact Hg|]. intros v Hv. simpl in Hv.
    destruct (Ho v Hv) as (p & Hp & Hlt). exists p. unfold wire. rewrite Hp. simpl.
    apply Nat.ltb_lt in Hlt. by rewrite Hlt. }
  rewrite Hps. simpl. eauto.
Qed.

Lemma apply_swaps_total (n : nat) (pairs : list (nat * nat)) (l : Layout) :
  layout_ok n l →
  Forall (fun w : nat * nat => w.1 < n ∧ w.2 < n) pairs →
  ∃ l', apply_swaps l pairs = Ok l'.
Proof.
  intros Hok Hall. revert l Hok; induction Hall as [|w r [H1 H2] _ IH]; intros l Hok;
    simpl; [eauto|].
  destruct (layout_ok_owner n l _ Hok H1) as (v1 & Hv1 & _).
  destruct (layout_ok_owner n l _ Hok H2) as (v2 & Hv2 & _).
  assert (Hs : ∃ l1, swap l w.1 w.2 = Ok l1).
  { unfold swap, logical_of. rewrite Hv1, Hv2. simpl. eauto. }
  destruct Hs as [l1 Hl1]. rewrite Hl1. simpl. apply IH.
  by eapply swap_layout_ok.
Qed.

Lemma swap_layer_total (n : nat) (l : Layout) (pairs : list (nat * nat)) :
  layout_ok n l →
  Forall (fun w : nat * nat => w.1 < n ∧ w.2 < n) pairs →
  ∃ layer, swap_layer l pairs = Ok layer
           ∧ Forall (fun g => Forall (fun v => v < n) (qargs g)) layer.
Proof.
  intros Hok Hall. unfold swap_layer, logical_of.
  induction Hall as [|w r [H1 H2] _ (layer & Hl & Hq)].
  - exists []. split; [done | constructor].
  - destruct (layout_ok_owner n l _ Hok H1) as (v1 & Hv1 & Hlt1).
    destruct (layout_ok_owner n l _ Hok H2) as (v2 & Hv2 & Hlt2).
    cbn [for_each]. cbn beta. rewrite Hv1, Hv2, Hl.
    cbn [of_option mbind result_bind rbind].
    eexists. split; [done|]. constructor; [|done]. simpl. by repeat constructor.
Qed.

Lemma insert_swaps_total (n : nat) (st : Store) (pairs : list (nat * nat)) :
  layout_ok n (current_layout st) →
  qreg (new_dag st) = n →
  Forall (fun w : nat * nat => w.1 < n ∧ w.2 < n) pairs →
  ∃ st', insert_swaps st pairs = Ok st'.
Proof.
  intros Hok Hn Hall. unfold insert_swaps.
  destruct (swap_layer_total n _ _ Hok Hall) as (layer & -> & Hq).
  destruct (reorder_bits_total n _ Hok) as (order & Ho & Hlt).
  rewrite Hn, Ho. simpl.
  destruct (compose_total n order layer Hlt Hq) as [placed ->].
  destruct (apply_swaps_total n pairs _ Hok Hall) as [l' ->]. simpl. eauto.
Qed.

Section FullRegister.
Context `{Libraries}.

Lemma find_better_link_loop_benign (h : HERR) (q1 q2 : nat) (l : Layout)
    (depth : nat) (order : list (nat * nat)) (st : (nat * nat) * Q * bool) :
  sound_libraries →
  weights_cover_links h = true →
  Forall (fun e : nat * nat => linked (get_edges (couplingMap h)) e.1 e.2) order →
  returns_or_raises (find_better_link_loop h q1 q2 l depth order st).
Proof.
  intros Hs Hc Hall. revert st; induction Hall as [|e r He _ IH]; intros [[b a] f];
    simpl; [done|].
  apply bind_returns_or_raises.
  - unfold within_depth, distance.
    destruct (rx_distance _ q1 e.1); simpl; [|by left]. destruct (negb _); [done|].
    destruct (rx_distance _ q1 e.2); simpl; [|by left]. destruct (negb _); [done|].
    destruct (rx_distance _ q2 e.1); simpl; [|by left]. destruct (negb _); [done|].
    destruct (rx_distance _ q2 e.2); simpl; [done | by left].
  - intros near _. destruct near; [|apply IH].
    apply bind_returns_or_raises.
    + destruct (calc_path_accuracy_covered h b e l Hs Hc He) as [[x ->]| ->];
        simpl; [done | by right].
    + intros x _. destruct (Qgtb x a); apply IH.
Qed.

Lemma find_better_link_benign (h : HERR) (q1 q2 : nat) (l : Layout) (depth : nat) :
  sound_libraries →
  weights_cover_links h = true →
  returns_or_raises (find_better_link h q1 q2 l depth).
Proof.
  intros Hs Hc. unfold find_better_link, find_better_link_over.
  apply bind_returns_or_raises.
  - destruct (baseline_covered h q1 q2 Hs Hc) as [[b ->]| ->]; simpl; [done | by left].
  - intros b _. apply bind_returns_or_raises.
    + apply find_better_link_loop_benign; try done.
      apply Forall_forall. intros e He. apply list_elem_of_In in He.
      unfold unique_edges in He. apply (proj1 (set_members Hs _ _)) in He.
      by apply sorted_edge_linked in He as [? _].
    + intros [[? ?] ?] _. done.
Qed.

Lemma links_lt_size (cm : CouplingMap) (pairs : list (nat * nat)) :
  Forall (fun w : nat * nat => linked (get_edges cm) w.1 w.2) pairs →
  Forall (fun w : nat * nat => w.1 < size cm ∧ w.2 < size cm) pairs.
Proof.
  intros Hall. eapply Forall_impl; [exact Hall|]. intros w Hw. by apply linked_lt_size.
Qed.

Lemma route_gate_benign (h : HERR) (st : Store) (gate : DAGOpNode) :
  sound_libraries →
  weights_cover_links h = true →
  layout_ok (size (couplingMap h)) (current_layout st) →
  qreg (new_dag st) = size (couplingMap h) →
  is_two_qubit_op gate = true →
  Forall (fun v => v < size (couplingMap h)) (qargs gate) →
  returns_or_raises (route_gate h st gate).
Proof.
  intros Hs Hc Hok Hn H2 Hq. unfold route_gate.
  unfold is_two_qubit_op in H2. apply andb_true_iff in H2 as [_ Hlen].
  apply Nat.eqb_eq in Hlen.
  destruct (qargs gate) as [|v0 [|v1 [|? ?]]]; simpl in Hlen; try lia.
  inversion Hq as [|? ? Hv0 Hq']; subst. inversion Hq' as [|? ? Hv1 _]; subst.
  destruct (layout_ok_place _ _ _ Hok Hv0) as (p0 & Hp0 & _).
  destruct (layout_ok_place _ _ _ Hok Hv1) as (p1 & Hp1 & _).
  cbn [nth]. unfold physical_of. rewrite Hp0, Hp1.
  cbn [of_option mbind result_bind rbind].
  apply bind_returns_or_raises; [by apply find_better_link_benign|].
  intros [edge|] _.
  - destruct (find_shortest_path h (p0, p1) edge) as [qp|e] eqn:Hf.
    + cbn [mbind result_bind rbind].
      destruct (find_shortest_path_choice _ _ _ _ _ Hf) as [H0 H1].
      destruct (insert_swaps_total _ st (path_hops qp.1 ++ path_hops qp.2) Hok Hn)
        as [st' ->]; [|done].
      apply links_lt_size, Forall_app. split; eapply path_hops_linked; eauto.
    + apply find_shortest_path_raises in Hf. subst e. simpl. by right.
  - unfold distance, shortest_undirected_path.
    destruct (rx_distance _ p0 p1) as [d|]; simpl; [|by left].
    destruct (negb (d =? 1)); [|done].
    destruct (rx_shortest_path _ p0 p1) as [path|] eqn:Hp; simpl; [|by left].
    apply (rx_path Hs) in Hp as ((Hw & _) & _).
    destruct (insert_swaps_total _ st (hops path (length path - 2)) Hok Hn)
      as [st' ->]; [|done].
    apply links_lt_size. rewrite hops_all_but_last.
    by apply Forall_all_but_last, walk_links.
Qed.

Lemma route_layers_benign (h : HERR) (layers : list DAGOpNode) (st : Store) :
  sound_libraries →
  weights_cover_links h = true →
  layout_ok (size (couplingMap h)) (current_layout st) →
  qreg (new_dag st) = size (couplingMap h) →
  Forall (fun g => Forall (fun v => v < size (couplingMap h)) (qargs g)) layers →
  returns_or_raises (route_layers h st layers).
Proof.
  intros Hs Hc. revert st; induction layers as [|g r IH]; intros st Hok Hn Hall;
    simpl; [done|].
  inversion Hall as [|? ? Hg Hr]; subst.
  apply bind_returns_or_raises.
  - unfold route_layer. apply bind_returns_or_raises.
    + destruct (is_two_qubit_op g) eqn:H2; [by apply route_gate_benign | done].
    + intros st1 Hst1.
      assert (Hst : layout_ok (size (couplingMap h)) (current_layout st1)
                    ∧ qreg (new_dag st1) = size (couplingMap h)).
      { destruct (is_two_qubit_op g); [|by injection Hst1 as <-].
        destruct (route_gate_effect _ _ _ _ Hst1) as (sw & pl & (_ & Hq & _ & Ha & _) & _).
        split; [by eapply apply_swaps_layout_ok | congruence]. }
      destruct Hst as [Hok1 Hn1].
      destruct (reorder_bits_total _ _ Hok1) as (order & Ho & Hlt).
      rewrite Hn1, Ho. cbn [mbind result_bind rbind].
      destruct (compose_total _ order [g] Hlt) as [placed ->]; [by constructor|].
      done.
  - intros st' Hst'.
    destruct (route_layer_effect _ _ _ _ Hst')
      as (sw & pl & g' & (_ & Hq & _ & Ha & _) & _).
    apply IH; [by eapply apply_swaps_layout_ok | congruence | done].
Qed.

(** X12.  For a program on the full register of a device that has a weight
    on every link, [run] returns a circuit or raises [CouplingError] or
    [TypeError]: no lookup in the layout, in the weighted graph or in the
    order of the bits fails. *)
Theorem full_register_run_errors (h : HERR) (d : DAGCircuit) :
  sound_libraries →
  weights_cover_links h = true →
  qreg d = size (couplingMap h) →
  well_formed d = true →
  returns_or_raises (run h d).
Proof.
  intros Hs Hc Hn Hwf. unfold run, run_store.
  rewrite Hn, Nat.ltb_irrefl.
  apply bind_returns_or_raises; [|done].
  apply route_layers_benign; try done.
  - simpl. rewrite Hn. apply generate_trivial_layout_ok.
  - unfold well_formed in Hwf. rewrite Hn in Hwf.
    apply Forall_forall. intros g Hg. apply list_elem_of_In in Hg.
    rewrite forallb_forall in Hwf. specialize (Hwf g Hg).
    apply Forall_forall. intros v Hv. apply list_elem_of_In in Hv.
    rewrite forallb_forall in Hwf. by apply Nat.ltb_lt, Hwf.
Qed.

End FullRegister.

(** ** The accuracy of a simulation *)

Lemma rfind_space_None (k : string) : has_space k = false → rfind_space k = None.
Proof.
  induction k as [|c r IH]; simpl; [done|]. intros Hs.
  apply orb_false_iff in Hs as [Hc Hr]. by rewrite (IH Hr), Hc.
Qed.

Lemma rename_keys_identity (keys : list string) (m : gmap string nat) :
  Forall (fun k => is_Some (m !! k)) keys →
  rename_keys (map (fun k => (k, k)) keys) m = Ok m.
Proof.
  induction 1 as [|k r [v Hv] _ IH]; simpl; [done|].
  rewrite Hv. simpl. by rewrite insert_delete_id.
Qed.

(** X20.  When no key of the counts has a space, the translation of the keys
    changes nothing and [metricAccuracy] is the number of shots counted
    under the correct results divided by the number of iterations. *)
Theorem accuracy_without_register_separator (iterations : nat)
    (counts : list (string * nat)) (correct_results : list string) :
  NoDup counts.*1 →
  forallb (fun kv : string * nat => negb (has_space kv.1)) counts = true →
  metricAccuracy iterations counts correct_results
  = Ok (true_divide (num_correct (list_to_map counts) correct_results) iterations).
Proof.
  intros Hnd Hall. unfold metricAccuracy.
  assert (Ht : translate counts = map (fun k => (k, k)) counts.*1).
  { unfold translate. rewrite forallb_forall in Hall.
    rewrite <- list_fmap_compose. apply map_ext_in. intros [k v] Hin. simpl.
    specialize (Hall _ Hin). simpl in Hall. apply negb_true_iff in Hall.
    unfold new_key. by rewrite rfind_space_None. }
  rewrite Ht, rename_keys_identity; [done|].
  apply Forall_forall. intros k Hk. apply list_elem_of_fmap in Hk as ([k' v] & -> & Hin).
  exists v. by apply elem_of_list_to_map_1.
Qed.

Lemma rename_step_keeps (o n x : string) (v : nat) (m : gmap string nat) :
  x ≠ o → x ≠ n → <[n := v]> (delete o m) !! x = m !! x.
Proof. intros Ho Hn. rewrite lookup_insert_ne by done. by rewrite lookup_delete_ne. Qed.

(** The renaming of [rest] can go on after the step for [(o, n)]. *)
Lemma rename_step_ready (o n : string) (v : nat) (rest : list (string * string))
    (m : gmap string nat) :
  o ∉ rest.*1 →
  n ∉ rest.*1 →
  Forall (fun on : string * string => is_Some (m !! on.1) ∧ on.2 ∉ o :: rest.*1) rest →
  Forall (fun on : string * string =>
            is_Some (<[n := v]> (delete o m) !! on.1) ∧ on.2 ∉ rest.*1) rest.
Proof.
  intros Ho Hn Hc. apply Forall_forall. intros [o' n'] Hin.
  pose proof (proj1 (Forall_forall _ _) Hc _ Hin) as [Hs Hn']. simpl in *.
  assert (Ho' : o' ∈ rest.*1) by (apply list_elem_of_fmap; by exists (o', n')).
  apply not_elem_of_cons in Hn' as [_ Hn'].
  split; [|done]. rewrite rename_step_keeps; [done | |]; intros ->; done.
Qed.

Lemma rename_keys_miss (tr : list (string * string)) (m : gmap string nat) (x : string) :
  NoDup tr.*1 →
  Forall (fun on : string * string => is_Some (m !! on.1) ∧ on.2 ∉ tr.*1) tr →
  Forall (fun on : string * string => on.1 ≠ x ∧ on.2 ≠ x) tr →
  ∃ m', rename_keys tr m = Ok m' ∧ m' !! x = m !! x.
Proof.
  revert m; induction tr as [|[o n] rest IH]; intros m Hnd Hc Hx; simpl.
  - eauto.
  - rewrite fmap_cons in Hnd, Hc. simpl in Hnd, Hc.
    apply NoDup_cons in Hnd as [Ho Hnd'].
    inversion Hc as [|? ? [[v Hv] Hn] Hc']; subst.
    inversion Hx as [|? ? [Hox Hnx] Hx']; subst. simpl in *.
    apply not_elem_of_cons in Hn as [_ Hn].
    rewrite Hv. simpl.
    destruct (IH (<[n := v]> (delete o m)) Hnd') as (m' & Hm' & Hl);
      [by apply rename_step_ready | done |].
    exists m'. split; [done|]. rewrite Hl. by apply rename_step_keeps.
Qed.

Lemma rename_keys_hit (pre post : list (string * string)) (o n : string)
    (m : gmap string nat) :
  NoDup (pre ++ (o, n) :: post).*1 →
  Forall (fun on : string * string =>
            is_Some (m !! on.1) ∧ on.2 ∉ (pre ++ (o, n) :: post).*1)
         (pre ++ (o, n) :: post) →
  Forall (fun on : string * string => on.2 ≠ n) post →
  ∃ m', rename_keys (pre ++ (o, n) :: post) m = Ok m' ∧ m' !! n = m !! o.
Proof.
  revert m; induction pre as [|[o1 n1] pre IH]; intros m Hnd Hc Hpost.
  - simpl in *. apply NoDup_cons in Hnd as [Ho Hnd'].
    inversion Hc as [|? ? [[v Hv] Hn] Hc']; subst. simpl in *.
    apply not_elem_of_cons in Hn as [_ Hn].
    rewrite Hv. simpl.
    destruct (rename_keys_miss post (<[n := v]> (delete o m)) n Hnd')
      as (m' & Hm' & Hl); [by apply rename_step_ready | |].
    + apply Forall_forall. intros [o' n'] Hin.
      pose proof (proj1 (Forall_forall _ _) Hpost _ Hin) as Hne. simpl in *.
      assert (o' ∈ post.*1) by (apply list_elem_of_fmap; by exists (o', n')).
      split; [intros ->; done | done].
    + exists m'. split; [done|]. by rewrite Hl, lookup_insert_eq.
  - simpl in *. apply NoDup_cons in Hnd as [Ho Hnd'].
    inversion Hc as [|? ? [[v Hv] Hn] Hc']; subst. simpl in *.
    apply not_elem_of_cons in Hn as [_ Hn].
    rewrite Hv. simpl.
    assert (Hoin : o ∈ (pre ++ (o, n) :: post).*1).
    { rewrite fmap_app, fmap_cons. apply elem_of_app. right. by left. }
    destruct (IH (<[n1 := v]> (delete o1 m)) Hnd') as (m' & Hm' & Hl);
      [by apply rename_step_ready | done |].
    exists m'. split; [done|]. rewrite Hl.
    apply rename_step_keeps; intros ->; done.
Qed.

(** X21.  Counts whose keys are translated to the same key are not added
    up: the later one replaces the earlier one.  When no key of the
    counts is itself the translation of a key, the accuracy for a single
    correct result is the count of the last key translated to it,
    divided by the number of iterations; the counts of the earlier keys
    with the same translation are lost. *)
Theorem merged_keys_keep_last_count (iterations : nat)
    (pre post : list (string * nat)) (k : string) (v : nat) :
  NoDup (pre ++ (k, v) :: post).*1 →
  Forall (fun kv : string * nat => new_key kv.1 ∉ (pre ++ (k, v) :: post).*1)
         (pre ++ (k, v) :: post) →
  Forall (fun kv : string * nat => new_key kv.1 ≠ new_key k) post →
  metricAccuracy iterations (pre ++ (k, v) :: post) [new_key k]
  = Ok (true_divide v iterations).
Proof.
  intros Hnd Hnew Hpost. unfold metricAccuracy.
  set (counts := pre ++ (k, v) :: post) in *.
  assert (Holds : (translate counts).*1 = counts.*1).
  { unfold translate. rewrite <- list_fmap_compose. by apply list_fmap_ext. }
  assert (Ht : translate counts
               = translate pre ++ (k, new_key k) :: translate post).
  { unfold translate, counts. by rewrite map_app. }
  destruct (rename_keys_hit (translate pre) (translate post) k (new_key k)
              (list_to_map counts)) as (m' & Hm' & Hl).
  - by rewrite <- Ht, Holds.
  - rewrite <- Ht, Holds. unfold translate. apply Forall_fmap.
    apply Forall_forall. intros [k' v'] Hin. simpl. split.
    + exists v'. by apply elem_of_list_to_map_1.
    + exact (proj1 (Forall_forall _ _) Hnew _ Hin).
  - unfold translate. apply Forall_fmap.
    eapply Forall_impl; [exact Hpost|]. by intros [k' v'].
  - rewrite <- Ht in Hm'. rewrite Hm'. simpl. unfold num_correct. simpl.
    rewrite Hl. rewrite (elem_of_list_to_map_1 counts k v Hnd); [done|].
    unfold counts. apply elem_of_app. right. by left.
Qed.

Lemma rename_keys_total (tr : list (string * string)) (m : gmap string nat) :
  NoDup tr.*1 →
  Forall (fun on : string * string => is_Some (m !! on.1)) tr →
  ∃ m', rename_keys tr m = Ok m'.
Proof.
  revert m; induction tr as [|[o n] rest IH]; intros m Hnd Hc; simpl; [eauto|].
  rewrite fmap_cons in Hnd. simpl in Hnd. apply NoDup_cons in Hnd as [Ho Hnd'].
  inversion Hc as [|? ? [v Hv] Hc']; subst. simpl in *. rewrite Hv. simpl.
  apply IH; [done|]. apply Forall_forall. intros [o' n'] Hin.
  pose proof (proj1 (Forall_forall _ _) Hc' _ Hin) as Hs. simpl in *.
  assert (Ho' : o' ∈ rest.*1) by (apply list_elem_of_fmap; by exists (o', n')).
  destruct (decide (o' = n)) as [->|Hne]; [rewrite lookup_insert_eq; eauto|].
  rewrite rename_step_keeps; [done | intros ->; done | done].
Qed.

(** X22.  On the counts of a dictionary, [metricAccuracy] raises no
    [KeyError]: every key that the translation pops is still present when
    it is popped.  The division by the number of iterations is the only
    step that can fail, and it fails exactly when that number is 0. *)
Theorem accuracy_fails_only_without_iterations (iterations : nat)
    (counts : list (string * nat)) (correct_results : list string) :
  NoDup counts.*1 →
  ∃ num : nat,
    metricAccuracy iterations counts correct_results
    = Ok (if iterations =? 0 then None
          else Some (Z.of_nat num # Pos.of_nat iterations)%Q).
Proof.
  intros Hnd. unfold metricAccuracy.
  destruct (rename_keys_total (translate counts) (list_to_map counts)) as [m' ->].
  - unfold translate. rewrite <- list_fmap_compose.
    by rewrite (list_fmap_ext _ fst counts) by done.
  - unfold translate. apply Forall_fmap. apply Forall_forall. intros [k v] Hin.
    simpl. exists v. by apply elem_of_list_to_map_1.
  - simpl. by exists (num_correct m' correct_results).
Qed.

(** ** Swap chains and the layout *)

Lemma swap_layer_raises (n : nat) (pairs : list (nat * nat)) (l l' : Layout)
    (e : PyError) :
  layout_ok n l → layout_ok n l' →
  swap_layer l pairs = Raise e → apply_swaps l' pairs = Raise e.
Proof.
  intros Hok. revert l'. induction pairs as [|w r IH]; intros l' Hok' Hs;
    unfold swap_layer in Hs; simpl in Hs; [discriminate|].
  simpl. unfold swap.
  assert (Hdom : ∀ p, is_Some (p2v l !! p) ↔ is_Some (p2v l' !! p)).
  { intros p. destruct Hok as (_ & Hp & _), Hok' as (_ & Hp' & _).
    by rewrite Hp, Hp'. }
  unfold logical_of in *.
  destruct (p2v l !! w.1) as [a|] eqn:E1.
  - destruct (proj1 (Hdom w.1) ltac:(eauto)) as [a' Ea']. rewrite Ea'. simpl in *.
    destruct (p2v l !! w.2) as [b|] eqn:E2.
    + destruct (proj1 (Hdom w.2) ltac:(eauto)) as [b' Eb']. rewrite Eb'. simpl in *.
      apply IH.
      * apply (swap_layout_ok n l' _ w.1 w.2 Hok').
        unfold swap, logical_of. by rewrite Ea', Eb'.
      * unfold swap_layer. destruct (for_each _ r); [discriminate | done].
    + destruct (p2v l' !! w.2) as [b'|] eqn:Eb'.
      * destruct (proj2 (Hdom w.2) ltac:(eauto)) as [? ?]. congruence.
      * simpl in *. by injection Hs as <-.
  - destruct (p2v l' !! w.1) as [a'|] eqn:Ea'.
    + destruct (proj2 (Hdom w.1) ltac:(eauto)) as [? ?]. congruence.
    + simpl in *. by injection Hs as <-.
Qed.

Lemma swap_layer_wires (n : nat) (l : Layout) (pairs : list (nat * nat))
    (layer : list DAGOpNode) :
  layout_ok n l → swap_layer l pairs = Ok layer →
  Forall (fun w : nat * nat => w.1 < n ∧ w.2 < n) pairs.
Proof.
  intros (_ & Hp & _) Hs. apply swap_layer_addressed in Hs.
  induction Hs as [|w g pairs layer (q1 & q2 & Hq1 & Hq2 & _) _ IH]; constructor;
    [|done].
  split; apply Hp; eauto.
Qed.

Lemma store_eq (st st' : Store) :
  dag st' = dag st → qreg (new_dag st') = qreg (new_dag st) →
  cregs (new_dag st') = cregs (new_dag st) →
  nodes (new_dag st') = nodes (new_dag st) →
  current_layout st' = current_layout st → st' = st.
Proof.
  destruct st as [d [q c ns] l], st' as [d' [q' c' ns'] l']. simpl.
  by intros -> -> -> -> ->.
Qed.

Section ChainForms.
Context `{Libraries}.

Lemma insert_swaps_chain_result (n : nat) (st : Store) (pairs : list (nat * nat)) :
  layout_ok n (current_layout st) →
  qreg (new_dag st) = n →
  insert_swaps st pairs = chain_result st pairs.
Proof.
  intros Hok Hn. unfold chain_result.
  destruct (swap_layer (current_layout st) pairs) as [layer|e] eqn:Hl.
  - pose proof (swap_layer_wires _ _ _ _ Hok Hl) as Hall.
    destruct (insert_swaps_total n st pairs Hok Hn Hall) as [st' Hst'].
    rewrite Hst'.
    destruct (insert_swaps_frame _ _ _ Hst') as (Hd & Hq & Hc & Hs & _).
    destruct (insert_swaps_exact _ _ _ (proj1 Hok) Hst') as (_ & Hnodes & _).
    rewrite Hs. simpl. f_equal. by apply store_eq.
  - rewrite (swap_layer_raises n _ _ _ e Hok Hok Hl). unfold insert_swaps.
    by rewrite Hl.
Qed.

Lemma spec_insert_swaps_chain_result (n : nat) (pairs : list (nat * nat)) (st : Store) :
  layout_ok n (current_layout st) →
  qreg (new_dag st) = n →
  spec_insert_swaps_immediate st pairs = chain_result st pairs.
Proof.
  revert st; induction pairs as [|w r IH]; intros st Hok Hn; unfold chain_result.
  - simpl. f_equal. apply store_eq; simpl; try done. by rewrite app_nil_r.
  - cbn [spec_insert_swaps_immediate apply_swaps].
    destruct (logical_of (current_layout st) w.1) as [q1|e1] eqn:E1;
      [|unfold swap; rewrite E1; reflexivity].
    destruct (logical_of (current_layout st) w.2) as [q2|e2] eqn:E2;
      [|unfold swap; rewrite E1, E2; reflexivity].
    cbn [mbind result_bind rbind].
    assert (Hsw : ∃ l1, swap (current_layout st) w.1 w.2 = Ok l1).
    { unfold swap. rewrite E1, E2. simpl. eauto. }
    destruct Hsw as [l1 Hl1].
    assert (Hi : insert_swaps st [w]
                 = Ok {| dag := dag st;
                         new_dag := append_nodes (new_dag st) [SwapGate w.1 w.2];
                         current_layout := l1 |}).
    { rewrite (insert_swaps_chain_result n st [w] Hok Hn). unfold chain_result.
      simpl. by rewrite Hl1. }
    unfold insert_swaps, swap_layer in Hi. cbn [for_each] in Hi.
    rewrite E1, E2 in Hi. cbn [mbind result_bind rbind] in Hi.
    destruct (reorder_bits (current_layout st) (qreg (new_dag st))) as [order|e];
      [|discriminate].
    cbn [mbind result_bind rbind] in *.
    destruct (compose (qreg (new_dag st)) order [SwapGate q1 q2]) as [placed|e];
      [|discriminate].
    cbn [mbind result_bind rbind] in *. cbn [apply_swaps] in Hi. rewrite Hl1 in Hi.
    cbn [mbind result_bind rbind] in Hi. injection Hi as Hplaced.
    rewrite Hl1. cbn [mbind result_bind rbind].
    rewrite IH.
    + unfold chain_result. simpl.
      destruct (apply_swaps l1 r) as [l'|e]; [|done]. simpl. f_equal.
      apply store_eq; simpl; try done.
      apply app_inv_head in Hplaced. subst placed. by rewrite <- app_assoc.
    + simpl. by apply (swap_layout_ok n (current_layout st) _ w.1 w.2 Hok).
    + simpl. done.
Qed.

(** C7.  When a better link is found, the router appends one swap per
    consecutive pair of each assignment path that is not [None], in path
    order, each acting on that pair of physical qubits, and applies these
    swaps to the layout in the same order.  The source builds the whole
    chain from the layout as it stands before the chain and updates the
    layout once the chain is placed; the circuit, the layout and the
    exceptions are those of the chain of the specification, where every
    swap is applied to the layout immediately and the next swap
    instruction is addressed using the updated layout. *)
Theorem better_link_swap_chain (h : HERR) (st : Store) (gate : DAGOpNode)
    (p0 p1 : nat) (edge : nat * nat)
    (swapPath : option (list nat) * option (list nat)) :
  layout_ok (qreg (new_dag st)) (current_layout st) →
  physical_of (current_layout st) (nth 0 (qargs gate) 0) = Ok p0 →
  physical_of (current_layout st) (nth 1 (qargs gate) 0) = Ok p1 →
  find_better_link h p0 p1 (current_layout st) (searchDepth h) = Ok (Some edge) →
  find_shortest_path h (p0, p1) edge = Ok swapPath →
  let chain := links_of swapPath.1 ++ links_of swapPath.2 in
  route_gate h st gate = spec_insert_swaps_immediate st chain
  ∧ route_gate h st gate = chain_result st chain.
Proof.
  intros Hok Hp0 Hp1 Hb Hf chain.
  assert (Hr : route_gate h st gate = insert_swaps st chain).
  { unfold route_gate. rewrite Hp0, Hp1. cbn [mbind result_bind rbind].
    rewrite Hb. cbn [mbind result_bind rbind]. rewrite Hf.
    cbn [mbind result_bind rbind]. by rewrite !path_hops_links. }
  rewrite Hr, (insert_swaps_chain_result _ st chain Hok eq_refl).
  split; [|done]. symmetry. by apply spec_insert_swaps_chain_result with (n := qreg (new_dag st)).
Qed.

End ChainForms.

(** ** The input circuit as an object *)

Lemma deref_app (σ ext : list DAGCircuit) (r : nat) :
  r < length σ → deref (σ ++ ext) r = deref σ r.
Proof. intros Hr. unfold deref. by rewrite app_nth1. Qed.

Lemma deref_new (σ : list DAGCircuit) (c : DAGCircuit) : deref (σ ++ [c]) (length σ) = c.
Proof. unfold deref. rewrite app_nth2; [|lia]. by rewrite Nat.sub_diag. Qed.

Lemma deref_insert (σ : list DAGCircuit) (r : nat) (c : DAGCircuit) :
  r < length σ → deref (<[r := c]> σ) r = c.
Proof.
  intros Hr. unfold deref. apply nth_lookup_Some. by apply list_lookup_insert_eq.
Qed.

Lemma deref_insert_ne (σ : list DAGCircuit) (r r' : nat) (c : DAGCircuit) :
  r ≠ r' → deref (<[r := c]> σ) r' = deref σ r'.
Proof.
  intros Hr. unfold deref. rewrite !nth_lookup. by rewrite list_lookup_insert_ne.
Qed.

Lemma frame_refl (r : nat) (σ : list DAGCircuit) : frame r σ σ.
Proof. split; [lia | done]. Qed.

Lemma frame_trans (r : nat) (σ1 σ2 σ3 : list DAGCircuit) :
  frame r σ1 σ2 → frame r σ2 σ3 → frame r σ1 σ3.
Proof.
  intros [H1 H1'] [H2 H2']. split; [lia|]. intros r' Hlt Hne.
  rewrite H2'; [by apply H1' | lia | done].
Qed.

Lemma simulates_bind {A A' B B' : Type} (m : Prog A) (k : A → Prog A') (σ : list DAGCircuit)
    (v : result B) (k' : B → result B') (R : A → (list DAGCircuit) → B → Prop)
    (R' : A' → (list DAGCircuit) → B' → Prop) :
  simulates m σ v R →
  (∀ a σ' b, R a σ' b → simulates (k a) σ' (k' b) R') →
  simulates (a ← m; k a) σ (b ← v; k' b) R'.
Proof.
  unfold simulates, mbind, prog_bind, result_bind, rbind.
  destruct (m σ) as [[a σ']|e], v as [b|e']; try done.
  intros HR Hk. by apply Hk.
Qed.

Lemma simulates_get {A B : Type} (r : nat) (k : DAGCircuit → Prog A)
    (σ : list DAGCircuit) (v : result B) (R : A → list DAGCircuit → B → Prop) :
  simulates (k (deref σ r)) σ v R → simulates (x ← get r; k x) σ v R.
Proof. done. Qed.

Lemma simulates_step {A A' B : Type} (m : Prog A) (k : A → Prog A')
    (σ σ1 : list DAGCircuit) (a : A) (v : result B)
    (R : A' → list DAGCircuit → B → Prop) :
  m σ = Ok (a, σ1) → simulates (k a) σ1 v R → simulates (x ← m; k x) σ v R.
Proof. unfold simulates, mbind, prog_bind. by intros ->. Qed.

Section ObjectsFacts.
Context `{Libraries}.

Lemma insert_swaps_on_simulates (nd : nat) (creg : nat) (l : Layout)
    (pairs : result (list (nat * nat))) (σ : list DAGCircuit) (d : DAGCircuit) :
  nd < length σ →
  simulates (insert_swaps_on nd creg l pairs) σ
    (ps ← pairs; insert_swaps (store_at σ d nd l) ps)
    (fun l' σ' st' => frame nd σ σ' ∧ st' = store_at σ' d nd l').
Proof.
  intros Hlt. unfold simulates, insert_swaps_on, insert_swaps.
  unfold mbind at 1 2 3 4 5 6 7 8. unfold prog_bind, new_DAGCircuit, add_qreg, update.
  unfold lift at 1.
  destruct pairs as [ps|e]; [|done]. cbn [mbind result_bind rbind].
  unfold lift at 1. cbn [store_at current_layout new_dag].
  destruct (swap_layer l ps) as [layer|e]; [|done]. cbn [mbind result_bind rbind].
  unfold apply_operations_back, update, get.
  set (σ1 := <[length σ := _]> (<[length σ := _]> (σ ++ [empty_circuit]))).
  assert (Hnew : deref σ1 nd = deref σ nd).
  { unfold σ1. rewrite !deref_insert_ne by lia. by apply deref_app. }
  assert (Hlayer : nodes (deref σ1 (length σ)) = layer).
  { unfold σ1. rewrite deref_insert.
    - rewrite deref_insert; [|rewrite length_app; simpl; lia].
      by rewrite deref_new.
    - rewrite length_insert, length_app. simpl. lia. }
  rewrite Hnew. unfold lift at 1.
  destruct (reorder_bits l (qreg (deref σ nd))) as [order|e]; [|done].
  cbn [mbind result_bind rbind]. unfold compose_on. rewrite Hnew, Hlayer.
  destruct (compose (qreg (deref σ nd)) order layer) as [placed|e]; [|done].
  cbn [mbind result_bind rbind]. unfold lift.
  destruct (apply_swaps l ps) as [l'|e]; [|done]. cbn [mbind result_bind rbind].
  assert (Hlen : length σ1 = S (length σ)).
  { unfold σ1. rewrite !length_insert, length_app. simpl. lia. }
  split.
  - split.
    + rewrite length_insert. lia.
    + intros r' Hr' Hne. rewrite deref_insert_ne by done.
      unfold σ1. rewrite !deref_insert_ne by lia. by apply deref_app.
  - unfold store_at. f_equal. rewrite deref_insert; [done | lia].
Qed.

Lemma route_gate_on_simulates (h : HERR) (nd : nat) (creg : nat) (l : Layout)
    (gate : DAGOpNode) (σ : list DAGCircuit) (d : DAGCircuit) :
  nd < length σ →
  simulates (route_gate_on h nd creg l gate) σ
    (route_gate h (store_at σ d nd l) gate)
    (fun l' σ' st' => frame nd σ σ' ∧ st' = store_at σ' d nd l').
Proof.
  intros Hlt. unfold route_gate_on, route_gate.
  cbn [store_at current_layout].
  assert (Hlift : ∀ (A : Type) (x : result A) (k : A → Prog Layout)
                    (k' : A → result Store),
    (∀ a, simulates (k a) σ (k' a)
            (fun l' σ' st' => frame nd σ σ' ∧ st' = store_at σ' d nd l')) →
    simulates (a ← lift x; k a) σ (a ← x; k' a)
      (fun l' σ' st' => frame nd σ σ' ∧ st' = store_at σ' d nd l')).
  { intros A [a|e] k k' Hk; [apply Hk | done]. }
  apply Hlift. intros p0. apply Hlift. intros p1. apply Hlift. intros [edge|].
  - pose proof (insert_swaps_on_simulates nd creg l
                  (swapPath ← find_shortest_path h (p0, p1) edge;
                   Ok (path_hops swapPath.1 ++ path_hops swapPath.2)) σ d Hlt) as Hs.
    by destruct (find_shortest_path h (p0, p1) edge).
  - apply Hlift. intros dist. destruct (negb (dist =? 1)).
    + pose proof (insert_swaps_on_simulates nd creg l
                    (path ← shortest_undirected_path (couplingMap h) p0 p1;
                     Ok (hops path (length path - 2))) σ d Hlt) as Hs.
      by destruct (shortest_undirected_path (couplingMap h) p0 p1).
    + split; [apply frame_refl | done].
Qed.

Lemma next_layer_new (dag : nat) (node : DAGOpNode) (σ : list DAGCircuit) :
  ∃ σ', next_layer dag node σ = Ok (length σ, σ')
        ∧ length σ' = S (length σ)
        ∧ (∀ r, r < length σ → deref σ' r = deref σ r)
        ∧ nodes (deref σ' (length σ)) = [node].
Proof.
  unfold next_layer, mbind, prog_bind, new_DAGCircuit, get, add_qreg, add_cregs,
    apply_operations_back, update, mret, prog_ret.
  eexists. split; [reflexivity|].
  assert (Hl : length σ < length (σ ++ [empty_circuit])).
  { rewrite length_app. simpl. lia. }
  split; [|split].
  - rewrite !length_insert, length_app. simpl. lia.
  - intros r Hr. rewrite !deref_insert_ne by lia. by apply deref_app.
  - rewrite deref_insert by (by rewrite !length_insert).
    rewrite deref_insert by (by rewrite length_insert).
    rewrite deref_insert by done. rewrite deref_new. reflexivity.
Qed.

Lemma route_layer_on_simulates (h : HERR) (nd : nat) (creg : nat) (l : Layout)
    (subdag : nat) (gate : DAGOpNode) (σ : list DAGCircuit) (d : DAGCircuit) :
  nd < length σ → subdag < length σ → subdag ≠ nd →
  nodes (deref σ subdag) = [gate] →
  simulates (route_layer_on h nd creg l subdag) σ
    (route_layer h (store_at σ d nd l) gate)
    (fun l' σ' st' => frame nd σ σ' ∧ st' = store_at σ' d nd l').
Proof.
  intros Hlt Hsub Hne Hnodes. unfold route_layer_on, route_layer.
  apply simulates_get. rewrite Hnodes. cbn [List.filter].
  assert (Hg : simulates
    (route_gates_on h nd creg l (if is_two_qubit_op gate then [gate] else [])) σ
    (if is_two_qubit_op gate then route_gate h (store_at σ d nd l) gate
     else Ok (store_at σ d nd l))
    (fun l' σ' st' => frame nd σ σ' ∧ st' = store_at σ' d nd l')).
  { destruct (is_two_qubit_op gate); cbn [route_gates_on].
    - pose proof (route_gate_on_simulates h nd creg l gate σ d Hlt) as Hs.
      unfold simulates in *. unfold mbind, prog_bind.
      destruct (route_gate_on h nd creg l gate σ) as [[l1 σ1]|e]; [|done].
      by destruct (route_gate h (store_at σ d nd l) gate).
    - split; [apply frame_refl | done]. }
  eapply simulates_bind; [exact Hg|]. clear Hg.
  intros l1 σ1 st1 [Hf ->]. simpl in Hf.
  unfold simulates, mbind, prog_bind, get, lift, compose_on, mret, prog_ret.
  cbn [store_at current_layout new_dag].
  destruct (reorder_bits l1 (qreg (deref σ1 nd))) as [order|e]; [|done].
  cbn [result_bind rbind].
  rewrite (proj2 Hf subdag Hsub Hne), Hnodes.
  destruct (compose (qreg (deref σ1 nd)) order [gate]) as [placed|e]; [|done].
  cbn [result_bind rbind]. destruct Hf as [Hlen Hsame]. split.
  - split; [rewrite length_insert; lia|].
    intros r' Hr' Hne'. rewrite deref_insert_ne by done. by apply Hsame.
  - unfold store_at. cbn [dag]. f_equal. rewrite deref_insert; [done | lia].
Qed.

Lemma route_layers_on_simulates (h : HERR) (dag nd : nat) (creg : nat)
    (ops : list DAGOpNode) (l : Layout) (σ : list DAGCircuit) (d : DAGCircuit) :
  nd < length σ →
  simulates (route_layers_on h dag nd creg l ops) σ
    (route_layers h (store_at σ d nd l) ops)
    (fun l' σ' st' => frame nd σ σ' ∧ st' = store_at σ' d nd l').
Proof.
  revert l σ; induction ops as [|node rest IH]; intros l σ Hlt;
    cbn [route_layers_on route_layers].
  - split; [apply frame_refl | done].
  - destruct (next_layer_new dag node σ) as (σ1 & Hnext & Hlen & Hsame & Hnodes).
    apply (simulates_step _ _ _ _ _ _ _ Hnext).
    assert (Hst : store_at σ d nd l = store_at σ1 d nd l).
    { unfold store_at. by rewrite Hsame. }
    rewrite Hst.
    assert (Hf1 : frame nd σ σ1).
    { split; [lia|]. intros r Hr _. by apply Hsame. }
    eapply simulates_bind.
    + apply (route_layer_on_simulates h nd creg l (length σ) node σ1 d);
        [lia | lia | lia | done].
    + intros l2 σ2 st2 [Hf2 ->]. simpl.
      pose proof (IH l2 σ2 ltac:(destruct Hf2; lia)) as Hs.
      unfold simulates in *.
      destruct (route_layers_on h dag nd creg l2 rest σ2) as [[l3 σ3]|e];
        destruct (route_layers h (store_at σ2 d nd l2) rest) as [st3|e'];
        try done.
      destruct Hs as [Hf3 ->]. split; [|done].
      eapply frame_trans; [exact Hf1|]. by eapply frame_trans.
Qed.

(** C10.  [run] never writes into its argument.  On every heap and for
    every reference [dag] to an object of the heap, when [run] returns,
    the object at [dag] is as it was, and so is every other object that
    existed before the call; the reference that is returned is that of an
    object that did not exist before, with the registers of the input, and
    this object is the routed circuit.  When [run] raises, so does the
    pass on the circuit at [dag]. *)
Theorem run_does_not_mutate_input (h : HERR) (σ : list DAGCircuit) (dag : nat) :
  dag < length σ →
  match run_on h dag σ with
  | Ok (out, σ') =>
      deref σ' dag = deref σ dag
      ∧ (∀ r, r < length σ → deref σ' r = deref σ r)
      ∧ length σ ≤ out < length σ'
      ∧ qreg (deref σ' out) = qreg (deref σ dag)
      ∧ cregs (deref σ' out) = cregs (deref σ dag)
      ∧ run h (deref σ dag) = Ok (deref σ' out)
  | Raise e => run h (deref σ dag) = Raise e
  end.
Proof.
  intros Hdag. unfold run_on, run, run_store.
  unfold mbind at 1 2 3 4 5. unfold prog_bind, new_DAGCircuit, get, add_qreg,
    add_cregs, update.
  rewrite !(deref_app σ [empty_circuit] dag Hdag).
  set (σ1 := <[length σ := _]> (<[length σ := _]> (σ ++ [empty_circuit]))).
  assert (Hl : length σ < length (σ ++ [empty_circuit])).
  { rewrite length_app. simpl. lia. }
  assert (Hlen : length σ1 = S (length σ)).
  { unfold σ1. rewrite !length_insert, length_app. simpl. lia. }
  assert (Hsame : ∀ r, r < length σ → deref σ1 r = deref σ r).
  { intros r Hr. unfold σ1. rewrite !deref_insert_ne by lia. by apply deref_app. }
  rewrite (Hsame dag Hdag).
  set (d := deref σ dag).
  destruct (size (couplingMap h) <? qreg d); [reflexivity|].
  assert (Hinit : initial_store d = store_at σ1 d (length σ) (generate_trivial_layout (qreg d))).
  { unfold initial_store, store_at. f_equal. unfold σ1.
    rewrite deref_insert by (by rewrite length_insert).
    rewrite deref_insert by done. by rewrite deref_new. }
  rewrite Hinit.
  pose proof (route_layers_on_simulates h dag (length σ) (qreg d) (nodes d)
                (generate_trivial_layout (qreg d)) σ1 d ltac:(lia)) as Hs.
  unfold simulates in Hs. unfold mbind, prog_bind, mret, prog_ret.
  destruct (route_layers_on h dag (length σ) (qreg d) _ (nodes d) σ1)
    as [[l' σ']|e];
    destruct (route_layers h (store_at σ1 d (length σ) _) (nodes d)) as [st'|e'] eqn:Hr;
    try done; [|by subst].
  destruct Hs as [[Hle Hframe] ->]. cbn [result_bind rbind store_at new_dag].
  assert (Hold : ∀ r, r < length σ → deref σ' r = deref σ r).
  { intros r Hr'. rewrite Hframe by lia. by apply Hsame. }
  split; [by apply Hold|]. split; [exact Hold|]. split; [lia|].
  rewrite <- Hinit in Hr.
  destruct (route_layers_effect _ _ _ _ Hr) as (t & (_ & Hq & Hc & _) & _).
  simpl in Hq, Hc. done.
Qed.

End ObjectsFacts.

(** ** The further properties on concrete inputs *)

(** Witness of [find_path_excluding_avoids] (X1). *)
Lemma find_path_excluding_avoids_witness :
  find_path_excluding ring4 1 3 0 = Some [1; 2; 3]
  ∧ path_from_to (get_edges (couplingMap ring4)) 1 3 [1; 2; 3]
  ∧ ¬ In 0 [1; 2; 3] ∧ 1 ≠ 3 ∧ 1 ≠ 0 ∧ 3 ≠ 0.
Proof.
  split; [vm_compute; reflexivity|].
  apply (find_path_excluding_avoids ring4 1 3 0 [1; 2; 3] reference_libraries_sound).
  vm_compute; reflexivity.
Defined.

(** Witness of [second_source_on_candidate] (X2). *)
Lemma second_source_on_candidate_witness :
  2 ≤ 256
  ∧ in_pair 2 (1, 2) = true
  ∧ find_shortest_path (line3 1 1) (0, 2) (1, 2) = Ok (None, None)
  ∧ calc_path_accuracy (line3 1 1) (0, 2) (1, 2) empty_layout = Ok 0%Q.
Proof.
  split; [lia|]. split; [vm_compute; reflexivity|].
  apply (second_source_on_candidate (line3 1 1) 0 2 (1, 2) empty_layout
           cpython_small_ints_shared); [lia | vm_compute; reflexivity].
Defined.

(** Witness of [first_source_on_candidate] (X3). *)
Lemma first_source_on_candidate_witness :
  0 ≤ 256
  ∧ in_pair 0 (0, 1) = true
  ∧ in_pair 2 (0, 1) = false
  ∧ find_shortest_path (line3 (1#2) 1) (0, 2) (0, 1)
    = Ok (None, find_path_excluding (line3 (1#2) 1) 2 (if 0 =? 0 then 1 else 0) 0).
Proof.
  split; [lia|]. split; [vm_compute; reflexivity|]. split; [vm_compute; reflexivity|].
  apply (first_source_on_candidate (line3 (1#2) 1) 0 2 0 1 cpython_small_ints_shared);
    [lia | vm_compute; reflexivity | vm_compute; reflexivity].
Defined.

(** Witness of [both_sources_off_candidate] (X4). *)
Lemma both_sources_off_candidate_witness :
  in_pair 0 (2, 3) = false
  ∧ in_pair 1 (2, 3) = false
  ∧ find_shortest_path ring4 (0, 1) (2, 3)
    = match find_path_excluding ring4 0 2 1, find_path_excluding ring4 0 3 1,
            find_path_excluding ring4 1 2 0, find_path_excluding ring4 1 3 0 with
      | Some q00, Some q01, Some q10, Some q11 =>
          Ok (Some (if (length q01 <? length q00) && (length q01 <? length q11)
                    then q01 else q00),
              Some (if (length q11 <? length q10) && (length q11 <? length q01)
                    then q11 else q10))
      | _, _, _, _ => Raise TypeError
      end.
Proof.
  split; [vm_compute; reflexivity|]. split; [vm_compute; reflexivity|].
  apply (both_sources_off_candidate ring4 0 1 2 3); vm_compute; reflexivity.
Defined.

(** Witness of [accuracies_are_probabilities] (X5). *)
Lemma accuracies_are_probabilities_witness :
  unit_weights (qubitAccuracy ring4) = true
  ∧ (∀ src dst l a,
       calc_path_accuracy ring4 src dst l = Ok a →
       (0 <= a)%Q ∧ (a <= 1)%Q
       ∧ ∀ w, qubitAccuracy ring4 !! edge_key dst.1 dst.2 = Some w → (a <= w)%Q)
  ∧ (∀ qubit1 qubit2 b,
       baseline_accuracy ring4 qubit1 qubit2 = Ok b → (0 <= b)%Q ∧ (b <= 1)%Q).
Proof.
  split; [vm_compute; reflexivity|].
  apply (accuracies_are_probabilities ring4). vm_compute; reflexivity.
Defined.

(** Witness of [better_link_is_near_link] (X6). *)
Lemma better_link_is_near_link_witness :
  find_better_link ring4 0 1 (generate_trivial_layout 4) 2 = Ok (Some (0, 3))
  ∧ linked (get_edges (couplingMap ring4)) 0 3
  ∧ 0 ≤ 3
  ∧ within_depth (couplingMap ring4) 0 1 (0, 3) 2 = Ok true
  ∧ ∃ b a src,
      baseline_accuracy ring4 0 1 = Ok b
      ∧ calc_path_accuracy ring4 src (0, 3) (generate_trivial_layout 4) = Ok a
      ∧ (b < a)%Q.
Proof.
  split; [vm_compute; reflexivity|].
  apply (better_link_is_near_link ring4 0 1 (generate_trivial_layout 4) 2 (0, 3)
           reference_libraries_sound).
  vm_compute; reflexivity.
Defined.

(** Witness of [direct_connect_reaches_link] (X8). *)
Lemma direct_connect_reaches_link_witness :
  ∃ st',
    route_layer (line3 1 1) (initial_store (program 3 [cx 0 2])) (cx 0 2) = Ok st'
    ∧ ∃ a b gate',
        last (nodes (new_dag st')) = Some gate'
        ∧ name gate' = "cx"
        ∧ qargs gate' = [a; b]
        ∧ physical_of (current_layout st') 0 = Ok a
        ∧ physical_of (current_layout st') 2 = Ok b
        ∧ linked (get_edges (couplingMap (line3 1 1))) a b.
Proof.
  eexists. split; [vm_compute; reflexivity|].
  apply (direct_connect_reaches_link (line3 1 1) 3
           (initial_store (program 3 [cx 0 2])) _ (cx 0 2) 0 2 0 2
           reference_libraries_sound).
  - apply generate_trivial_layout_ok.
  - vm_compute; reflexivity.
  - vm_compute; reflexivity.
  - lia.
  - vm_compute; reflexivity.
  - vm_compute; reflexivity.
  - vm_compute; reflexivity.
  - vm_compute; reflexivity.
Defined.

(** Witness of [one_qubit_program_unchanged] (X10). *)
Lemma one_qubit_program_unchanged_witness :
  3 ≤ size (couplingMap (line3 1 1))
  ∧ no_two_qubit_op (program 3 [hgate 0; hgate 2]) = true
  ∧ run (line3 1 1) (program 3 [hgate 0; hgate 2]) = Ok (program 3 [hgate 0; hgate 2]).
Proof.
  split; [vm_compute; lia|]. split; [vm_compute; reflexivity|].
  apply (one_qubit_program_unchanged (line3 1 1) (program 3 [hgate 0; hgate 2]));
    [vm_compute; lia | vm_compute; reflexivity].
Defined.

(** Witness of [operation_moved_to_better_link] (X9). *)
Lemma operation_moved_to_better_link_witness :
  ∃ st',
    route_layer ring4 (initial_store (program 4 [cx 0 1])) (cx 0 1) = Ok st'
    ∧ ∃ gate',
        nodes (new_dag st')
        = [] ++ map (fun w : nat * nat => SwapGate w.1 w.2) (links [1; 2; 3]) ++ [gate']
        ∧ name gate' = "cx"
        ∧ qargs gate' = [0; if 0 =? 0 then 3 else 0]
        ∧ ((0, if 0 =? 0 then 3 else 0) = (0, 3)
           ∨ (0, if 0 =? 0 then 3 else 0) = (3, 0)).
Proof.
  eexists. split; [vm_compute; reflexivity|].
  apply (operation_moved_to_better_link ring4 4
           (initial_store (program 4 [cx 0 1])) _ (cx 0 1) 0 1 0 1 0 3 [1; 2; 3]
           reference_libraries_sound cpython_small_ints_shared).
  - lia.
  - apply generate_trivial_layout_ok.
  - vm_compute; reflexivity.
  - vm_compute; reflexivity.
  - vm_compute; reflexivity.
  - vm_compute; reflexivity.
  - vm_compute; reflexivity.
  - vm_compute; reflexivity.
  - vm_compute; reflexivity.
  - vm_compute; reflexivity.
  - vm_compute; reflexivity.
Defined.

(** Witness of [last_direction_sets_weight] (X13). *)
Lemma last_direction_sets_weight_witness :
  ∃ g, noise_graph [(0, 1); (1, 0)] [(1#2)%Q; (1#4)%Q] = Ok g
       ∧ ∃ w, [(1#2)%Q; (1#4)%Q] !! 1 = Some w
              ∧ edge_weight g 1 0 = Ok w
              ∧ edge_weight g 0 1 = Ok w.
Proof.
  eexists. split; [vm_compute; reflexivity|].
  apply (last_direction_sets_weight [(0, 1); (1, 0)] [(1#2)%Q; (1#4)%Q] _ 1 (1, 0)).
  - apply (bool_decide_unpack _). vm_compute. exact I.
  - vm_compute; reflexivity.
  - reflexivity.
  - intros [|[|j]] e' Hlt He'; [lia | lia | discriminate].
Defined.

(** Witness of [noise_graph_links] (X14). *)
Lemma noise_graph_links_witness :
  ∃ g, noise_graph ring4_list ring4_errors = Ok g
       ∧ (has_edge g 3 0 = true ↔ linked ring4_list 3 0)
       ∧ (linked ring4_list 3 0 → ∃ w, edge_weight g 3 0 = Ok w).
Proof.
  eexists. split; [vm_compute; reflexivity|].
  apply (noise_graph_links ring4_list ring4_errors _ 3 0).
  vm_compute; reflexivity.
Defined.

(** Witness of [error_map_must_cover_coupling_list] (X15). *)
Lemma error_map_must_cover_coupling_list_witness :
  (length ring4_list ≤ length ring4_errors
   ∧ ∃ g, noise_graph ring4_list ring4_errors = Ok g)
  ∧ (NoDup ring4_list
     ∧ length (take 7 ring4_errors) < length ring4_list
     ∧ routeUsingHerr (program 4 [cx 0 1]) ring4_list {| get_edges := ring4_list |}
         (take 7 ring4_errors)
       = Raise IndexError).
Proof.
  split.
  - split; [vm_compute; lia|].
    apply (proj1 (error_map_must_cover_coupling_list ring4_list ring4_errors)).
    vm_compute; lia.
  - assert (Hnd : NoDup ring4_list) by (apply (bool_decide_unpack _); vm_compute; exact I).
    split; [exact Hnd|]. split; [vm_compute; lia|].
    apply (proj2 (error_map_must_cover_coupling_list ring4_list (take 7 ring4_errors))
             Hnd).
    vm_compute; lia.
Defined.

(** Witness of [wrapper_weights_cover_paths] (X16). *)
Lemma wrapper_weights_cover_paths_witness :
  ∃ g, noise_graph ring4_list ring4_errors = Ok g
       ∧ (∀ qubit1 qubit2,
            (∃ b, baseline_accuracy
                    (HERR_init {| get_edges := ring4_list |} g None None)
                    qubit1 qubit2 = Ok b)
            ∨ baseline_accuracy
                (HERR_init {| get_edges := ring4_list |} g None None) qubit1 qubit2
              = Raise CouplingError)
       ∧ (∀ src dst l,
            linked ring4_list dst.1 dst.2 →
            (∃ a, calc_path_accuracy
                    (HERR_init {| get_edges := ring4_list |} g None None) src dst l
                  = Ok a)
            ∨ calc_path_accuracy
                (HERR_init {| get_edges := ring4_list |} g None None) src dst l
              = Raise TypeError).
Proof.
  eexists. split; [vm_compute; reflexivity|].
  apply (wrapper_weights_cover_paths ring4_list {| get_edges := ring4_list |}
           ring4_errors _ reference_libraries_sound).
  - reflexivity.
  - vm_compute; reflexivity.
Defined.

(** Witness of [error_map_aligned_when_complete] (X17). *)
Lemma error_map_aligned_when_complete_witness :
  extractCxErrorMap two_qubit_gates [(0, 1); (1, 0)] = Ok [(1#100)%Q; (1#50)%Q]
  ∧ (Forall (has_entry two_qubit_gates) [(0, 1); (1, 0)] →
     Forall2 (fun line e => ∃ item, first_entry two_qubit_gates line = Some item
                                    ∧ parameters item !! 0 = Some e)
             [(0, 1); (1, 0)] [(1#100)%Q; (1#50)%Q])
  ∧ (¬ Forall (has_entry two_qubit_gates) [(0, 1); (1, 0)] →
     length [(1#100)%Q; (1#50)%Q] < length [(0, 1); (1, 0)]).
Proof.
  split; [vm_compute; reflexivity|].
  apply (error_map_aligned_when_complete two_qubit_gates [(0, 1); (1, 0)]
           [(1#100)%Q; (1#50)%Q]).
  vm_compute; reflexivity.
Defined.

(** Witness of [missing_entry_fails_routing] (X18). *)
Lemma missing_entry_fails_routing_witness :
  NoDup [(0, 1); (1, 0)]
  ∧ ¬ Forall (has_entry (take 2 two_qubit_gates)) [(0, 1); (1, 0)]
  ∧ extractCxErrorMap (take 2 two_qubit_gates) [(0, 1); (1, 0)] = Ok [(1#100)%Q]
  ∧ routeUsingHerr (program 2 [cx 0 1]) [(0, 1); (1, 0)]
      {| get_edges := [(0, 1); (1, 0)] |} [(1#100)%Q]
    = Raise IndexError.
Proof.
  assert (Hnd : NoDup [(0, 1); (1, 0)])
    by (apply (bool_decide_unpack _); vm_compute; exact I).
  assert (Hmiss : ¬ Forall (has_entry (take 2 two_qubit_gates)) [(0, 1); (1, 0)]).
  { intros Hall. inversion Hall as [|? ? _ Hr]; subst.
    inversion Hr as [|? ? [item Hitem] _]; subst. discriminate. }
  split; [exact Hnd|]. split; [exact Hmiss|]. split; [vm_compute; reflexivity|].
  apply (missing_entry_fails_routing (take 2 two_qubit_gates) [(0, 1); (1, 0)]
           [(1#100)%Q] (program 2 [cx 0 1]) {| get_edges := [(0, 1); (1, 0)] |}
           Hnd Hmiss).
  vm_compute; reflexivity.
Defined.

(** Witness of [routing_changes_only_swap_count] (X19). *)
Lemma routing_changes_only_swap_count_witness :
  ∃ routed,
    routeUsingHerr (program 4 [cx 0 1]) ring4_list {| get_edges := ring4_list |}
      ring4_errors = Ok routed
    ∧ (∀ gate_string, gate_string ≠ "swap" →
                      metricDiffGate (program 4 [cx 0 1]) routed gate_string = 0%Z)
    ∧ metricDiffCNOT (program 4 [cx 0 1]) routed = 0%Z
    ∧ (0 <= metricDiffGate (program 4 [cx 0 1]) routed "swap")%Z.
Proof.
  eexists. split; [vm_compute; reflexivity|].
  apply (routing_changes_only_swap_count (program 4 [cx 0 1]) _ ring4_list
           {| get_edges := ring4_list |} ring4_errors).
  vm_compute; reflexivity.
Defined.

(** Witness of [full_register_run_errors] (X12). *)
Lemma full_register_run_errors_witness :
  weights_cover_links ring4 = true
  ∧ qreg (program 4 [cx 0 1; cx 1 2; hgate 3]) = size (couplingMap ring4)
  ∧ well_formed (program 4 [cx 0 1; cx 1 2; hgate 3]) = true
  ∧ returns_or_raises (run ring4 (program 4 [cx 0 1; cx 1 2; hgate 3])).
Proof.
  split; [vm_compute; reflexivity|]. split; [vm_compute; reflexivity|].
  split; [vm_compute; reflexivity|].
  apply (full_register_run_errors ring4 (program 4 [cx 0 1; cx 1 2; hgate 3])
           reference_libraries_sound); vm_compute; reflexivity.
Defined.

(** Witness of [accuracy_without_register_separator] (X20). *)
Lemma accuracy_without_register_separator_witness :
  NoDup [("00", 5); ("11", 3)].*1
  ∧ forallb (fun kv : string * nat => negb (has_space kv.1)) [("00", 5); ("11", 3)]
    = true
  ∧ metricAccuracy 8 [("00", 5); ("11", 3)] ["00"]
    = Ok (true_divide (num_correct (list_to_map [("00", 5); ("11", 3)]) ["00"]) 8).
Proof.
  assert (Hnd : NoDup [("00", 5); ("11", 3)].*1)
    by (apply (bool_decide_unpack _); vm_compute; exact I).
  split; [exact Hnd|]. split; [vm_compute; reflexivity|].
  apply (accuracy_without_register_separator 8 [("00", 5); ("11", 3)] ["00"] Hnd).
  vm_compute; reflexivity.
Defined.

(** Witness of [merged_keys_keep_last_count] (X21). *)
Lemma merged_keys_keep_last_count_witness :
  new_key "00 0" = "00" ∧ new_key "00 1" = "00"
  ∧ metricAccuracy 16 ([("00 0", 5)] ++ ("00 1", 7) :: [("11 0", 4)]) [new_key "00 1"]
    = Ok (true_divide 7 16).
Proof.
  split; [vm_compute; reflexivity|]. split; [vm_compute; reflexivity|].
  apply (merged_keys_keep_last_count 16 [("00 0", 5)] [("11 0", 4)] "00 1" 7).
  - apply (bool_decide_unpack _). vm_compute. exact I.
  - apply (bool_decide_unpack _). vm_compute. exact I.
  - apply (bool_decide_unpack _). vm_compute. exact I.
Defined.

(** Witness of [accuracy_fails_only_without_iterations] (X22). *)
Lemma accuracy_fails_only_without_iterations_witness :
  NoDup [("00 0", 5); ("00", 7)].*1
  ∧ ∃ num : nat,
      metricAccuracy 0 [("00 0", 5); ("00", 7)] ["00"]
      = Ok (if 0 =? 0 then None else Some (Z.of_nat num # Pos.of_nat 0)%Q).
Proof.
  assert (Hnd : NoDup [("00 0", 5); ("00", 7)].*1)
    by (apply (bool_decide_unpack _); vm_compute; exact I).
  split; [exact Hnd|].
  apply (accuracy_fails_only_without_iterations 0 [("00 0", 5); ("00", 7)] ["00"] Hnd).
Defined.

(** ** Traces, swap chains and objects on concrete inputs *)

(** Witness of [missing_path_raises_type_error] (C4): the source pair is
    the link [0 - 1] of [pendant] and the candidate the link [2 - 3];
    without qubit 1 there is no path from qubit 0.  The candidate is
    within the search depth of the pair, and the run of a program with
    one operation on the qubits 0 and 1 fails with the exception. *)
Lemma missing_path_raises_type_error_witness :
  within_depth (couplingMap pendant) 0 1 (2, 3) 2 = Ok true
  ∧ run pendant (program 4 [cx 0 1]) = Raise TypeError
  ∧ in_pair 0 (2, 3) = false
  ∧ in_pair 1 (2, 3) = false
  ∧ find_path_excluding pendant 0 2 1 = None
  ∧ find_shortest_path pendant (0, 1) (2, 3) = Raise TypeError
  ∧ calc_path_accuracy pendant (0, 1) (2, 3) (generate_trivial_layout 4)
    = Raise TypeError.
Proof.
  split; [vm_compute; reflexivity|]. split; [vm_compute; reflexivity|].
  split; [vm_compute; reflexivity|]. split; [vm_compute; reflexivity|].
  split; [vm_compute; reflexivity|].
  apply (missing_path_raises_type_error pendant 0 1 2 3 (generate_trivial_layout 4)).
  - vm_compute; reflexivity.
  - vm_compute; reflexivity.
  - left. vm_compute; reflexivity.
Defined.

(** Witness of [better_link_swap_chain] (C7): the ring of four qubits,
    the operation on the weak link [0 - 1] is moved to the link [0 - 3]
    by a chain of two swaps. *)
Lemma better_link_swap_chain_witness :
  find_better_link ring4 0 1 (generate_trivial_layout 4) 2 = Ok (Some (0, 3))
  ∧ find_shortest_path ring4 (0, 1) (0, 3) = Ok (None, Some [1; 2; 3])
  ∧ observe (route_gate ring4 (initial_store (program 4 [cx 0 1])) (cx 0 1))
    = Ok ([("swap", [1; 2]); ("swap", [2; 3])], [Some 0; Some 2; Some 3; Some 1])
  ∧ route_gate ring4 (initial_store (program 4 [cx 0 1])) (cx 0 1)
    = spec_insert_swaps_immediate (initial_store (program 4 [cx 0 1]))
        [(1, 2); (2, 3)]
  ∧ route_gate ring4 (initial_store (program 4 [cx 0 1])) (cx 0 1)
    = chain_result (initial_store (program 4 [cx 0 1])) [(1, 2); (2, 3)].
Proof.
  split; [vm_compute; reflexivity|]. split; [vm_compute; reflexivity|].
  split; [vm_compute; reflexivity|].
  apply (better_link_swap_chain ring4 (initial_store (program 4 [cx 0 1]))
           (cx 0 1) 0 1 (0, 3) (None, Some [1; 2; 3])).
  - apply generate_trivial_layout_ok.
  - vm_compute; reflexivity.
  - vm_compute; reflexivity.
  - vm_compute; reflexivity.
  - vm_compute; reflexivity.
Defined.

(** Witness of [layout_bijection_on_register] (C8): a program of three
    qubits on the line of four qubits; the first operation is moved from
    the weak link by a swap, and the physical qubit 3 stays without
    entry. *)
Lemma layout_bijection_on_register_witness :
  ∃ st, observe (run_store line4 (program 3 [cx 0 2; hgate 1; cx 1 2]))
        = Ok ([("swap", [2; 1]); ("cx", [0; 1]); ("h", [2]); ("cx", [2; 1])],
              [Some 0; Some 2; Some 1])
        ∧ 3 < size (couplingMap line4)
        ∧ run_store line4 (program 3 [cx 0 2; hgate 1; cx 1 2]) = Ok st
        ∧ ∃ t : list LayerTrace,
            nodes (new_dag st) = trace_nodes t
            ∧ routed (generate_trivial_layout 3) [cx 0 2; hgate 1; cx 1 2] t
                (current_layout st)
            ∧ apply_swaps (generate_trivial_layout 3) (trace_swaps t)
              = Ok (current_layout st)
            ∧ ∀ k, ∃ l,
                apply_swaps (generate_trivial_layout 3) (take k (trace_swaps t)) = Ok l
                ∧ bijection 3 l
                ∧ confined 3 l.
Proof.
  eexists. split; [vm_compute; reflexivity|]. split; [vm_compute; lia|].
  split; [vm_compute; reflexivity|].
  apply (layout_bijection_on_register line4 (program 3 [cx 0 2; hgate 1; cx 1 2])).
  vm_compute; reflexivity.
Defined.

(** Witness of [program_order_preserved] (C9): three different operations
    on the line of three qubits, where every shortest path is the only
    one; the first operation is moved by a swap. *)
Lemma program_order_preserved_witness :
  ∃ out, emitted (run (line3 (1#2) 1) (program 3 [cx 0 2; hgate 1; cx 1 2]))
         = Ok [("swap", [2; 1]); ("cx", [0; 1]); ("h", [2]); ("cx", [2; 1])]
         ∧ run (line3 (1#2) 1) (program 3 [cx 0 2; hgate 1; cx 1 2]) = Ok out
         ∧ ∃ (t : list LayerTrace) (l' : Layout),
             nodes out = trace_nodes t
             ∧ routed (generate_trivial_layout 3) [cx 0 2; hgate 1; cx 1 2] t l'.
Proof.
  eexists. split; [vm_compute; reflexivity|]. split; [vm_compute; reflexivity|].
  apply (program_order_preserved (line3 (1#2) 1)
           (program 3 [cx 0 2; hgate 1; cx 1 2])).
  vm_compute; reflexivity.
Defined.

(** Witness of [run_does_not_mutate_input] (C10): a heap of two circuits,
    the first of which is routed on the ring of four qubits by a run that
    inserts swaps. *)
Lemma run_does_not_mutate_input_witness :
  match run_on ring4 0 [program 4 [cx 0 1]; program 2 [hgate 0]] with
  | Ok (out, σ') =>
      out = 2
      ∧ map (fun g => (name g, qargs g)) (nodes (deref σ' out))
        = [("swap", [1; 2]); ("swap", [2; 3]); ("cx", [0; 3])]
  | Raise _ => False
  end
  ∧ 0 < length [program 4 [cx 0 1]; program 2 [hgate 0]]
  ∧ match run_on ring4 0 [program 4 [cx 0 1]; program 2 [hgate 0]] with
    | Ok (out, σ') =>
        deref σ' 0 = deref [program 4 [cx 0 1]; program 2 [hgate 0]] 0
        ∧ (∀ r, r < length [program 4 [cx 0 1]; program 2 [hgate 0]] →
                deref σ' r = deref [program 4 [cx 0 1]; program 2 [hgate 0]] r)
        ∧ length [program 4 [cx 0 1]; program 2 [hgate 0]] ≤ out < length σ'
        ∧ qreg (deref σ' out)
          = qreg (deref [program 4 [cx 0 1]; program 2 [hgate 0]] 0)
        ∧ cregs (deref σ' out)
          = cregs (deref [program 4 [cx 0 1]; program 2 [hgate 0]] 0)
        ∧ run ring4 (deref [program 4 [cx 0 1]; program 2 [hgate 0]] 0)
          = Ok (deref σ' out)
    | Raise e =>
        run ring4 (deref [program 4 [cx 0 1]; program 2 [hgate 0]] 0) = Raise e
    end.
Proof.
  split; [vm_compute; split; reflexivity|]. split; [simpl; lia|].
  apply (run_does_not_mutate_input ring4 [program 4 [cx 0 1]; program 2 [hgate 0]] 0).
  simpl; lia.
Defined.

(** Witness of [inserted_swaps_on_links] (X7): the same program on the
    line of four qubits. *)
Lemma inserted_swaps_on_links_witness :
  ∃ st, observe (run_store line4 (program 3 [cx 0 2; hgate 1; cx 1 2]))
        = Ok ([("swap", [2; 1]); ("cx", [0; 1]); ("h", [2]); ("cx", [2; 1])],
              [Some 0; Some 2; Some 1])
        ∧ run_store line4 (program 3 [cx 0 2; hgate 1; cx 1 2]) = Ok st
        ∧ ∃ t : list LayerTrace,
            nodes (new_dag st) = trace_nodes t
            ∧ routed (generate_trivial_layout 3) [cx 0 2; hgate 1; cx 1 2] t
                (current_layout st)
            ∧ apply_swaps (generate_trivial_layout 3) (trace_swaps t)
              = Ok (current_layout st)
            ∧ Forall (swaps_on_links (couplingMap line4)) t.
Proof.
  eexists. split; [vm_compute; reflexivity|]. split; [vm_compute; reflexivity|].
  apply (inserted_swaps_on_links line4 (program 3 [cx 0 2; hgate 1; cx 1 2]) _
           reference_libraries_sound).
  vm_compute; reflexivity.
Defined.
